(** * TriangleMesh3 (jet): a shallow embedding of [src/jet/triangle_mesh3.cpp]

    The mesh is a record of seven arrays.  Every member function of the C++
    class becomes a function on that record.  Reading or writing an array
    cell outside its bounds is undefined behaviour in C++; here such an
    access makes the function return [None].  Array sizes are natural
    numbers (an array cannot hold 2^64 cells, so sizes do not wrap); the
    indices stored in faces are [size_t] values, and arithmetic on them
    wraps.  Doubles are kept abstract behind the interface [Float64], with
    IEEE doubles and exact rationals as instances; the single-triangle
    primitive [Triangle3], whose implementation is not part of this
    translation unit, is the interface [Triangle3Prim], and likewise the
    bounding box ([BoundingBox3Prim]) and the rotation ([QuaternionPrim]).
    The parallel loop [parallelFor] runs its bodies in the order of a
    schedule, which the transforms take as an argument. *)

From Stdlib Require Import ZArith NArith QArith Lia.
From Stdlib Require Floats.
From stdpp Require Import base option list numbers strings pretty.

Local Open Scope nat_scope.

(** ** Doubles *)

(** The operations on [double] the translation unit uses.  [flt] is the
    built-in [operator<]; [fshow] is [operator<<(std::ostream&, double)]. *)
Class Float64 (D : Type) := {
  f0 : D;
  f1 : D;
  DBL_MAX : D;
  fneg : D → D;
  fadd : D → D → D;
  fsub : D → D → D;
  fmul : D → D → D;
  fdiv : D → D → D;
  flt : D → D → bool;
  fsqrt : D → D;
  facos : D → D;
  fshow : D → string
}.

(** [a > b] is [b < a]. *)
Definition fgt `{Float64 D} (a b : D) : bool := flt b a.

(** [std::min(a, b)] returns [b] when [b < a] and [a] otherwise. *)
Definition std_min `{Float64 D} (a b : D) : D := if flt b a then b else a.

(** Modelled from the spec: jet's [clamp(val, low, high)] lives in
    [math_utils.h], which is not under src/; the spec says the dot product is
    clamped to the interval from -1 to 1. *)
Definition clamp `{Float64 D} (val low high : D) : D :=
  if flt val low then low else if fgt val high then high else val.

(** ** size_t *)

Definition SIZE_MOD : Z := 2 ^ 64.

(** Conversion of a signed index to [size_t] (modular). *)
Definition to_size_t (v : Z) : N := Z.to_N (v mod SIZE_MOD).

(** [i + 1] on [size_t]. *)
Definition size_succ (i : N) : N := ((i + 1) mod 2 ^ 64)%N.

(** ** Vectors, points, triangles *)

Record Vec3 (A : Type) := mkVec3 { x : A; y : A; z : A }.
Arguments mkVec3 {A} _ _ _.
Arguments x {A} _.
Arguments y {A} _.
Arguments z {A} _.

Record Vec2 (A : Type) := mkVec2 { u : A; v : A }.
Arguments mkVec2 {A} _ _.
Arguments u {A} _.
Arguments v {A} _.

Abbreviation Vector3D D := (Vec3 D).
Abbreviation Vector2D D := (Vec2 D).
Abbreviation Point3UI := (Vec3 N).

Section VectorOps.
Context {D : Type} `{!Float64 D}.

(** Modelled from the spec: the constructors [Vector3D()] and [Vector2D()]
    ([vector3.h], [vector2.h]) are not under src/; the spec calls the value
    that [Vector3D()] leaves in an accumulator the zero vector. *)
Definition Vector3D_zero : Vector3D D := mkVec3 f0 f0 f0.
Definition Vector2D_zero : Vector2D D := mkVec2 f0 f0.

(** Modelled from the spec: the arithmetic of [Vector3D] ([vector3.h]) is
    not under src/.  The definitions from here to [normalize] are the
    componentwise operations, the dot and cross products, the squared
    Euclidean length and the division by the length that the spec's formulas
    name. *)
Definition vsub (a b : Vector3D D) : Vector3D D :=
  mkVec3 (fsub (x a) (x b)) (fsub (y a) (y b)) (fsub (z a) (z b)).
Definition vadd (a b : Vector3D D) : Vector3D D :=
  mkVec3 (fadd (x a) (x b)) (fadd (y a) (y b)) (fadd (z a) (z b)).
Definition vscale (s : D) (a : Vector3D D) : Vector3D D :=
  mkVec3 (fmul s (x a)) (fmul s (y a)) (fmul s (z a)).
Definition vdiv (a : Vector3D D) (s : D) : Vector3D D :=
  mkVec3 (fdiv (x a) s) (fdiv (y a) s) (fdiv (z a) s).
Definition dot (a b : Vector3D D) : D :=
  fadd (fadd (fmul (x a) (x b)) (fmul (y a) (y b))) (fmul (z a) (z b)).
Definition cross (a b : Vector3D D) : Vector3D D :=
  mkVec3 (fsub (fmul (y a) (z b)) (fmul (z a) (y b)))
         (fsub (fmul (z a) (x b)) (fmul (x a) (z b)))
         (fsub (fmul (x a) (y b)) (fmul (y a) (x b))).
Definition lengthSquared (a : Vector3D D) : D := dot a a.
Definition length3 (a : Vector3D D) : D := fsqrt (lengthSquared a).
Definition normalize (a : Vector3D D) : Vector3D D := vdiv a (length3 a).
End VectorOps.

(** A triangle: three positions, three normals, three texture coordinates. *)
Record Triangle3 (D : Type) := mkTriangle3 {
  points : Vector3D D * Vector3D D * Vector3D D;
  normals : Vector3D D * Vector3D D * Vector3D D;
  uvs : Vector2D D * Vector2D D * Vector2D D
}.
Arguments mkTriangle3 {D} _ _ _.
Arguments points {D} _.
Arguments normals {D} _.
Arguments uvs {D} _.

Record Ray3D (D : Type) := mkRay3D { origin : Vector3D D; direction : Vector3D D }.
Arguments mkRay3D {D} _ _.

(** The capabilities of [Triangle3] and of the intersection record that this
    translation unit consumes; their bodies live elsewhere.
    [tri_getClosestIntersection tri ray] is the record that
    [tri.getClosestIntersection(ray, &tmp)] leaves in a freshly constructed
    [tmp]; [sri_t] reads its field [t]. *)
Class Triangle3Prim (D : Type) := {
  SurfaceRayIntersection3 : Type;
  sri_t : SurfaceRayIntersection3 → D;
  tri_closestPoint : Triangle3 D → Vector3D D → Vector3D D;
  tri_closestNormal : Triangle3 D → Vector3D D → Vector3D D;
  tri_closestDistance : Triangle3 D → Vector3D D → D;
  tri_intersects : Triangle3 D → Ray3D D → bool;
  tri_getClosestIntersection : Triangle3 D → Ray3D D → SurfaceRayIntersection3;
  tri_area : Triangle3 D → D;
  tri_sample : Triangle3 D → D → D → Vector3D D * Vector3D D;
  tri_faceNormal : Triangle3 D → Vector3D D
}.

(** ** Arrays and loops *)

(** [a[i]] for a [size_t] index: [None] when [i] is out of range. *)
Definition at_ {A} (a : list A) (i : N) : option A := a !! N.to_nat i.

(** [a[i] = v]: [None] when [i] is out of range. *)
Definition store {A} (a : list A) (i : nat) (v : A) : option (list A) :=
  if decide (i < length a) then Some (<[i := v]> a) else None.

(** [Array1::resize(n, init)], a [std::vector::resize], is stdpp's
    [resize n init a]: the first [n] cells are kept and new cells are filled
    with [init]. *)

(** [for (size_t i = start; i < start + count; ++i) body], with the loop
    state threaded through and any failure of the body ending the run.  The
    count is fixed on entry: no loop of this file changes its own bound. *)
Fixpoint for_loop {St} (body : nat → St → option St) (start count : nat) (s : St)
  : option St :=
  match count with
  | 0 => Some s
  | S c => s' ← body start s; for_loop body (S start) c s'
  end.

(** ** The mesh *)

Record TriangleMesh3 (D : Type) := mkMesh {
  _points : list (Vector3D D);
  _normals : list (Vector3D D);
  _uvs : list (Vector2D D);
  _pointIndices : list Point3UI;
  _normalIndices : list Point3UI;
  _uvIndices : list Point3UI;
  _areaCache : list D
}.
Arguments mkMesh {D} _ _ _ _ _ _ _.
Arguments _points {D} _.
Arguments _normals {D} _.
Arguments _uvs {D} _.
Arguments _pointIndices {D} _.
Arguments _normalIndices {D} _.
Arguments _uvIndices {D} _.
Arguments _areaCache {D} _.

Section Mesh.
Context {D : Type} `{!Float64 D} `{!Triangle3Prim D}.

Local Abbreviation Mesh := (TriangleMesh3 D).

(** [TriangleMesh3::TriangleMesh3()] *)
Definition empty_mesh : Mesh := mkMesh [] [] [] [] [] [] [].

Definition numberOfPoints (m : Mesh) : nat := length (_points m).
Definition numberOfNormals (m : Mesh) : nat := length (_normals m).
Definition numberOfUvs (m : Mesh) : nat := length (_uvs m).
Definition numberOfFaces (m : Mesh) : nat := length (_pointIndices m).
Definition hasNormals (m : Mesh) : bool := bool_decide (0 < length (_normals m)).
Definition hasUvs (m : Mesh) : bool := bool_decide (0 < length (_uvs m)).

(** Gathering the three cells a face-index triple names. *)
Definition gather {A} (a : list A) (f : Point3UI) : option (A * A * A) :=
  a0 ← at_ a (x f); a1 ← at_ a (y f); a2 ← at_ a (z f); Some (a0, a1, a2).

(** [TriangleMesh3::triangle(i)] *)
Definition triangle (m : Mesh) (i : nat) : option (Triangle3 D) :=
  pf ← _pointIndices m !! i;
  pts ← gather (_points m) pf;
  tuv ← (if hasUvs m
         then tf ← _uvIndices m !! i; gather (_uvs m) tf
         else Some (Vector2D_zero, Vector2D_zero, Vector2D_zero));
  let tri := mkTriangle3 pts (Vector3D_zero, Vector3D_zero, Vector3D_zero) tuv in
  let n := tri_faceNormal tri in
  nrm ← (if hasNormals m
         then nf ← _normalIndices m !! i; gather (_normals m) nf
         else Some (n, n, n));
  Some (mkTriangle3 pts nrm tuv).

(** *** Query engine *)

(** [TriangleMesh3::closestPoint] *)
Definition closestPoint (m : Mesh) (otherPoint : Vector3D D) : option (Vector3D D) :=
  let mx := DBL_MAX in
  let n := numberOfFaces m in
  r ← for_loop (fun i '(minDistPt, minDistSquared) =>
         tri ← triangle m i;
         let pt := tri_closestPoint tri otherPoint in
         let distSquared := lengthSquared (vsub otherPoint pt) in
         if flt distSquared minDistSquared
         then Some (pt, distSquared)
         else Some (minDistPt, minDistSquared))
       0 n (mkVec3 mx mx mx, mx);
  Some r.1.

(** [TriangleMesh3::actualClosestNormal] *)
Definition actualClosestNormal (m : Mesh) (otherPoint : Vector3D D)
  : option (Vector3D D) :=
  let mx := DBL_MAX in
  let n := numberOfFaces m in
  r ← for_loop (fun i '(minDistPt, minDistNormal, minDistSquared) =>
         tri ← triangle m i;
         let pt := tri_closestPoint tri otherPoint in
         let distSquared := lengthSquared (vsub otherPoint pt) in
         if flt distSquared minDistSquared
         then Some (pt, tri_closestNormal tri otherPoint, distSquared)
         else Some (minDistPt, minDistNormal, minDistSquared))
       0 n (mkVec3 mx mx mx, mkVec3 f1 f0 f0, mx);
  Some r.1.2.

(** [TriangleMesh3::closestDistance] *)
Definition closestDistance (m : Mesh) (otherPoint : Vector3D D) : option D :=
  let n := numberOfFaces m in
  for_loop (fun i minDist =>
      tri ← triangle m i;
      Some (std_min minDist (tri_closestDistance tri otherPoint)))
    0 n DBL_MAX.

(** [TriangleMesh3::area] *)
Definition area (m : Mesh) : option D :=
  for_loop (fun i a =>
      tri ← triangle m i;
      Some (fadd a (tri_area tri)))
    0 (numberOfFaces m) f0.

(** [TriangleMesh3::getClosestIntersection]: the result is the final
    content of [*intersection], whose initial content is the argument. *)
Definition getClosestIntersection (m : Mesh) (ray : Ray3D D)
    (intersection : SurfaceRayIntersection3) : option SurfaceRayIntersection3 :=
  let n := numberOfFaces m in
  r ← for_loop (fun i '(t, out) =>
         tri ← triangle m i;
         let tmpIntersection := tri_getClosestIntersection tri ray in
         if flt (sri_t tmpIntersection) t
         then Some (sri_t tmpIntersection, tmpIntersection)
         else Some (t, out))
       0 n (DBL_MAX, intersection);
  Some r.2.

(** *** Stochastic sampler *)

Definition set_areaCache (m : Mesh) (c : list D) : Mesh :=
  mkMesh (_points m) (_normals m) (_uvs m)
         (_pointIndices m) (_normalIndices m) (_uvIndices m) c.

(** The body shared by [computeAreaCache] and [computeAreaCacheP]. *)
Definition areaCacheBody (m : Mesh) : option Mesh :=
  let c0 := resize (numberOfFaces m + 1) f0 (_areaCache m) in
  (* compute area weighted CDF *)
  c1 ← store c0 0 f0;
  c2 ← for_loop (fun i c =>
          tri ← triangle m (i - 1);
          let triarea := tri_area tri in
          prev ← c !! (i - 1);
          store c i (fadd triarea prev))
        1 (length c1 - 1) c1;
  (* normalize areaCache *)
  c3 ← for_loop (fun i c =>
          ci ← c !! i;
          total ← c !! numberOfFaces m;
          store c i (fdiv ci total))
        1 (length c2 - 1) c2;
  Some (set_areaCache m c3).

(** [TriangleMesh3::computeAreaCache] *)
Definition computeAreaCache (m : Mesh) : option Mesh := areaCacheBody m.

(** [TriangleMesh3::computeAreaCacheP], the [const] twin that [sample]
    calls; [_areaCache] is [mutable]. *)
Definition computeAreaCacheP (m : Mesh) : option Mesh := areaCacheBody m.

(** [std::lower_bound(first, first + len, val)] over an array of doubles:
    the standard halving search.  [fuel] bounds the number of iterations;
    [len] iterations always suffice. *)
Fixpoint lower_bound_loop (fuel : nat) (a : list D) (val : D) (first len : nat)
  : option nat :=
  match fuel with
  | 0 => if decide (0 < len) then None else Some first
  | S fuel' =>
      if decide (0 < len) then
        let half := len / 2 in
        let middle := first + half in
        e ← a !! middle;
        if flt e val
        then lower_bound_loop fuel' a val (middle + 1) (len - half - 1)
        else lower_bound_loop fuel' a val first half
      else Some first
  end.

Definition lower_bound (a : list D) (val : D) : option nat :=
  lower_bound_loop (length a) a val 0 (length a).

(** [TriangleMesh3::sample]: the sampled point and normal, and the mesh
    with its (possibly rebuilt) area cache. *)
Definition sample (m : Mesh) (u1 u2 u3 : D)
  : option (Vector3D D * Vector3D D * Mesh) :=
  m1 ← (if decide (length (_areaCache m) ≠ numberOfFaces m + 1)
        then computeAreaCacheP m
        else Some m);
  (* pick a triangle *)
  ptr ← lower_bound (_areaCache m1) u1;
  let offset := if decide (0 < ptr) then ptr - 1 else 0 in
  (* sample on the triangle *)
  tri ← triangle m1 offset;
  Some (tri_sample tri u2 u3, m1).

(** *** Appending attributes and faces *)

(** Modelled from the spec: [JET_ASSERT] is defined in [macros.h], which is
    not under src/; the spec says precondition violations are optionally
    asserted in debug builds.  With [debug] the assertion aborts when the
    condition is false; without it the macro expands to nothing. *)
Definition JET_ASSERT (debug cond : bool) : option unit :=
  if debug && negb cond then None else Some ().

Definition addPoint (m : Mesh) (pt : Vector3D D) : Mesh :=
  mkMesh (_points m ++ [pt]) (_normals m) (_uvs m)
         (_pointIndices m) (_normalIndices m) (_uvIndices m) (_areaCache m).

Definition addNormal (m : Mesh) (n : Vector3D D) : Mesh :=
  mkMesh (_points m) (_normals m ++ [n]) (_uvs m)
         (_pointIndices m) (_normalIndices m) (_uvIndices m) (_areaCache m).

Definition addUv (m : Mesh) (t : Vector2D D) : Mesh :=
  mkMesh (_points m) (_normals m) (_uvs m ++ [t])
         (_pointIndices m) (_normalIndices m) (_uvIndices m) (_areaCache m).

Definition addPointFace (m : Mesh) (newPointIndices : Point3UI) : Mesh :=
  mkMesh (_points m) (_normals m) (_uvs m)
         (_pointIndices m ++ [newPointIndices]) (_normalIndices m) (_uvIndices m)
         (_areaCache m).

Definition addPointNormalFace (debug : bool) (m : Mesh)
    (newPointIndices newNormalIndices : Point3UI) : option Mesh :=
  _ ← JET_ASSERT debug
        (bool_decide (length (_pointIndices m) = length (_normalIndices m)));
  Some (mkMesh (_points m) (_normals m) (_uvs m)
         (_pointIndices m ++ [newPointIndices])
         (_normalIndices m ++ [newNormalIndices]) (_uvIndices m) (_areaCache m)).

Definition addPointNormalUvFace (debug : bool) (m : Mesh)
    (newPointIndices newNormalIndices newUvIndices : Point3UI) : option Mesh :=
  _ ← JET_ASSERT debug
        (bool_decide (length (_pointIndices m) = length (_normalIndices m)));
  _ ← JET_ASSERT debug
        (bool_decide (length (_pointIndices m) = length (_uvs m)));
  Some (mkMesh (_points m) (_normals m) (_uvs m)
         (_pointIndices m ++ [newPointIndices])
         (_normalIndices m ++ [newNormalIndices])
         (_uvIndices m ++ [newUvIndices]) (_areaCache m)).

Definition addPointUvFace (debug : bool) (m : Mesh)
    (newPointIndices newUvIndices : Point3UI) : option Mesh :=
  _ ← JET_ASSERT debug
        (bool_decide (length (_pointIndices m) = length (_uvs m)));
  Some (mkMesh (_points m) (_normals m) (_uvs m)
         (_pointIndices m ++ [newPointIndices]) (_normalIndices m)
         (_uvIndices m ++ [newUvIndices]) (_areaCache m)).

(** [TriangleMesh3::addTriangle] *)
Definition addTriangle (m : Mesh) (tri : Triangle3 D) : Mesh :=
  let vStart := N.of_nat (length (_points m)) in
  let nStart := N.of_nat (length (_normals m)) in
  let tStart := N.of_nat (length (_uvs m)) in
  let '(p0, p1, p2) := points tri in
  let '(n0, n1, n2) := normals tri in
  let '(t0, t1, t2) := uvs tri in
  let newPointIndices := mkVec3 vStart (vStart + 1)%N (vStart + 2)%N in
  let newNormalIndices := mkVec3 nStart (nStart + 1)%N (nStart + 2)%N in
  let newUvIndices := mkVec3 tStart (tStart + 1)%N (tStart + 2)%N in
  mkMesh (_points m ++ [p0; p1; p2]) (_normals m ++ [n0; n1; n2])
         (_uvs m ++ [t0; t1; t2])
         (_pointIndices m ++ [newPointIndices])
         (_normalIndices m ++ [newNormalIndices])
         (_uvIndices m ++ [newUvIndices]) (_areaCache m).

(** The four face-append variants as one call type, and a run of calls. *)
Inductive FaceAppend :=
| AddPointFace (p : Point3UI)
| AddPointNormalFace (p n : Point3UI)
| AddPointNormalUvFace (p n t : Point3UI)
| AddPointUvFace (p t : Point3UI).

Definition faceAppend (debug : bool) (m : Mesh) (c : FaceAppend) : option Mesh :=
  match c with
  | AddPointFace p => Some (addPointFace m p)
  | AddPointNormalFace p n => addPointNormalFace debug m p n
  | AddPointNormalUvFace p n t => addPointNormalUvFace debug m p n t
  | AddPointUvFace p t => addPointUvFace debug m p t
  end.

Fixpoint faceAppends (debug : bool) (m : Mesh) (cs : list FaceAppend) : option Mesh :=
  match cs with
  | [] => Some m
  | c :: cs' => m' ← faceAppend debug m c; faceAppends debug m' cs'
  end.

(** *** Normal synthesizer *)

Definition set_normals (m : Mesh) (ns : list (Vector3D D)) : Mesh :=
  mkMesh (_points m) ns (_uvs m)
         (_pointIndices m) (_normalIndices m) (_uvIndices m) (_areaCache m).

Definition set_normalIndices (m : Mesh) (fs : list Point3UI) : Mesh :=
  mkMesh (_points m) (_normals m) (_uvs m)
         (_pointIndices m) fs (_uvIndices m) (_areaCache m).

(** One iteration of the face loop of [setFaceNormal]. *)
Definition setFaceNormal_body (i : nat) (m : Mesh) : option Mesh :=
  tri ← triangle m i;
  let n := tri_faceNormal tri in
  f ← _pointIndices m !! i;
  n1 ← store (_normals m) (N.to_nat (x f)) n;
  n2 ← store n1 (N.to_nat (y f)) n;
  n3 ← store n2 (N.to_nat (z f)) n;
  Some (set_normals m n3).

(** [TriangleMesh3::setFaceNormal] *)
Definition setFaceNormal (m : Mesh) : option Mesh :=
  let m1 := set_normals m (resize (length (_points m)) Vector3D_zero (_normals m)) in
  let m2 := set_normalIndices m1 (_pointIndices m1) in
  for_loop setFaceNormal_body 0 (numberOfFaces m2) m2.

(** The state of the face loop of [setAngleWeightedVertexNormal]: the two
    accumulator arrays, and (as a ghost) the arguments [std::acos] has been
    called with so far, oldest first. *)
Record AngleAcc := mkAngleAcc {
  angleWeights : list D;
  pseudoNormals : list (Vector3D D);
  acosArgs : list D
}.

(** The block "Angle for point k": [pa] is the corner, [pb] and [pc] are
    the ends of its two edges, [ia] is the corner's vertex index. *)
Definition angleForPoint (pa pb pc : Vector3D D) (ia : N) (s : AngleAcc)
  : option AngleAcc :=
  let e0 := normalize (vsub pb pa) in
  let e1 := normalize (vsub pc pa) in
  let normal := normalize (cross e0 e1) in
  let cosangle := clamp (dot e0 e1) (fneg f1) f1 in
  let angle := facos cosangle in
  w ← at_ (angleWeights s) ia;
  ws ← store (angleWeights s) (N.to_nat ia) (fadd w angle);
  pn ← at_ (pseudoNormals s) ia;
  ps ← store (pseudoNormals s) (N.to_nat ia) (vadd pn (vscale angle normal));
  Some (mkAngleAcc ws ps (acosArgs s ++ [cosangle])).

Definition angleWeighted_body (m : Mesh) (i : nat) (s : AngleAcc) : option AngleAcc :=
  f ← _pointIndices m !! i;
  (* Quick references *)
  pts ← gather (_points m) f;
  let '(p0, p1, p2) := pts in
  s0 ← angleForPoint p0 p1 p2 (x f) s;
  s1 ← angleForPoint p1 p2 p0 (y f) s0;
  angleForPoint p2 p0 p1 (z f) s1.

(** The last loop: divide where the accumulated angle is positive. *)
Definition divideByWeight (ws : list D) (i : nat) (ps : list (Vector3D D))
  : option (list (Vector3D D)) :=
  w ← ws !! i;
  if fgt w f0 then p ← ps !! i; store ps i (vdiv p w) else Some ps.

(** [TriangleMesh3::setAngleWeightedVertexNormal]: the new mesh and the
    arguments of the calls of [std::acos]. *)
Definition setAngleWeightedVertexNormal (m : Mesh) : option (Mesh * list D) :=
  let m1 := set_normalIndices (set_normals m []) [] in
  let npts := length (_points m1) in
  let s0 := mkAngleAcc (replicate npts f0) (replicate npts Vector3D_zero) [] in
  s ← for_loop (angleWeighted_body m1) 0 (numberOfFaces m1) s0;
  ps ← for_loop (divideByWeight (angleWeights s)) 0 npts (pseudoNormals s);
  let m2 := set_normals m1 ps in
  Some (set_normalIndices m2 (_pointIndices m2), acosArgs s).

(** *** Text interchange *)

(** [std::endl] *)
Definition endl : string := String (Ascii.ascii_of_nat 10) EmptyString.

(** [operator<<(std::ostream&, const Vector2D&)] *)
Definition show_Vector2D (t : Vector2D D) : string :=
  fshow (u t) +:+ " " +:+ fshow (v t).

(** [operator<<(std::ostream&, const Vector3D&)] *)
Definition show_Vector3D (p : Vector3D D) : string :=
  fshow (x p) +:+ " " +:+ fshow (y p) +:+ " " +:+ fshow (z p).

(** [f[j]] for [j] below 3. *)
Definition idx3 (f : Point3UI) (j : nat) : N :=
  match j with 0 => x f | 1 => y f | _ => z f end.

(** The inner loop body of [writeObj]: vertex [j] of face [i]. *)
Definition writeObj_vertex (m : Mesh) (hasUvs_ hasNormals_ : bool) (i j : nat)
    (strm : string) : option string :=
  pf ← _pointIndices m !! i;
  let strm := strm +:+ pretty (size_succ (idx3 pf j)) in
  let strm := if hasNormals_ || hasUvs_ then strm +:+ "/" else strm in
  strm ← (if hasUvs_
          then tf ← _uvIndices m !! i;
               Some (strm +:+ pretty (size_succ (idx3 tf j)))
          else Some strm);
  strm ← (if hasNormals_
          then nf ← _normalIndices m !! i;
               Some (strm +:+ "/" +:+ pretty (size_succ (idx3 nf j)))
          else Some strm);
  Some (strm +:+ " ").

(** [TriangleMesh3::writeObj]: the stream content after the call, given
    the content before. *)
Definition writeObj (m : Mesh) (strm : string) : option string :=
  (* vertex *)
  let strm := foldl (fun s pt => s +:+ "v " +:+ show_Vector3D pt +:+ endl)
                    strm (_points m) in
  (* uv coords *)
  let strm := foldl (fun s uv => s +:+ "vt " +:+ show_Vector2D uv +:+ endl)
                    strm (_uvs m) in
  (* normals *)
  let strm := foldl (fun s n => s +:+ "vn " +:+ show_Vector3D n +:+ endl)
                    strm (_normals m) in
  (* faces *)
  let hasUvs_ := hasUvs m in
  let hasNormals_ := hasNormals m in
  for_loop (fun i strm =>
      let strm := strm +:+ "f " in
      strm ← for_loop (writeObj_vertex m hasUvs_ hasNormals_ i) 0 3 strm;
      Some (strm +:+ endl))
    0 (numberOfFaces m) strm.

(** The events the external decoder [obj::obj_parser] reports, one
    constructor per callback [readObj] registers.  An index tuple lists a
    vertex's indices in the order of the callback's name. *)
Inductive ObjEvent :=
| info_event (lineNumber : nat) (message : string)
| warning_event (lineNumber : nat) (message : string)
| error_event (lineNumber : nat) (message : string)
| geometric_vertex (px py pz : D)
| texture_vertex (tu tv : D)
| vertex_normal (nx ny nz : D)
| triangular_face_geometric_vertices (v0 v1 v2 : Z)
| triangular_face_geometric_vertices_texture_vertices
    (v0_vt0 v1_vt1 v2_vt2 : Z * Z)
| triangular_face_geometric_vertices_vertex_normals
    (v0_vn0 v1_vn1 v2_vn2 : Z * Z)
| triangular_face_geometric_vertices_texture_vertices_vertex_normals
    (v0_vt0_vn0 v1_vt1_vn1 v2_vt2_vn2 : Z * Z * Z)
| quadrilateral_face_geometric_vertices (v0 v1 v2 v3 : Z)
| quadrilateral_face_geometric_vertices_texture_vertices (a b c d : Z * Z)
| quadrilateral_face_geometric_vertices_vertex_normals (a b c d : Z * Z)
| quadrilateral_face_geometric_vertices_texture_vertices_vertex_normals
    (a b c d : Z * Z * Z)
| polygonal_face_geometric_vertices_begin (v0 v1 v2 : Z)
| polygonal_face_geometric_vertices_vertex (v0 : Z)
| polygonal_face_geometric_vertices_end
| polygonal_face_geometric_vertices_texture_vertices_begin (a b c : Z * Z)
| polygonal_face_geometric_vertices_texture_vertices_vertex (a : Z * Z)
| polygonal_face_geometric_vertices_texture_vertices_end
| polygonal_face_geometric_vertices_vertex_normals_begin (a b c : Z * Z)
| polygonal_face_geometric_vertices_vertex_normals_vertex (a : Z * Z)
| polygonal_face_geometric_vertices_vertex_normals_end
| polygonal_face_geometric_vertices_texture_vertices_vertex_normals_begin
    (a b c : Z * Z * Z)
| polygonal_face_geometric_vertices_texture_vertices_vertex_normals_vertex
    (a : Z * Z * Z)
| polygonal_face_geometric_vertices_texture_vertices_vertex_normals_end
| group_name (name : string)
| smoothing_group (g : N)
| object_name (name : string)
| material_library (name : string)
| material_name (name : string)
| comment (text : string).

(** [{a - 1, b - 1, c - 1}] as a [Point3UI]: the subtraction is done on the
    signed [obj::index_type], the result converted to [size_t]. *)
Definition minus1 (a b c : Z) : Point3UI :=
  mkVec3 (to_size_t (a - 1)) (to_size_t (b - 1)) (to_size_t (c - 1)).

(** The callbacks [readObj] registers, as one function of the event.  The
    three message callbacks only print. *)
Definition callback (debug : bool) (m : Mesh) (e : ObjEvent) : option Mesh :=
  match e with
  | geometric_vertex px py pz => Some (addPoint m (mkVec3 px py pz))
  | texture_vertex tu tv => Some (addUv m (mkVec2 tu tv))
  | vertex_normal nx ny nz => Some (addNormal m (mkVec3 nx ny nz))
  | triangular_face_geometric_vertices v0 v1 v2 =>
      Some (addPointFace m (minus1 v0 v1 v2))
  | triangular_face_geometric_vertices_texture_vertices v0_vt0 v1_vt1 v2_vt2 =>
      addPointUvFace debug m
        (minus1 v0_vt0.1 v1_vt1.1 v2_vt2.1)
        (minus1 v0_vt0.2 v1_vt1.2 v2_vt2.2)
  | triangular_face_geometric_vertices_vertex_normals v0_vn0 v1_vn1 v2_vn2 =>
      addPointNormalFace debug m
        (minus1 v0_vn0.1 v1_vn1.1 v2_vn2.1)
        (minus1 v0_vn0.2 v1_vn1.2 v2_vn2.2)
  | triangular_face_geometric_vertices_texture_vertices_vertex_normals
      v0_vt0_vn0 v1_vt1_vn1 v2_vt2_vn2 =>
      addPointNormalUvFace debug m
        (minus1 v0_vt0_vn0.1.1 v1_vt1_vn1.1.1 v2_vt2_vn2.1.1)
        (minus1 v0_vt0_vn0.1.2 v1_vt1_vn1.1.2 v2_vt2_vn2.1.2)
        (minus1 v0_vt0_vn0.2 v1_vt1_vn1.2 v2_vt2_vn2.2)
  (* the message callbacks only print; every other callback has an empty body *)
  | _ => Some m
  end.

Fixpoint callbacks (debug : bool) (m : Mesh) (es : list ObjEvent) : option Mesh :=
  match es with
  | [] => Some m
  | e :: es' => m' ← callback debug m e; callbacks debug m' es'
  end.

(** [TriangleMesh3::readObj].  [parse strm] stands for
    [obj::obj_parser::parse]: the events it reports while reading [strm], in
    order, and the boolean it returns. *)
Definition readObj {istream : Type} (parse : istream → list ObjEvent * bool)
    (debug : bool) (m : Mesh) (strm : istream) : option (Mesh * bool) :=
  let '(events, ok) := parse strm in
  m' ← callbacks debug m events;
  Some (m', ok).

End Mesh.

(** ** The rest of the class *)

(** [std::max(a, b)] returns [b] when [a < b] and [a] otherwise. *)
Definition std_max `{Float64 D} (a b : D) : D := if flt a b then b else a.

(** The [double] that the literal [6.f] converts to. *)
Class Float64Six (D : Type) := f6 : D.

(** Modelled from the spec: [BoundingBox3D] ([bounding_box3.h]) is not
    under src/; the spec calls the result of [boundingBox] the axis-aligned
    box formed by merging the three vertex positions of every face.
    [box_default] is the box the default constructor leaves, [box_merge] is
    [BoundingBox3D::merge(const Vector3D&)]. *)
Class BoundingBox3Prim (D : Type) := {
  BoundingBox3D : Type;
  box_default : BoundingBox3D;
  box_merge : BoundingBox3D → Vector3D D → BoundingBox3D
}.

(** Modelled from the spec: [Quaternion<double>] ([quaternion.h]) is not
    under src/; the spec says [rotate] applies a unit rotation to every
    position and every normal.  [quat_mul q v] is [q * v]. *)
Class QuaternionPrim (D : Type) := {
  QuaternionD : Type;
  quat_mul : QuaternionD → Vector3D D → Vector3D D
}.

(** Modelled from the spec: [parallelFor] ([parallel.h]) and [kZeroSize]
    ([constants.h]) are not under src/; the spec says the parallel loop
    executes a per-index body over a range, order unspecified, each element
    touched by exactly one task, and that the caller is blocked until all of
    it has completed.  A schedule of the range from [start] to [stop] lists
    its indices, each once, in the order in which the bodies take effect. *)
Definition Schedule (start stop : nat) : Type :=
  { order : list nat | order ≡ₚ seq start (stop - start) }.

Fixpoint run_in_order {St} (order : list nat) (body : nat → St → option St) (s : St)
  : option St :=
  match order with
  | [] => Some s
  | i :: rest => s' ← body i s; run_in_order rest body s'
  end.

Definition parallelFor {St} (start stop : nat) (schedule : Schedule start stop)
    (body : nat → St → option St) (s : St) : option St :=
  run_in_order (proj1_sig schedule) body s.

Definition kZeroSize : nat := 0.

Section MeshRest.
Context {D : Type} `{!Float64 D} `{!Triangle3Prim D}.

Local Abbreviation Mesh := (TriangleMesh3 D).

(** Modelled from the spec: [operator*=(double)] and [operator+=] of
    [Vector3D] ([vector3.h]) are not under src/; the spec calls [scale] and
    [translate] a per-position multiply and add. *)
Definition vimul (a : Vector3D D) (s : D) : Vector3D D :=
  mkVec3 (fmul (x a) s) (fmul (y a) s) (fmul (z a) s).
Definition viadd (a b : Vector3D D) : Vector3D D :=
  mkVec3 (fadd (x a) (x b)) (fadd (y a) (y b)) (fadd (z a) (z b)).

(** [TriangleMesh3::boundingBox] *)
Definition boundingBox `{!BoundingBox3Prim D} (m : Mesh) : option BoundingBox3D :=
  let n := length (_pointIndices m) in
  for_loop (fun i box =>
      face ← _pointIndices m !! i;
      p0 ← at_ (_points m) (idx3 face 0);
      let box := box_merge box p0 in
      p1 ← at_ (_points m) (idx3 face 1);
      let box := box_merge box p1 in
      p2 ← at_ (_points m) (idx3 face 2);
      Some (box_merge box p2))
    0 n box_default.

(** The loop of [TriangleMesh3::intersects], from face [i] on with [count]
    faces to go: the [return true] inside the loop ends it. *)
Fixpoint intersects_from (m : Mesh) (ray : Ray3D D) (i count : nat) : option bool :=
  match count with
  | 0 => Some false
  | S c =>
      tri ← triangle m i;
      if tri_intersects tri ray then Some true else intersects_from m ray (S i) c
  end.

(** [TriangleMesh3::intersects] *)
Definition intersects (m : Mesh) (ray : Ray3D D) : option bool :=
  let n := numberOfFaces m in
  intersects_from m ray 0 n.

(** [TriangleMesh3::clear] *)
Definition clear (m : Mesh) : Mesh := mkMesh [] [] [] [] [] [] [].

(** [TriangleMesh3::set], also the copy constructor and [operator=]. *)
Definition set (m other : Mesh) : Mesh :=
  mkMesh (_points other) (_normals other) (_uvs other)
         (_pointIndices other) (_normalIndices other) (_uvIndices other)
         (_areaCache other).

(** [TriangleMesh3::swap]: this mesh and the other one, after the call. *)
Definition swap (m other : Mesh) : Mesh * Mesh :=
  (mkMesh (_points other) (_normals other) (_uvs other)
          (_pointIndices other) (_normalIndices other) (_uvIndices other)
          (_areaCache other),
   mkMesh (_points m) (_normals m) (_uvs m)
          (_pointIndices m) (_normalIndices m) (_uvIndices m) (_areaCache m)).

(** [TriangleMesh3::volume] *)
Definition volume `{!Float64Six D} (m : Mesh) : option D :=
  for_loop (fun i vol =>
      tri ← triangle m i;
      let '(p0, p1, p2) := points tri in
      Some (fadd vol (fdiv (dot p0 (cross p1 p2)) f6)))
    0 (numberOfFaces m) f0.

(** [TriangleMesh3::point], [normal], [uv], [pointIndex], [normalIndex],
    [uvIndex]: the cell the returned reference names. *)
Definition point (m : Mesh) (i : N) : option (Vector3D D) := at_ (_points m) i.
Definition normal (m : Mesh) (i : N) : option (Vector3D D) := at_ (_normals m) i.
Definition uv (m : Mesh) (i : N) : option (Vector2D D) := at_ (_uvs m) i.
Definition pointIndex (m : Mesh) (i : N) : option Point3UI := at_ (_pointIndices m) i.
Definition normalIndex (m : Mesh) (i : N) : option Point3UI := at_ (_normalIndices m) i.
Definition uvIndex (m : Mesh) (i : N) : option Point3UI := at_ (_uvIndices m) i.

(** [TriangleMesh3::clearAreaCache] *)
Definition clearAreaCache (m : Mesh) : Mesh := set_areaCache m [].

Definition set_points (m : Mesh) (ps : list (Vector3D D)) : Mesh :=
  mkMesh ps (_normals m) (_uvs m)
         (_pointIndices m) (_normalIndices m) (_uvIndices m) (_areaCache m).

(** [TriangleMesh3::scale] *)
Definition scale (m : Mesh) (schedule : Schedule kZeroSize (numberOfPoints m))
    (factor : D) : option Mesh :=
  ps ← parallelFor kZeroSize (numberOfPoints m) schedule
         (fun i ps => p ← ps !! i; store ps i (vimul p factor))
         (_points m);
  Some (set_points m ps).

(** [TriangleMesh3::translate] *)
Definition translate (m : Mesh) (schedule : Schedule kZeroSize (numberOfPoints m))
    (t : Vector3D D) : option Mesh :=
  ps ← parallelFor kZeroSize (numberOfPoints m) schedule
         (fun i ps => p ← ps !! i; store ps i (viadd p t))
         (_points m);
  Some (set_points m ps).

(** [TriangleMesh3::rotate]: one schedule for each of its two passes. *)
Definition rotate `{!QuaternionPrim D} (m : Mesh)
    (schedule1 : Schedule kZeroSize (numberOfPoints m))
    (schedule2 : Schedule kZeroSize (numberOfNormals m))
    (q : QuaternionD) : option Mesh :=
  ps ← parallelFor kZeroSize (numberOfPoints m) schedule1
         (fun i ps => p ← ps !! i; store ps i (quat_mul q p))
         (_points m);
  let m1 := set_points m ps in
  ns ← parallelFor kZeroSize (numberOfNormals m1) schedule2
         (fun i ns => n ← ns !! i; store ns i (quat_mul q n))
         (_normals m1);
  Some (set_normals m1 ns).

End MeshRest.


(** ** Laws of the arithmetic *)

(** [operator<] on doubles is a strict partial order, and -1 is below 1.
    These hold for IEEE 754 doubles, NaN included (see [IEEE] below). *)
Class FltOrder (D : Type) `{!Float64 D} : Prop := {
  flt_irrefl : ∀ a : D, flt a a = false;
  flt_trans : ∀ a b c : D, flt a b = true → flt b c = true → flt a c = true;
  flt_m1_1 : flt (fneg f1) f1 = true
}.

(** A positive number divided by itself gives 1; only a number above
    [DBL_MAX] (an infinity) may instead give a value that is below nothing
    (a NaN).  This holds for IEEE 754 doubles (see [IEEE] below). *)
Class FltDivSelf (D : Type) `{!Float64 D} : Prop :=
  fdiv_self : ∀ t : D, flt f0 t = true →
    fdiv t t = f1 ∨ (flt DBL_MAX t = true ∧ ∀ u : D, flt (fdiv t t) u = false).

(** An order "at most" between numbers that addition and division respect:
    a sum is not below a summand when neither summand is negative, and
    division by a positive finite number keeps the order of numbers that are
    not negative.  For IEEE 754 doubles [operator<=] is such an order (see
    [IEEE] below): rounding to nearest is monotone. *)
Class FltMonotone (D : Type) `{!Float64 D} (fle : D → D → Prop) : Prop := {
  fle_zero : fle f0 f0;
  fle_trans : ∀ a b c : D, fle a b → fle b c → fle a c;
  fle_not_flt : ∀ a b : D, fle a b → flt b a = false;
  fle_flt_trans : ∀ a b c : D, fle a b → flt b c = true → flt a c = true;
  fadd_fle : ∀ a b : D, fle f0 a → fle f0 b → fle b (fadd a b);
  fdiv_fle : ∀ a b t : D, fle f0 b → fle b a →
               flt f0 t = true → flt DBL_MAX t = false →
               fle (fdiv b t) (fdiv a t);
  fdiv_zero : ∀ t : D, flt f0 t = true → fdiv f0 t = f0
}.

(** ** Vocabulary of the statements *)

Section Vocabulary.
Context {D : Type} `{!Float64 D} `{!Triangle3Prim D}.

Local Abbreviation Mesh := (TriangleMesh3 D).

(** Keeping the smaller of two candidates under strict [<]: the newcomer
    [c] replaces [acc] only when its key is strictly below. *)
Definition keep_less {St : Type} (key : St → D) (acc c : St) : St :=
  if flt (key c) (key acc) then c else acc.

(** [tris] are the triangle views of the faces of [m], in face order. *)
Definition faces_are (m : Mesh) (tris : list (Triangle3 D)) : Prop :=
  length tris = numberOfFaces m ∧ ∀ i, triangle m i = tris !! i.

(** The squared Euclidean distance from [p] to the closest point of [tri]. *)
Definition distSquaredTo (p : Vector3D D) (tri : Triangle3 D) : D :=
  lengthSquared (vsub p (tri_closestPoint tri p)).

Definition closestCandidate (p : Vector3D D) (tri : Triangle3 D) : Vector3D D * D :=
  (tri_closestPoint tri p, distSquaredTo p tri).

Definition hitCandidate (ray : Ray3D D) (tri : Triangle3 D)
  : D * SurfaceRayIntersection3 :=
  (sri_t (tri_getClosestIntersection tri ray), tri_getClosestIntersection tri ray).

(** Running sums: [acc], then [a0 + acc], then [a1 + (a0 + acc)], ... *)
Fixpoint cumulative (acc : D) (areas : list D) : list D :=
  acc :: match areas with
         | [] => []
         | a :: rest => cumulative (fadd a acc) rest
         end.

(** The table before normalization, and its last entry. *)
Definition rawAreaTable (tris : list (Triangle3 D)) : list D :=
  cumulative f0 (tri_area <$> tris).

Definition totalArea (tris : list (Triangle3 D)) : D :=
  default f0 (last (rawAreaTable tris)).

(** Every entry but the first divided by [total]. *)
Definition normalizedTable (raw : list D) (total : D) : list D :=
  match raw with
  | [] => []
  | r0 :: rest => r0 :: ((λ r, fdiv r total) <$> rest)
  end.

Definition nondecreasing (c : list D) : Prop :=
  ∀ i j a b, i ≤ j → c !! i = Some a → c !! j = Some b → flt b a = false.

(** The data-model invariant of a normalized area cache. *)
Definition cdf_table (c : list D) : Prop :=
  c !! 0 = Some f0 ∧ nondecreasing c ∧ last c = Some f1.

(** Of two entries, the earlier is at most the later. *)
Definition ascending (fle : D → D → Prop) (c : list D) : Prop :=
  ∀ i j a b, i < j → c !! i = Some a → c !! j = Some b → fle a b.

(** [a] is comparable with something: it is not a NaN. *)
Definition ordered (a : D) : Prop := ∃ b : D, flt a b = true ∨ flt b a = true.

(** The precondition of [std::lower_bound]: the entries below [val] come
    before the others. *)
Definition partitioned (c : list D) (val : D) : Prop :=
  ∀ i j e e', i ≤ j → c !! i = Some e → c !! j = Some e' →
              flt e' val = true → flt e val = true.


(** [pos] is the index of the first entry of [c] that is not below [val]
    (the length of [c] when there is none). *)
Definition first_not_below (c : list D) (val : D) (pos : nat) : Prop :=
  pos ≤ length c
  ∧ (∀ i e, i < pos → c !! i = Some e → flt e val = true)
  ∧ (∀ i e, pos ≤ i → c !! i = Some e → flt e val = false).

(** Vertex [v] is one of the three corners of face [f]. *)
Definition incident (f : Point3UI) (v : nat) : Prop :=
  N.to_nat (x f) = v ∨ N.to_nat (y f) = v ∨ N.to_nat (z f) = v.

(** All three indices of [f] name cells of an array of length [len]. *)
Definition face_in_range (len : nat) (f : Point3UI) : Prop :=
  N.to_nat (x f) < len ∧ N.to_nat (y f) < len ∧ N.to_nat (z f) < len.

(** The flat normal of face [i]: the face normal of the triangle on the
    face's three positions. *)
Definition flatNormal (m : Mesh) (i : nat) : option (Vector3D D) :=
  f ← _pointIndices m !! i;
  pts ← gather (_points m) f;
  Some (tri_faceNormal
          (mkTriangle3 pts (Vector3D_zero, Vector3D_zero, Vector3D_zero)
                       (Vector2D_zero, Vector2D_zero, Vector2D_zero))).

(** A face corner as the angle-weighted policy sees it: the vertex index,
    the cosine handed to [std::acos], and the corner's normal. *)
Record Corner := mkCorner {
  cornerVertex : nat;
  cornerCos : D;
  cornerNormal : Vector3D D
}.

(** The corner at [pa] whose edges run to [pb] and [pc]: the cosine is the
    clamped dot product of the two normalized edge vectors. *)
Definition cornerAt (ia : N) (pa pb pc : Vector3D D) : Corner :=
  let e0 := normalize (vsub pb pa) in
  let e1 := normalize (vsub pc pa) in
  mkCorner (N.to_nat ia) (clamp (dot e0 e1) (fneg f1) f1) (normalize (cross e0 e1)).

Definition faceCorners (m : Mesh) (f : Point3UI) : list Corner :=
  match gather (_points m) f with
  | Some (p0, p1, p2) =>
      [cornerAt (x f) p0 p1 p2; cornerAt (y f) p1 p2 p0; cornerAt (z f) p2 p0 p1]
  | None => []
  end.

(** All corners, in the order the face loop visits them. *)
Definition cornersOf (m : Mesh) (faces : list Point3UI) : list Corner :=
  faces ≫= faceCorners m.

(** The accumulated angle and the accumulated weighted normal of vertex [v]. *)
Definition weightAt (cs : list Corner) (v : nat) : D :=
  foldl (λ w c, if decide (cornerVertex c = v) then fadd w (facos (cornerCos c)) else w)
        f0 cs.

Definition pseudoNormalAt (cs : list Corner) (v : nat) : Vector3D D :=
  foldl (λ p c, if decide (cornerVertex c = v)
                then vadd p (vscale (facos (cornerCos c)) (cornerNormal c)) else p)
        Vector3D_zero cs.

(** The accumulator arrays hold the sums over the corners [cs]. *)
Definition acc_for (npts : nat) (cs : list Corner) (s : AngleAcc) : Prop :=
  length (angleWeights s) = npts
  ∧ length (pseudoNormals s) = npts
  ∧ acosArgs s = cornerCos <$> cs
  ∧ ∀ v, v < npts → angleWeights s !! v = Some (weightAt cs v)
                    ∧ pseudoNormals s !! v = Some (pseudoNormalAt cs v).

(** The data-model invariant on the face-index sequences. *)
Definition lengths_match (m : Mesh) : Prop :=
  (_normalIndices m = [] ∨ length (_normalIndices m) = length (_pointIndices m))
  ∧ (_uvIndices m = [] ∨ length (_uvIndices m) = length (_pointIndices m)).

Definition appendsNormal (c : FaceAppend) : bool :=
  match c with
  | AddPointNormalFace _ _ | AddPointNormalUvFace _ _ _ => true
  | _ => false
  end.

Definition appendsUv (c : FaceAppend) : bool :=
  match c with
  | AddPointUvFace _ _ | AddPointNormalUvFace _ _ _ => true
  | _ => false
  end.

(** Every call of the run is of one and the same variant. *)
Definition uniform (cs : list FaceAppend) : Prop :=
  ∃ bn bu, ∀ c, c ∈ cs → appendsNormal c = bn ∧ appendsUv c = bu.

(** The lines of the text format, as the format describes them: the
    keyword, then the coordinates in the order x, y, z (u, v for a texture
    coordinate), each after a single blank, then the end of the line. *)
Definition obj_v_line (p : Vector3D D) : string :=
  "v " +:+ fshow (x p) +:+ " " +:+ fshow (y p) +:+ " " +:+ fshow (z p) +:+ endl.
Definition obj_vt_line (t : Vector2D D) : string :=
  "vt " +:+ fshow (u t) +:+ " " +:+ fshow (v t) +:+ endl.
Definition obj_vn_line (n : Vector3D D) : string :=
  "vn " +:+ fshow (x n) +:+ " " +:+ fshow (y n) +:+ " " +:+ fshow (z n) +:+ endl.

(** One vertex of a face line: the 1-based position index, then the uv
    slot and the normal slot when the mesh has uvs, respectively normals. *)
Definition obj_face_vertex (hasT hasN : bool) (p t n : N) : string :=
  pretty (p + 1)%N
  +:+ (if hasN || hasT then "/" else "")
  +:+ (if hasT then pretty (t + 1)%N else "")
  +:+ (if hasN then "/" +:+ pretty (n + 1)%N else "")
  +:+ " ".

Definition obj_f_line (hasT hasN : bool) (pf tf nf : Point3UI) : string :=
  "f " +:+ obj_face_vertex hasT hasN (x pf) (x tf) (x nf)
       +:+ obj_face_vertex hasT hasN (y pf) (y tf) (y nf)
       +:+ obj_face_vertex hasT hasN (z pf) (z tf) (z nf)
       +:+ endl.

Definition noIndex : Point3UI := mkVec3 0%N 0%N 0%N.

Definition obj_f_line_at (m : Mesh) (i : nat) : string :=
  obj_f_line (hasUvs m) (hasNormals m)
    (default noIndex (_pointIndices m !! i))
    (default noIndex (_uvIndices m !! i))
    (default noIndex (_normalIndices m !! i)).

Definition obj_lines (m : Mesh) : list string :=
  (obj_v_line <$> _points m) ++ (obj_vt_line <$> _uvs m)
  ++ (obj_vn_line <$> _normals m)
  ++ (obj_f_line_at m <$> seq 0 (numberOfFaces m)).

Definition joined (ls : list string) : string := foldr String.append "" ls.

(** No index of the triple is [SIZE_MAX], so adding 1 does not wrap. *)
Definition below_max (f : Point3UI) : Prop :=
  (x f + 1 < 2 ^ 64 ∧ y f + 1 < 2 ^ 64 ∧ z f + 1 < 2 ^ 64)%N.

End Vocabulary.

(** ** Vocabulary of the further statements *)

(** What "the box contains the point" has to satisfy: merging a point puts
    it inside and keeps inside what was inside. *)
Class BoxContains (D : Type) `{!BoundingBox3Prim D}
    (box_contains : BoundingBox3D → Vector3D D → Prop) : Prop := {
  box_merge_new : ∀ b p, box_contains (box_merge b p) p;
  box_merge_old : ∀ b p q, box_contains b q → box_contains (box_merge b p) q
}.

Section FurtherVocabulary.
Context {D : Type} `{!Float64 D}.

Local Abbreviation Mesh := (TriangleMesh3 D).

(** [m] with the content of [e] appended, array by array; the area cache
    is that of [m]. *)
Definition appended (m e : Mesh) : Mesh :=
  mkMesh (_points m ++ _points e) (_normals m ++ _normals e) (_uvs m ++ _uvs e)
         (_pointIndices m ++ _pointIndices e) (_normalIndices m ++ _normalIndices e)
         (_uvIndices m ++ _uvIndices e) (_areaCache m).

(** The number [writeObj] prints for the index [i]. *)
Definition written (i : N) : Z := Z.of_N (size_succ i).

(** The event a decoder of the text format reports for a triangle whose
    vertices carry the position indices [pf] and, where the line has the
    slots, the uv indices [tf] and the normal indices [nf]: the callback is
    the one for the slots the line fills, the numbers are the written ones. *)
Definition face_event (hasT hasN : bool) (pf tf nf : Point3UI) : @ObjEvent D :=
  match hasT, hasN with
  | false, false =>
      triangular_face_geometric_vertices
        (written (x pf)) (written (y pf)) (written (z pf))
  | true, false =>
      triangular_face_geometric_vertices_texture_vertices
        (written (x pf), written (x tf)) (written (y pf), written (y tf))
        (written (z pf), written (z tf))
  | false, true =>
      triangular_face_geometric_vertices_vertex_normals
        (written (x pf), written (x nf)) (written (y pf), written (y nf))
        (written (z pf), written (z nf))
  | true, true =>
      triangular_face_geometric_vertices_texture_vertices_vertex_normals
        (written (x pf), written (x tf), written (x nf))
        (written (y pf), written (y tf), written (y nf))
        (written (z pf), written (z tf), written (z nf))
  end.

Definition face_event_at (m : Mesh) (i : nat) : @ObjEvent D :=
  face_event (hasUvs m) (hasNormals m)
    (default noIndex (_pointIndices m !! i))
    (default noIndex (_uvIndices m !! i))
    (default noIndex (_normalIndices m !! i)).

Definition face_events (m : Mesh) : list (@ObjEvent D) :=
  face_event_at m <$> seq 0 (numberOfFaces m).

(** One vertex of a face line in the syntax of the text format: [v],
    [v/vt], [v//vn] or [v/vt/vn], and a blank. *)
Definition obj_vertex_text (v : Z) (vt vn : option Z) : string :=
  pretty v
  +:+ (match vt, vn with None, None => "" | _, _ => "/" end)
  +:+ (match vt with Some t => pretty t | None => "" end)
  +:+ (match vn with Some n => "/" +:+ pretty n | None => "" end)
  +:+ " ".

(** The line of a triangle event in that syntax. *)
Definition obj_event_text (e : @ObjEvent D) : string :=
  match e with
  | triangular_face_geometric_vertices v0 v1 v2 =>
      "f " +:+ obj_vertex_text v0 None None +:+ obj_vertex_text v1 None None
           +:+ obj_vertex_text v2 None None +:+ endl
  | triangular_face_geometric_vertices_texture_vertices a b c =>
      "f " +:+ obj_vertex_text a.1 (Some a.2) None
           +:+ obj_vertex_text b.1 (Some b.2) None
           +:+ obj_vertex_text c.1 (Some c.2) None +:+ endl
  | triangular_face_geometric_vertices_vertex_normals a b c =>
      "f " +:+ obj_vertex_text a.1 None (Some a.2)
           +:+ obj_vertex_text b.1 None (Some b.2)
           +:+ obj_vertex_text c.1 None (Some c.2) +:+ endl
  | triangular_face_geometric_vertices_texture_vertices_vertex_normals a b c =>
      "f " +:+ obj_vertex_text a.1.1 (Some a.1.2) (Some a.2)
           +:+ obj_vertex_text b.1.1 (Some b.1.2) (Some b.2)
           +:+ obj_vertex_text c.1.1 (Some c.1.2) (Some c.2) +:+ endl
  | _ => ""
  end.

(** The events whose callbacks change the mesh: the three attribute lines
    and the four kinds of triangle. *)
Definition is_mesh_event (e : @ObjEvent D) : bool :=
  match e with
  | geometric_vertex _ _ _ | texture_vertex _ _ | vertex_normal _ _ _
  | triangular_face_geometric_vertices _ _ _
  | triangular_face_geometric_vertices_texture_vertices _ _ _
  | triangular_face_geometric_vertices_vertex_normals _ _ _
  | triangular_face_geometric_vertices_texture_vertices_vertex_normals _ _ _ => true
  | _ => false
  end.

(** The positions a stream holds. *)
Definition is_position (e : @ObjEvent D) : bool :=
  match e with geometric_vertex _ _ _ => true | _ => false end.

Definition positions_in (es : list (@ObjEvent D)) : nat :=
  length (filter (λ e, is_position e = true) es).

(** An event of a plain stream with [n] positions: no uv, no normal, no
    triangle with uv or normal indices, and the indices of a triangle are
    between 1 and [n]. *)
Definition plain_event (n : nat) (e : @ObjEvent D) : Prop :=
  match e with
  | texture_vertex _ _ | vertex_normal _ _ _
  | triangular_face_geometric_vertices_texture_vertices _ _ _
  | triangular_face_geometric_vertices_vertex_normals _ _ _
  | triangular_face_geometric_vertices_texture_vertices_vertex_normals _ _ _ => False
  | triangular_face_geometric_vertices v0 v1 v2 =>
      (1 ≤ v0 ≤ Z.of_nat n ∧ 1 ≤ v1 ≤ Z.of_nat n ∧ 1 ≤ v2 ≤ Z.of_nat n)%Z
  | _ => True
  end.

(** The positions a stream holds, in the order of the stream. *)
Definition positions_of (es : list (@ObjEvent D)) : list (Vector3D D) :=
  es ≫= λ e, match e with
             | geometric_vertex px py pz => [mkVec3 px py pz]
             | _ => []
             end.

(** The position-only triangles a stream holds, in the order of the
    stream, each index decremented and taken as a [size_t]. *)
Definition position_faces_of (es : list (@ObjEvent D)) : list Point3UI :=
  es ≫= λ e, match e with
             | triangular_face_geometric_vertices v0 v1 v2 =>
                 [mkVec3 (Z.to_N ((v0 - 1) mod 2 ^ 64)) (Z.to_N ((v1 - 1) mod 2 ^ 64))
                         (Z.to_N ((v2 - 1) mod 2 ^ 64))]
             | _ => []
             end.

End FurtherVocabulary.

(** ** Concrete models *)

(** A stand-in for [Triangle3] that looks at the vertices only: the closest
    point is the nearest vertex, and a ray hits when it points towards the
    first vertex.  Area and face normal are the usual cross-product
    formulas.  It serves to run the mesh functions on concrete meshes. *)
Section VertexPrim.
Context {D : Type} `{!Float64 D}.

Definition nearer (p a b : Vector3D D) : Vector3D D :=
  if flt (lengthSquared (vsub p b)) (lengthSquared (vsub p a)) then b else a.

Definition nearestVertex (tri : Triangle3 D) (p : Vector3D D) : Vector3D D :=
  let '(a, b, c) := points tri in nearer p (nearer p a b) c.

Definition edgeCross (tri : Triangle3 D) : Vector3D D :=
  let '(a, b, c) := points tri in cross (vsub b a) (vsub c a).

Definition towards (tri : Triangle3 D) (ray : Ray3D D) : D :=
  let '(a, _, _) := points tri in dot (direction D ray) (vsub a (origin D ray)).

Definition vertexPrim : Triangle3Prim D := {|
  SurfaceRayIntersection3 := D * Vector3D D;
  sri_t := fst;
  tri_closestPoint := nearestVertex;
  tri_closestNormal tri p := normalize (edgeCross tri);
  tri_closestDistance tri p := length3 (vsub p (nearestVertex tri p));
  tri_intersects tri ray := flt f0 (towards tri ray);
  tri_getClosestIntersection tri ray :=
    if flt f0 (towards tri ray)
    then (towards tri ray, (points tri).1.1)
    else (DBL_MAX, Vector3D_zero);
  tri_area tri := fdiv (length3 (edgeCross tri)) (fadd f1 f1);
  tri_sample tri u2 u3 := ((points tri).1.1, normalize (edgeCross tri));
  tri_faceNormal tri := normalize (edgeCross tri)
|}.

End VertexPrim.

(** The usual axis-aligned box: a lower and an upper corner, empty when
    constructed, merged with a point by componentwise [std::min] and
    [std::max]. *)
Section CornerBox.
Context {D : Type} `{!Float64 D}.

Record Box3 := mkBox3 { lowerCorner : Vector3D D; upperCorner : Vector3D D }.

Definition cornerBox : BoundingBox3Prim D := {|
  BoundingBox3D := Box3;
  box_default := mkBox3 (mkVec3 DBL_MAX DBL_MAX DBL_MAX)
                        (mkVec3 (fneg DBL_MAX) (fneg DBL_MAX) (fneg DBL_MAX));
  box_merge b p :=
    mkBox3 (mkVec3 (std_min (x (lowerCorner b)) (x p))
                   (std_min (y (lowerCorner b)) (y p))
                   (std_min (z (lowerCorner b)) (z p)))
           (mkVec3 (std_max (x (upperCorner b)) (x p))
                   (std_max (y (upperCorner b)) (y p))
                   (std_max (z (upperCorner b)) (z p)))
|}.

(** No coordinate of [p] is below the lower or above the upper corner. *)
Definition inside (b : Box3) (p : Vector3D D) : Prop :=
  flt (x p) (x (lowerCorner b)) = false ∧ flt (x (upperCorner b)) (x p) = false
  ∧ flt (y p) (y (lowerCorner b)) = false ∧ flt (y (upperCorner b)) (y p) = false
  ∧ flt (z p) (z (lowerCorner b)) = false ∧ flt (z (upperCorner b)) (z p) = false.

End CornerBox.

(** A stand-in for [Quaternion<double>]: the rotations about the z axis by
    a number of quarter turns. *)
Section QuarterTurns.
Context {D : Type} `{!Float64 D}.

Definition quarterTurn (v : Vector3D D) : Vector3D D := mkVec3 (fneg (y v)) (x v) (z v).

Definition quarterTurns : QuaternionPrim D := {|
  QuaternionD := nat;
  quat_mul k v := Nat.iter k quarterTurn v
|}.

End QuarterTurns.

(** Exact rationals in lowest terms: every operation reduces its result, so
    equal numbers are equal terms. *)
Module Rational.

(** Square root to six decimal places (exact on squares of rationals). *)
Definition sqrtQ (q : Q) : Q :=
  Qred (Z.sqrt (Qnum q * Zpos (Qden q) * 10 ^ 12) # (Qden q * 10 ^ 6)).

(** A rational stand-in for the arc cosine: linear from 3 at -1 to 0 at 1. *)
Definition acosQ (q : Q) : Q :=
  if Qle_bool q 1 then (if Qle_bool (-1) q then Qred ((3 # 2) * (1 - q)) else 3%Q)
  else 0%Q.

Definition showQ (q : Q) : string :=
  pretty (Qnum q) +:+ "/" +:+ pretty (Zpos (Qden q)).

#[export] Instance Q_Float64 : Float64 Q := {|
  f0 := 0%Q;
  f1 := 1%Q;
  DBL_MAX := ((2 ^ 1024 - 2 ^ 971)%Z # 1);
  fneg a := Qred (- a);
  fadd a b := Qred (a + b);
  fsub a b := Qred (a - b);
  fmul a b := Qred (a * b);
  fdiv a b := Qred (a / b);
  flt a b := negb (Qle_bool b a);
  fsqrt := sqrtQ;
  facos := acosQ;
  fshow := showQ
|}.

#[export] Instance Q_Triangle3Prim : Triangle3Prim Q := vertexPrim.

Definition P (a b c : Z) : Vector3D Q := mkVec3 (a # 1) (b # 1) (c # 1).

(** The right triangle with legs 1 on the x and y axes. *)
Definition one_triangle : TriangleMesh3 Q :=
  mkMesh [P 0 0 0; P 1 0 0; P 0 1 0] [] [] [mkVec3 0%N 1%N 2%N] [] [] [].

(** That triangle, and one of twice the size one unit above it. *)
Definition two_triangles : TriangleMesh3 Q :=
  mkMesh [P 0 0 0; P 1 0 0; P 0 1 0; P 0 0 1; P 2 0 1; P 0 2 1] [] []
         [mkVec3 0%N 1%N 2%N; mkVec3 3%N 4%N 5%N] [] [] [].

(** Two triangles that share the edge from vertex 1 to vertex 2 and fold
    along it, with a normal per vertex. *)
Definition folded : TriangleMesh3 Q :=
  mkMesh [P 0 0 0; P 1 0 0; P 0 1 0; P 1 1 1]
         [P 0 0 1; P 0 0 1; P 0 0 1; P 0 0 1] []
         [mkVec3 0%N 1%N 2%N; mkVec3 1%N 3%N 2%N]
         [mkVec3 0%N 1%N 2%N; mkVec3 1%N 3%N 2%N] [] [].

(** Two calls of the position+normal variant. *)
Definition normal_run : list FaceAppend :=
  [AddPointNormalFace (mkVec3 0 1 2) (mkVec3 0 0 0);
   AddPointNormalFace (mkVec3 1 3 2) (mkVec3 1 1 1)]%N.


#[export] Instance Q_Float64Six : Float64Six Q := 6%Q.
#[export] Instance Q_BoundingBox3Prim : BoundingBox3Prim Q := cornerBox.
#[export] Instance Q_QuaternionPrim : QuaternionPrim Q := quarterTurns.

(** One triangle with one normal for its three vertices and a uv for each. *)
Definition textured : TriangleMesh3 Q :=
  mkMesh [P 0 0 0; P 1 0 0; P 0 1 0] [P 0 0 1]
         [mkVec2 0 0; mkVec2 1 0; mkVec2 0 1]%Q
         [mkVec3 0%N 1%N 2%N] [mkVec3 0%N 0%N 0%N] [mkVec3 0%N 1%N 2%N] [].

(** The same triangle one unit higher, as a [Triangle3]. *)
Definition raised : Triangle3 Q :=
  mkTriangle3 (P 0 0 1, P 1 0 1, P 0 1 1) (P 0 0 1, P 0 0 1, P 0 0 1)
              (mkVec2 0 0, mkVec2 1 0, mkVec2 0 1)%Q.

(** A mesh whose second face names vertex 7 of 3. *)
Definition broken : TriangleMesh3 Q :=
  mkMesh [P 0 0 0; P 1 0 0; P 0 1 0] [] []
         [mkVec3 0%N 1%N 2%N; mkVec3 0%N 1%N 7%N] [] [] [].

(** The tetrahedron on the origin and the three unit points, its faces
    wound so that their normals point outwards. *)
Definition tetrahedron : TriangleMesh3 Q :=
  mkMesh [P 0 0 0; P 1 0 0; P 0 1 0; P 0 0 1] [] []
         [mkVec3 0%N 2%N 1%N; mkVec3 0%N 1%N 3%N; mkVec3 0%N 3%N 2%N;
          mkVec3 1%N 2%N 3%N] [] [] [].

End Rational.

(** IEEE 754 binary64, as Rocq's primitive floats.  The arc cosine and the
    printing of a double have no counterpart among the primitive
    operations; the instance takes them as arguments. *)
Module IEEE.
Import Floats.

Definition Float64_of (acos : float → float) (show : float → string)
  : Float64 float := {|
  f0 := 0%float;
  f1 := 1%float;
  DBL_MAX := 0x1.fffffffffffffp+1023%float;
  fneg := PrimFloat.opp;
  fadd := PrimFloat.add;
  fsub := PrimFloat.sub;
  fmul := PrimFloat.mul;
  fdiv := PrimFloat.div;
  flt := PrimFloat.ltb;
  fsqrt := PrimFloat.sqrt;
  facos := acos;
  fshow := show
|}.

(** Arc cosine by the classical four-term polynomial times a square root
    (absolute error below 1e-4 on the interval from 0 to 1, mirrored below 0). *)
Definition acos_poly (a : float) : float :=
  let t := PrimFloat.abs a in
  let p := (0x1.921b485ae2a4ap+0
            + t * (-0x1.b26908d815d63p-3
                   + t * (0x1.302c4d65e4606p-4 + t * (-0x1.32dc60be86b8fp-6))))%float in
  let r := (PrimFloat.sqrt (1 - t) * p)%float in
  if PrimFloat.ltb a 0 then (0x1.921fb54442d18p+1 - r)%float else r.

#[export] Instance binary64 : Float64 float := Float64_of acos_poly (λ _, "?").

#[export] Instance binary64_Triangle3Prim : Triangle3Prim float := vertexPrim.

Definition P (a b c : float) : Vector3D float := mkVec3 a b c.

(** The right triangle with legs 1, and one of twice the size one unit
    above it. *)
Definition two_triangles : TriangleMesh3 float :=
  mkMesh [P 0 0 0; P 1 0 0; P 0 1 0; P 0 0 1; P 2 0 1; P 0 2 1] [] []
         [mkVec3 0%N 1%N 2%N; mkVec3 3%N 4%N 5%N] [] [] [].

(** Two coincident faces, so that every distance is tied. *)
Definition doubled : TriangleMesh3 float :=
  mkMesh [P 0 0 0; P 1 0 0; P 0 1 0] [] []
         [mkVec3 0%N 1%N 2%N; mkVec3 0%N 1%N 2%N] [] [] [].

(** A ray from below the origin straight up, and a caller's record
    initialized to "no hit". *)
Definition upward : Ray3D float := mkRay3D (P 0 0 (-1)) (P 0 0 1).
Definition no_hit : SurfaceRayIntersection3 := (DBL_MAX, P 0 0 0).

Definition two_triangles_faces : list (Triangle3 float) :=
  default [] (mapM (triangle two_triangles) (seq 0 2)).

(** Three positions on a line, as one face. *)
Definition collinear : TriangleMesh3 float :=
  mkMesh [P 0 0 0; P 1 0 0; P 2 0 0] [] [] [mkVec3 0%N 1%N 2%N] [] [] [].

(** A face that names the first position twice. *)
Definition pinched : TriangleMesh3 float :=
  mkMesh [P 0 0 0; P 1 0 0] [] [] [mkVec3 0%N 0%N 1%N] [] [] [].

(** A face whose area overflows, and a small one. *)
Definition huge : TriangleMesh3 float :=
  mkMesh [P 0 0 0; P 0x1p+700 0 0; P 0 0x1p+700 0; P 0 0 1; P 2 0 1; P 0 2 1] [] []
         [mkVec3 0%N 1%N 2%N; mkVec3 3%N 4%N 5%N] [] [] [].

Definition huge_faces : list (Triangle3 float) :=
  default [] (mapM (triangle huge) (seq 0 2)).

#[export] Instance binary64_Float64Six : Float64Six float := 6%float.
#[export] Instance binary64_BoundingBox3Prim : BoundingBox3Prim float := cornerBox.

(** [operator<=] on doubles, as a relation. *)
Definition fle64 (a b : float) : Prop := PrimFloat.leb a b = true.

End IEEE.

(** The rounding of binary64 as the specification of the primitive floats
    performs it, in terms of integers. *)
Module Binary64.
Import Floats.
Local Open Scope Z_scope.

(** Rounding the fraction [X / Y] to the nearest integer, ties to even. *)
Definition rne (X Y : Z) : Z :=
  let q := X / Y in
  let r := X mod Y in
  if 2 * r <? Y then q
  else if Y <? 2 * r then q + 1
  else if Z.even q then q else q + 1.

(** The record of a right shift holds the integer part of [X / Y] and, in
    its two bits, where the fractional part lies: at 0, below one half, at
    one half, above one half. *)
Definition located (X Y : Z) (mrs : shr_record) : Prop :=
  shr_m mrs = X / Y
  ∧ shr_r mrs = (Y <=? 2 * (X mod Y))
  ∧ shr_s mrs = negb ((X mod Y =? 0) || (2 * (X mod Y) =? Y)).

(** The end of [binary_round_aux]: a rounded mantissa [m] at exponent [E]
    becomes a number, after one more shift when the rounding carried. *)
Definition encode (m E : Z) : spec_float :=
  let '(mrs, e) := shr_fexp prec emax m E loc_Exact in
  match shr_m mrs with
  | Z0 => S754_zero false
  | Zpos p => if e <=? emax - prec then S754_finite false p e else S754_infinity false
  | Zneg _ => S754_nan
  end.

(** The number nearest to the value [X / Y * 2 ^ e], for [X / Y] given at
    an exponent [e] that is not above the one its magnitude asks for. *)
Definition round_at (X Y e : Z) : spec_float :=
  let E := fexp prec emax (Zdigits2 (X / Y) + e) in
  encode (rne X (Y * 2 ^ (E - e))) E.

(** [X / Y * 2 ^ e] is at most [X' / Y' * 2 ^ e'], without fractions. *)
Definition vle (X Y e X' Y' e' : Z) : Prop :=
  X * Y' * 2 ^ (e - Z.min e e') ≤ X' * Y * 2 ^ (e' - Z.min e e').

End Binary64.

(** * Proofs *)

(** ** Loops and arrays *)

Section Loops.
Context {St : Type}.

Lemma for_loop_ext (f g : nat → St → option St) start count s :
  (∀ i s, start ≤ i < start + count → f i s = g i s) →
  for_loop f start count s = for_loop g start count s.
Proof.
  revert start s. induction count as [|c IH]; intros start s Hfg; simpl; [done|].
  rewrite Hfg by lia. destruct (g start s) as [s'|]; simpl; [|done].
  apply IH. intros i t Hi. apply Hfg. lia.
Qed.

Lemma for_loop_S (f : nat → St → option St) start count s :
  for_loop f start (S count) s = f start s ≫= for_loop f (S start) count.
Proof. done. Qed.

Lemma for_loop_snoc (f : nat → St → option St) start count s :
  for_loop f start (S count) s = for_loop f start count s ≫= f (start + count).
Proof.
  revert start s. induction count as [|c IH]; intros start s.
  - simpl. rewrite Nat.add_0_r. by destruct (f start s).
  - rewrite (for_loop_S f start (S c)), (for_loop_S f start c).
    destruct (f start s) as [s'|]; [|done].
    cbn [mbind option_bind]. rewrite IH.
    by replace (S start + c) with (start + S c) by lia.
Qed.

Lemma for_loop_foldl {A} (get : nat → option A) (step : St → A → St)
    (xs : list A) start s :
  (∀ k, k < length xs → get (start + k) = xs !! k) →
  for_loop (λ i s, a ← get i; Some (step s a)) start (length xs) s
  = Some (foldl step s xs).
Proof.
  revert start s. induction xs as [|a xs IH]; intros start s Hget; simpl; [done|].
  specialize (Hget 0 ltac:(simpl; lia)) as H0. rewrite Nat.add_0_r in H0.
  rewrite H0. simpl. apply IH. intros k Hk.
  specialize (Hget (S k) ltac:(simpl; lia)). simpl in Hget.
  by replace (S start + k) with (start + S k) by lia.
Qed.

Lemma for_loop_invariant (I : nat → St → Prop) (body : nat → St → option St)
    start count s :
  I 0 s →
  (∀ k t, k < count → I k t → ∃ t', body (start + k) t = Some t' ∧ I (S k) t') →
  ∃ s', for_loop body start count s = Some s' ∧ I count s'.
Proof.
  intros H0 Hstep. induction count as [|c IH].
  - by exists s.
  - destruct IH as (t & Ht & HI); [intros k t Hk; apply Hstep; lia|].
    destruct (Hstep c t ltac:(lia) HI) as (t' & Ht' & HI').
    exists t'. split; [|done]. rewrite for_loop_snoc, Ht. done.
Qed.

End Loops.

Lemma tabulate_exists {A} (f : nat → option A) n :
  (∀ i, i < n → is_Some (f i)) →
  ∃ xs : list A, length xs = n ∧ ∀ i, i < n → f i = xs !! i.
Proof.
  induction n as [|n IH]; intros Hf.
  - exists []. split; [done|]. intros; lia.
  - destruct IH as (xs & Hlen & Hxs); [intros; apply Hf; lia|].
    destruct (Hf n ltac:(lia)) as [a Ha].
    exists (xs ++ [a]). split; [rewrite length_app; simpl; lia|].
    intros i Hi. destruct (decide (i = n)) as [->|Hne].
    + rewrite Ha. symmetry. by apply list_lookup_middle.
    + rewrite lookup_app_l by lia. apply Hxs. lia.
Qed.

Lemma store_Some {A} (a : list A) i (v : A) :
  i < length a → store a i v = Some (<[i := v]> a).
Proof. intros Hi. unfold store. by rewrite decide_True. Qed.

Lemma gather_Some {A} (a : list A) (f : Point3UI) :
  face_in_range (length a) f → is_Some (gather a f).
Proof.
  intros (Hx & Hy & Hz). unfold gather, at_.
  destruct (lookup_lt_is_Some_2 a _ Hx) as [a0 ->].
  destruct (lookup_lt_is_Some_2 a _ Hy) as [a1 ->].
  destruct (lookup_lt_is_Some_2 a _ Hz) as [a2 ->]. by eexists.
Qed.

(** ** Consequences of the order laws *)

Section Order.
Context {D : Type} `{!Float64 D}.


Lemma clamp_in_domain `{!FltOrder D} (a : D) :
  flt (clamp a (fneg f1) f1) (fneg f1) = false ∧ flt f1 (clamp a (fneg f1) f1) = false.
Proof.
  assert (H11 : flt f1 (fneg f1) = false).
  { destruct (flt f1 (fneg f1)) eqn:E; [|done].
    by rewrite <- (flt_irrefl f1), (flt_trans _ _ _ E flt_m1_1). }
  unfold clamp, fgt. destruct (flt a (fneg f1)) eqn:Hlo.
  - by rewrite flt_irrefl.
  - destruct (flt f1 a) eqn:Hhi; [by rewrite flt_irrefl|done].
Qed.

Section Scan.
Context `{!FltOrder D} {St : Type} (key : St → D).

(** A left-to-right scan that keeps the strictly smaller candidate ends
    either on the initial value, which no candidate was below, or on the
    first candidate of minimal key. *)
Lemma scan_first_minimum (cs : list St) (init : St) :
  let r := foldl (keep_less key) init cs in
  (r = init ∧ ∀ c, c ∈ cs → flt (key c) (key init) = false)
  ∨ (∃ i, cs !! i = Some r
        ∧ flt (key r) (key init) = true
        ∧ (∀ c, c ∈ cs → flt (key c) (key r) = false)
        ∧ (∀ j c, j < i → cs !! j = Some c → key c ≠ key r)).
Proof.
  induction cs as [|c cs IH] using rev_ind; cbv zeta in *.
  - left. split; [done|]. intros c Hc. by apply elem_of_nil in Hc.
  - rewrite foldl_snoc. remember (foldl (keep_less key) init cs) as r eqn:Er. clear Er.
    assert (Hbelow : ∀ c', c' ∈ cs → flt (key c') (key r) = false).
    { destruct IH as [[Hr H]|(i & _ & _ & H & _)]; [rewrite Hr|]; auto. }
    unfold keep_less. destruct (flt (key c) (key r)) eqn:Hlt.
    + right. exists (length cs). split; [by apply list_lookup_middle|].
      split; [|split].
      * destruct IH as [[Hr _]|(i & _ & Hri & _)]; [by rewrite <- Hr|].
        by apply flt_trans with (key r).
      * intros c' [Hc'| ->%list_elem_of_singleton]%elem_of_app; [|apply flt_irrefl].
        destruct (flt (key c') (key c)) eqn:Hc'c; [|done].
        rewrite <- (Hbelow c' Hc'). symmetry. by apply flt_trans with (key c).
      * intros j c' Hj Hc' Heq. rewrite lookup_app_l in Hc' by done.
        apply list_elem_of_lookup_2 in Hc'. apply Hbelow in Hc'. congruence.
    + destruct IH as [[Hr H]|(i & Hi & Hri & H & Hfirst)].
      * left. split; [done|].
        intros c' [Hc'| ->%list_elem_of_singleton]%elem_of_app; [by apply H|].
        by rewrite <- Hr.
      * right. exists i. split; [|split; [done|split]].
        -- rewrite lookup_app_l; [done|]. by eapply lookup_lt_Some.
        -- intros c' [Hc'| ->%list_elem_of_singleton]%elem_of_app; [by apply H|done].
        -- intros j c' Hj Hc'. apply (Hfirst j c' Hj).
           rewrite lookup_app_l in Hc'; [done|].
           apply lookup_lt_Some in Hi. lia.
Qed.

End Scan.

(** [clamp] turns a number into a number, and leaves what is not a number
    as it is. *)
Lemma clamp_ordered `{!FltOrder D} (a : D) : ordered a → ordered (clamp a (fneg f1) f1).
Proof.
  intros Ha. unfold clamp, fgt. destruct (flt a (fneg f1)).
  - exists f1. left. apply flt_m1_1.
  - destruct (flt f1 a); [|done]. exists (fneg f1). right. apply flt_m1_1.
Qed.

Lemma clamp_unordered (a : D) : ¬ ordered a → clamp a (fneg f1) f1 = a.
Proof.
  intros Ha. unfold clamp, fgt. destruct (flt a (fneg f1)) eqn:Hlo.
  - destruct Ha. exists (fneg f1). by left.
  - destruct (flt f1 a) eqn:Hhi; [|done]. destruct Ha. exists f1. by right.
Qed.

End Order.

(** ** Query engine *)

Section Queries.
Context {D : Type} `{!Float64 D} `{!Triangle3Prim D}.
Local Abbreviation Mesh := (TriangleMesh3 D).

Lemma faces_exist (m : Mesh) :
  (∀ i, i < numberOfFaces m → is_Some (triangle m i)) →
  ∃ tris, length tris = numberOfFaces m ∧ ∀ i, triangle m i = tris !! i.
Proof.
  intros Hall. destruct (tabulate_exists (triangle m) _ Hall) as (tris & Hlen & Htris).
  exists tris. split; [done|]. intros i.
  destruct (decide (i < numberOfFaces m)) as [Hi|Hi]; [by apply Htris|].
  rewrite (lookup_ge_None_2 tris) by lia.
  unfold triangle. unfold numberOfFaces in Hi.
  by rewrite (lookup_ge_None_2 (_pointIndices m)) by lia.
Qed.

Lemma closestPoint_fold (m : Mesh) (p : Vector3D D) tris :
  length tris = numberOfFaces m →
  (∀ i, triangle m i = tris !! i) →
  closestPoint m p
  = Some (foldl (keep_less snd) (mkVec3 DBL_MAX DBL_MAX DBL_MAX, DBL_MAX)
            (closestCandidate p <$> tris)).1.
Proof.
  intros Hlen Htris. unfold closestPoint. rewrite <- Hlen.
  rewrite <- (length_fmap (closestCandidate p)).
  erewrite for_loop_ext; [rewrite (for_loop_foldl (λ i, closestCandidate p <$> triangle m i)); [done|]|].
  - intros k _. simpl. by rewrite Htris, list_lookup_fmap.
  - intros i [pt d] _. destruct (triangle m i) as [tri|]; [|done]. simpl.
    unfold keep_less, closestCandidate, distSquaredTo. simpl.
    by destruct (flt _ d).
Qed.

(** C1.  [closestPoint] scans every face.  When every face can be
    materialized it returns a point [r], and either no face's squared
    distance is below [DBL_MAX] and [r] is the initial point, or [r] is the
    closest point of a face [i] whose squared distance is below [DBL_MAX],
    no face has a strictly smaller squared distance, and no face before [i]
    has the same squared distance: among tied faces the first one wins. *)
Theorem closestPoint_first_minimum `{!FltOrder D} (m : Mesh) (p : Vector3D D) :
  (∀ i, i < numberOfFaces m → is_Some (triangle m i)) →
  ∃ r, closestPoint m p = Some r ∧
    ((r = mkVec3 DBL_MAX DBL_MAX DBL_MAX
      ∧ ∀ i tri, triangle m i = Some tri → flt (distSquaredTo p tri) DBL_MAX = false)
     ∨ (∃ i tri, triangle m i = Some tri
          ∧ r = tri_closestPoint tri p
          ∧ flt (distSquaredTo p tri) DBL_MAX = true
          ∧ (∀ j tj, triangle m j = Some tj →
               flt (distSquaredTo p tj) (distSquaredTo p tri) = false)
          ∧ (∀ j tj, j < i → triangle m j = Some tj →
               distSquaredTo p tj ≠ distSquaredTo p tri))).
Proof.
  intros Hall. destruct (faces_exist m Hall) as (tris & Hlen & Htris).
  rewrite (closestPoint_fold m p tris Hlen Htris). eexists. split; [done|].
  destruct (scan_first_minimum snd (closestCandidate p <$> tris)
              (mkVec3 DBL_MAX DBL_MAX DBL_MAX, DBL_MAX))
    as [[-> Hnone]|(i & Hi & Hlt & Hmin & Hfirst)].
  - left. split; [done|]. intros i tri Hi. rewrite Htris in Hi.
    apply (Hnone (closestCandidate p tri)).
    apply list_elem_of_fmap. exists tri. split; [done|]. by eapply list_elem_of_lookup_2.
  - right. rewrite list_lookup_fmap in Hi.
    destruct (tris !! i) as [tri|] eqn:Htri; [|done]. simpl in Hi.
    injection Hi as Hi. rewrite <- Hi in *. simpl in *.
    exists i, tri. split; [by rewrite Htris|]. split; [done|]. split; [done|]. split.
    + intros j tj Hj. rewrite Htris in Hj.
      apply (Hmin (closestCandidate p tj)).
      apply list_elem_of_fmap. exists tj. split; [done|]. by eapply list_elem_of_lookup_2.
    + intros j tj Hji Hj. rewrite Htris in Hj.
      apply (Hfirst j (closestCandidate p tj) Hji).
      by rewrite list_lookup_fmap, Hj.
Qed.

(** C10.  On a mesh without faces [closestPoint] returns
    [(DBL_MAX, DBL_MAX, DBL_MAX)], [closestDistance] returns [DBL_MAX] and
    [actualClosestNormal] returns [(1, 0, 0)], whatever the query point. *)
Theorem empty_mesh_sentinels (m : Mesh) (p : Vector3D D) :
  numberOfFaces m = 0 →
  closestPoint m p = Some (mkVec3 DBL_MAX DBL_MAX DBL_MAX)
  ∧ closestDistance m p = Some DBL_MAX
  ∧ actualClosestNormal m p = Some (mkVec3 f1 f0 f0).
Proof.
  intros Hn. unfold closestPoint, closestDistance, actualClosestNormal.
  by rewrite Hn.
Qed.

Lemma getClosestIntersection_fold (m : Mesh) (ray : Ray3D D) out tris :
  length tris = numberOfFaces m →
  (∀ i, triangle m i = tris !! i) →
  getClosestIntersection m ray out
  = Some (foldl (keep_less fst) (DBL_MAX, out) (hitCandidate ray <$> tris)).2.
Proof.
  intros Hlen Htris. unfold getClosestIntersection. rewrite <- Hlen.
  rewrite <- (length_fmap (hitCandidate ray)).
  erewrite for_loop_ext; [rewrite (for_loop_foldl (λ i, hitCandidate ray <$> triangle m i)); [done|]|].
  - intros k _. simpl. by rewrite Htris, list_lookup_fmap.
  - intros i [t o] _. destruct (triangle m i) as [tri|]; [|done]. simpl.
    unfold keep_less, hitCandidate. simpl.
    by destruct (flt _ t).
Qed.

(** C4.  [getClosestIntersection] scans every face.  Given that a triangle
    the ray misses reports a [t] that is not below [DBL_MAX], the final
    record [r] is the caller's record, untouched, when no face intersects
    the ray; otherwise [r] is the record of an intersected face [i] whose [t]
    no face undercuts, the first face among those with that [t]. *)
Theorem getClosestIntersection_minimal_t `{!FltOrder D}
    (m : Mesh) (ray : Ray3D D) (out : SurfaceRayIntersection3) :
  (∀ i, i < numberOfFaces m → is_Some (triangle m i)) →
  (∀ tri, tri_intersects tri ray = false →
          flt (sri_t (tri_getClosestIntersection tri ray)) DBL_MAX = false) →
  ∃ r, getClosestIntersection m ray out = Some r
    ∧ ((∀ i tri, triangle m i = Some tri → tri_intersects tri ray = false) → r = out)
    ∧ ((r = out
        ∧ ∀ i tri, triangle m i = Some tri →
            flt (sri_t (tri_getClosestIntersection tri ray)) DBL_MAX = false)
       ∨ (∃ i tri, triangle m i = Some tri
            ∧ r = tri_getClosestIntersection tri ray
            ∧ tri_intersects tri ray = true
            ∧ flt (sri_t r) DBL_MAX = true
            ∧ (∀ j tj, triangle m j = Some tj →
                 flt (sri_t (tri_getClosestIntersection tj ray)) (sri_t r) = false)
            ∧ (∀ j tj, j < i → triangle m j = Some tj →
                 sri_t (tri_getClosestIntersection tj ray) ≠ sri_t r))).
Proof.
  intros Hall Hmiss. destruct (faces_exist m Hall) as (tris & Hlen & Htris).
  rewrite (getClosestIntersection_fold m ray out tris Hlen Htris).
  eexists. split; [done|].
  destruct (scan_first_minimum fst (hitCandidate ray <$> tris) (DBL_MAX, out))
    as [[-> Hnone]|(i & Hi & Hlt & Hmin & Hfirst)].
  - split; [done|]. left. split; [done|]. intros i tri Hi. rewrite Htris in Hi.
    apply (Hnone (hitCandidate ray tri)).
    apply list_elem_of_fmap. exists tri. split; [done|]. by eapply list_elem_of_lookup_2.
  - rewrite list_lookup_fmap in Hi.
    destruct (tris !! i) as [tri|] eqn:Htri; [|done]. simpl in Hi.
    injection Hi as Hi. rewrite <- Hi in *. simpl in *.
    assert (Hhit : tri_intersects tri ray = true).
    { destruct (tri_intersects tri ray) eqn:E; [done|].
      apply Hmiss in E. congruence. }
    split.
    + intros Hno. rewrite (Hno i tri) in Hhit; [done|by rewrite Htris].
    + right. exists i, tri. split; [by rewrite Htris|]. do 3 (split; [done|]). split.
      * intros j tj Hj. rewrite Htris in Hj.
        apply (Hmin (hitCandidate ray tj)).
        apply list_elem_of_fmap. exists tj. split; [done|]. by eapply list_elem_of_lookup_2.
      * intros j tj Hji Hj. rewrite Htris in Hj.
        apply (Hfirst j (hitCandidate ray tj) Hji).
        by rewrite list_lookup_fmap, Hj.
Qed.

End Queries.

(** ** Stochastic sampler *)

Section Sampler.
Context {D : Type} `{!Float64 D} `{!Triangle3Prim D}.
Local Abbreviation Mesh := (TriangleMesh3 D).

Lemma cumulative_length acc areas : length (cumulative acc areas) = S (length areas).
Proof. revert acc. induction areas as [|a l IH]; intros acc; simpl; [done|]. by rewrite IH. Qed.

Lemma cumulative_0 acc areas : cumulative acc areas !! 0 = Some acc.
Proof. by destruct areas. Qed.

Lemma cumulative_S areas : ∀ acc k a r,
  areas !! k = Some a → cumulative acc areas !! k = Some r →
  cumulative acc areas !! S k = Some (fadd a r).
Proof.
  induction areas as [|a' l IH]; intros acc k a r Ha Hr; [done|].
  destruct k as [|k].
  - simpl in Ha, Hr. injection Ha as ->. injection Hr as ->.
    change (cumulative (fadd a r) l !! 0 = Some (fadd a r)). apply cumulative_0.
  - change (cumulative (fadd a' acc) l !! S k = Some (fadd a r)).
    apply IH; [done|]. exact Hr.
Qed.

Lemma cumulative_lookup_is_Some acc areas k :
  k ≤ length areas → is_Some (cumulative acc areas !! k).
Proof. intros Hk. apply lookup_lt_is_Some. rewrite cumulative_length. lia. Qed.

Lemma areaCacheBody_table (m : Mesh) tris :
  faces_are m tris →
  areaCacheBody m
  = Some (set_areaCache m (normalizedTable (rawAreaTable tris) (totalArea tris))).
Proof.
  intros [Hlen Htris]. unfold areaCacheBody.
  set (n := numberOfFaces m) in *.
  set (raw := rawAreaTable tris).
  assert (Hrawlen : length raw = n + 1).
  { unfold raw, rawAreaTable. rewrite cumulative_length, length_fmap. lia. }
  rewrite store_Some by (rewrite length_resize; lia). simpl.
  rewrite length_insert, length_resize.
  replace (n + 1 - 1) with n by lia.
  (* first loop: the running sums *)
  destruct (for_loop_invariant
    (λ k c, length c = n + 1 ∧ ∀ j, j ≤ k → c !! j = raw !! j)
    (λ i c, tri ← triangle m (i - 1);
            prev ← c !! (i - 1); store c i (fadd (tri_area tri) prev))
    1 n (<[0:=f0]> (resize (n + 1) f0 (_areaCache m))))
    as (c2 & Hc2 & Hc2len & Hc2raw).
  { split; [by rewrite length_insert, length_resize|].
    intros j Hj. replace j with 0 by lia.
    rewrite list_lookup_insert_eq by (rewrite length_resize; lia).
    unfold raw, rawAreaTable. by rewrite cumulative_0. }
  { intros k c Hk [Hclen Hc]. replace (1 + k - 1) with k by lia.
    rewrite Htris. destruct (tris !! k) as [tri|] eqn:Htri;
      [|apply lookup_ge_None in Htri; lia].
    simpl. rewrite (Hc k) by lia.
    destruct (raw !! k) as [r|] eqn:Hr;
      [|apply lookup_ge_None in Hr; lia].
    simpl. rewrite store_Some by lia. eexists. split; [done|].
    split; [by rewrite length_insert|].
    intros j Hj. destruct (decide (j = S k)) as [->|Hne].
    - rewrite list_lookup_insert_eq by lia. symmetry.
      apply cumulative_S; [by rewrite list_lookup_fmap, Htri|done].
    - rewrite list_lookup_insert_ne by lia. apply Hc. lia. }
  rewrite Hc2. simpl.
  assert (c2 = raw) as ->.
  { apply list_eq. intros j. destruct (decide (j ≤ n)) as [Hj|Hj]; [by apply Hc2raw|].
    rewrite !lookup_ge_None_2; [done|lia|lia]. }
  rewrite Hrawlen. replace (n + 1 - 1) with n by lia.
  (* second loop: the division by the last entry *)
  assert (Htot : raw !! n = Some (totalArea tris)).
  { unfold totalArea. fold raw. rewrite last_lookup, Hrawlen.
    replace (Nat.pred (n + 1)) with n by lia.
    destruct (raw !! n) eqn:E; [done|apply lookup_ge_None in E; lia]. }
  set (T := totalArea tris) in *.
  destruct (for_loop_invariant
    (λ k c, length c = n + 1
            ∧ ∀ j, c !! j = if decide (1 ≤ j ≤ k)
                            then (λ r, fdiv r T) <$> raw !! j else raw !! j)
    (λ i c, ci ← c !! i; total ← c !! n; store c i (fdiv ci total))
    1 n raw) as (c3 & Hc3 & Hc3len & Hc3raw).
  { split; [done|]. intros j. rewrite decide_False by lia. done. }
  { intros k c Hk [Hclen Hc].
    rewrite (Hc (1 + k)), decide_False by lia.
    destruct (raw !! (1 + k)) as [r|] eqn:Hr;
      [|apply lookup_ge_None in Hr; lia].
    simpl. rewrite (Hc n), decide_False, Htot by lia. simpl.
    rewrite store_Some by lia. eexists. split; [done|].
    split; [by rewrite length_insert|].
    intros j. destruct (decide (j = S k)) as [->|Hne].
    - rewrite list_lookup_insert_eq by lia. rewrite decide_True by lia.
      simpl in Hr. by rewrite Hr.
    - rewrite list_lookup_insert_ne by lia. rewrite Hc.
      destruct (decide (1 ≤ j ≤ k)), (decide (1 ≤ j ≤ S k)); try done; lia. }
  rewrite Hc3. simpl. do 2 f_equal.
  apply list_eq. intros j. rewrite Hc3raw. unfold normalizedTable.
  destruct raw as [|r0 rest]; [done|].
  destruct j as [|j]; [done|]. simpl. rewrite list_lookup_fmap.
  simpl in Hrawlen.
  destruct (decide (1 ≤ S j ≤ n)) as [Hj|Hj]; [done|].
  by rewrite (lookup_ge_None_2 rest) by lia.
Qed.

Lemma normalizedTable_0 raw (T : D) : normalizedTable raw T !! 0 = raw !! 0.
Proof. by destruct raw. Qed.

Lemma normalizedTable_S raw (T : D) i :
  normalizedTable raw T !! S i = (λ r, fdiv r T) <$> raw !! S i.
Proof. destruct raw as [|r0 rest]; [done|]. simpl. by rewrite list_lookup_fmap. Qed.

Lemma normalizedTable_length raw T : length (normalizedTable raw T) = length raw.
Proof. destruct raw; simpl; [done|]. by rewrite length_fmap. Qed.

Lemma rawAreaTable_length (tris : list (Triangle3 D)) :
  length (rawAreaTable tris) = length tris + 1.
Proof. unfold rawAreaTable. rewrite cumulative_length, length_fmap. lia. Qed.

Lemma rawAreaTable_total (tris : list (Triangle3 D)) :
  rawAreaTable tris !! length tris = Some (totalArea tris).
Proof.
  unfold totalArea. rewrite last_lookup, rawAreaTable_length.
  replace (Nat.pred (length tris + 1)) with (length tris) by lia.
  destruct (rawAreaTable tris !! length tris) eqn:E; [done|].
  apply lookup_ge_None in E. rewrite rawAreaTable_length in E. lia.
Qed.

Section Ascending.
Context (fle : D → D → Prop) `{!FltOrder D} `{!FltMonotone D fle}.

(** The running sums of numbers that are not negative ascend from the
    start value, which they are not below. *)
Lemma cumulative_ascending areas : ∀ acc,
  fle f0 acc → (∀ a, a ∈ areas → fle f0 a) →
  ascending fle (cumulative acc areas)
  ∧ ∀ i r, cumulative acc areas !! i = Some r → fle f0 r.
Proof.
  induction areas as [|a areas IH]; intros acc Hacc Hpos.
  - split.
    + intros i j x y Hij Hx Hy. apply lookup_lt_Some in Hy. simpl in Hy. lia.
    + intros [|i] r Hr; simpl in Hr; [|done]. injection Hr as Hr. by subst.
  - assert (Ha : fle f0 a) by (apply Hpos; by left).
    assert (Hstep : fle acc (fadd a acc)) by (by apply fadd_fle).
    assert (Hnext : fle f0 (fadd a acc)) by exact (fle_trans _ _ _ Hacc Hstep).
    destruct (IH (fadd a acc) Hnext) as [IHasc IHpos].
    { intros a' Ha'. apply Hpos. by right. }
    split.
    + intros i j x y Hij Hx Hy. destruct j as [|j]; [lia|].
      change (cumulative (fadd a acc) areas !! j = Some y) in Hy.
      destruct i as [|i].
      * simpl in Hx. injection Hx as Hx. subst x.
        destruct j as [|j].
        -- rewrite cumulative_0 in Hy. injection Hy as Hy. by subst.
        -- apply fle_trans with (fadd a acc); [done|].
           apply (IHasc 0 (S j)); [lia|apply cumulative_0|done].
      * change (cumulative (fadd a acc) areas !! i = Some x) in Hx.
        apply (IHasc i j); [lia|done|done].
    + intros [|i] r Hr; [simpl in Hr; injection Hr as Hr; by subst|].
      change (cumulative (fadd a acc) areas !! i = Some r) in Hr.
      by apply (IHpos i).
Qed.

(** The normalized table of areas that are not negative, with a positive
    finite total, ascends. *)
Lemma normalizedTable_ascending (tris : list (Triangle3 D)) :
  (∀ tri, tri ∈ tris → fle f0 (tri_area tri)) →
  flt f0 (totalArea tris) = true → flt DBL_MAX (totalArea tris) = false →
  ascending fle (normalizedTable (rawAreaTable tris) (totalArea tris)).
Proof.
  intros Hpos HT Hfin.
  destruct (cumulative_ascending (tri_area <$> tris) f0 fle_zero) as [Hasc Hnn].
  { intros a (tri & -> & Htri)%list_elem_of_fmap. by apply Hpos. }
  fold (rawAreaTable tris) in Hasc, Hnn.
  intros i j a b Hij Ha Hb. destruct j as [|j]; [lia|].
  rewrite normalizedTable_S in Hb.
  destruct (rawAreaTable tris !! S j) as [rj|] eqn:Hrj; [|done].
  injection Hb as <-.
  destruct i as [|i].
  - rewrite normalizedTable_0 in Ha. unfold rawAreaTable in Ha.
    rewrite cumulative_0 in Ha. injection Ha as <-.
    rewrite <- (fdiv_zero (totalArea tris) HT) at 1.
    apply fdiv_fle; [apply fle_zero|by apply (Hnn (S j))|done|done].
  - rewrite normalizedTable_S in Ha.
    destruct (rawAreaTable tris !! S i) as [ri|] eqn:Hri; [|done].
    injection Ha as <-.
    apply fdiv_fle; [by apply (Hnn (S i))|by apply (Hasc (S i) (S j))|done|done].
Qed.

Lemma ascending_nondecreasing (c : list D) : ascending fle c → nondecreasing c.
Proof.
  intros Hasc i j a b Hij Ha Hb. destruct (decide (i = j)) as [->|Hne].
  - rewrite Ha in Hb. injection Hb as <-. apply flt_irrefl.
  - apply fle_not_flt. apply (Hasc i j); [lia|done|done].
Qed.


End Ascending.

Lemma normalizedTable_last `{!FltOrder D} `{!FltDivSelf D} (tris : list (Triangle3 D)) :
  flt f0 (totalArea tris) = true → flt DBL_MAX (totalArea tris) = false →
  last (normalizedTable (rawAreaTable tris) (totalArea tris)) = Some f1.
Proof.
  intros Hpos Hfin.
  rewrite last_lookup, normalizedTable_length, rawAreaTable_length.
  replace (Nat.pred (length tris + 1)) with (length tris) by lia.
  destruct tris as [|tri tris].
  { unfold totalArea in Hpos. simpl in Hpos. by rewrite flt_irrefl in Hpos. }
  cbn [length]. rewrite normalizedTable_S.
  change (S (length tris)) with (length (tri :: tris)).
  rewrite rawAreaTable_total. simpl. f_equal.
  destruct (fdiv_self _ Hpos) as [->|[Hinf _]]; [done|]. congruence.
Qed.

(** C3, amended.  For a mesh whose [n] faces can be read:
    [computeAreaCache] (and its twin [computeAreaCacheP]) changes the area
    cache only, and leaves a table of length [n + 1].  Before normalization
    entry 0 is 0 and entry [i + 1] is the area of face [i] plus entry [i]; in
    the final table entry 0 is 0 and every later entry is the raw entry
    divided by the raw last entry, the total.  When the total is positive and
    not above [DBL_MAX], the last entry is 1; when moreover every area is a
    number that is not negative, the entries ascend, so that the table
    starts at 0, does not decrease and ends at 1.  (With a total above
    [DBL_MAX], an infinity, the last entry is not 1 but a NaN.) *)
Theorem computeAreaCache_table (fle : D → D → Prop)
    `{!FltOrder D} `{!FltDivSelf D} `{!FltMonotone D fle}
    (m : Mesh) (tris : list (Triangle3 D)) :
  faces_are m tris →
  ∃ c, computeAreaCache m
       = Some (mkMesh (_points m) (_normals m) (_uvs m) (_pointIndices m)
                      (_normalIndices m) (_uvIndices m) c)
     ∧ computeAreaCacheP m
       = Some (mkMesh (_points m) (_normals m) (_uvs m) (_pointIndices m)
                      (_normalIndices m) (_uvIndices m) c)
     ∧ length c = numberOfFaces m + 1
     ∧ rawAreaTable tris !! 0 = Some f0
     ∧ (∀ i tri prev, tris !! i = Some tri → rawAreaTable tris !! i = Some prev →
          rawAreaTable tris !! S i = Some (fadd (tri_area tri) prev))
     ∧ rawAreaTable tris !! numberOfFaces m = Some (totalArea tris)
     ∧ c !! 0 = Some f0
     ∧ (∀ i r, rawAreaTable tris !! S i = Some r →
          c !! S i = Some (fdiv r (totalArea tris)))
     ∧ (flt f0 (totalArea tris) = true → flt DBL_MAX (totalArea tris) = false →
          last c = Some f1)
     ∧ ((∀ tri, tri ∈ tris → fle f0 (tri_area tri)) →
        flt f0 (totalArea tris) = true → flt DBL_MAX (totalArea tris) = false →
          ascending fle c ∧ cdf_table c).
Proof.
  intros Hfaces. pose proof Hfaces as [Hlen Htris].
  exists (normalizedTable (rawAreaTable tris) (totalArea tris)).
  split; [by apply areaCacheBody_table|]. split; [by apply areaCacheBody_table|].
  split; [by rewrite normalizedTable_length, rawAreaTable_length, Hlen|].
  split; [apply cumulative_0|]. split.
  { intros i tri prev Htri Hprev. apply cumulative_S; [|done].
    by rewrite list_lookup_fmap, Htri. }
  split; [rewrite <- Hlen; apply rawAreaTable_total|].
  assert (H0 : normalizedTable (rawAreaTable tris) (totalArea tris) !! 0 = Some f0)
    by (rewrite normalizedTable_0; apply cumulative_0).
  split; [done|].
  split; [intros i r Hr; by rewrite normalizedTable_S, Hr|].
  split; [apply normalizedTable_last|].
  intros Hpos HT Hfin.
  pose proof (normalizedTable_ascending fle tris Hpos HT Hfin) as Hasc.
  split; [done|]. split; [done|].
  split; [by apply (ascending_nondecreasing fle)|by apply normalizedTable_last].
Qed.

Lemma lower_bound_loop_spec (a : list D) (val : D) fuel : ∀ first len,
  len ≤ fuel →
  first + len ≤ length a →
  (∀ i j e e', i ≤ j → a !! i = Some e → a !! j = Some e' →
               flt e' val = true → flt e val = true) →
  (∀ i e, i < first → a !! i = Some e → flt e val = true) →
  (∀ i e, first + len ≤ i → a !! i = Some e → flt e val = false) →
  ∃ pos, lower_bound_loop fuel a val first len = Some pos
         ∧ first_not_below a val pos.
Proof.
  induction fuel as [|fuel IH]; intros first len Hfuel Hrange Hpart Hlo Hhi.
  - simpl. rewrite decide_False by lia. exists first.
    split; [done|]. split; [lia|]. split; [done|].
    intros i e Hi. apply Hhi. lia.
  - cbn [lower_bound_loop]. destruct (decide (0 < len)) as [Hlen|Hlen].
    + assert (Hhalf : len / 2 < len) by (apply Nat.div_lt; lia).
      destruct (lookup_lt_is_Some_2 a (first + len / 2) ltac:(lia)) as [e He].
      rewrite He. cbn [mbind option_bind]. destruct (flt e val) eqn:Hlt.
      * apply IH; [lia|lia|done| |].
        -- intros i e' Hi He'. apply (Hpart i (first + len / 2) e' e); [lia|done..].
        -- intros i e' Hi. apply Hhi. lia.
      * apply IH; [lia|lia|done|done|].
        intros i e' Hi He'. destruct (flt e' val) eqn:Hlt'; [|done].
        rewrite <- Hlt. symmetry.
        by apply (Hpart (first + len / 2) i e e').
    + exists first. split; [done|]. split; [lia|]. split; [done|].
      intros i e Hi. apply Hhi. lia.
Qed.





End Sampler.

(** ** Normal synthesizer *)

Section Normals.
Context {D : Type} `{!Float64 D} `{!Triangle3Prim D}.
Local Abbreviation Mesh := (TriangleMesh3 D).

Lemma triangle_points (m : Mesh) (i : nat) (f : Point3UI) pts :
  _pointIndices m !! i = Some f →
  gather (_points m) f = Some pts →
  (hasUvs m = true → ∃ tf, _uvIndices m !! i = Some tf
                           ∧ face_in_range (length (_uvs m)) tf) →
  (hasNormals m = true → ∃ nf, _normalIndices m !! i = Some nf
                           ∧ face_in_range (length (_normals m)) nf) →
  ∃ tri, triangle m i = Some tri ∧ points tri = pts.
Proof.
  intros Hf Hpts Huv Hn. unfold triangle. rewrite Hf. simpl. rewrite Hpts. simpl.
  destruct (hasUvs m).
  - destruct Huv as (tf & -> & Htf); [done|]. simpl.
    destruct (gather_Some _ _ Htf) as [tuv ->]. simpl.
    destruct (hasNormals m).
    + destruct Hn as (nf & -> & Hnf); [done|]. simpl.
      destruct (gather_Some _ _ Hnf) as [nrm ->]. simpl. by eexists.
    + simpl. by eexists.
  - simpl. destruct (hasNormals m).
    + destruct Hn as (nf & -> & Hnf); [done|]. simpl.
      destruct (gather_Some _ _ Hnf) as [nrm ->]. simpl. by eexists.
    + simpl. by eexists.
Qed.

Lemma insert3_incident {A} (ns : list A) (f : Point3UI) (n : A) :
  face_in_range (length ns) f →
  ∀ v, <[N.to_nat (z f) := n]> (<[N.to_nat (y f) := n]> (<[N.to_nat (x f) := n]> ns)) !! v
       = if decide (incident f v) then Some n else ns !! v.
Proof.
  intros (Hx & Hy & Hz) v. unfold incident.
  destruct (decide (N.to_nat (z f) = v)) as [<-|Hzv].
  { rewrite list_lookup_insert_eq by (by rewrite !length_insert).
    rewrite decide_True; [done|]. tauto. }
  rewrite list_lookup_insert_ne by done.
  destruct (decide (N.to_nat (y f) = v)) as [<-|Hyv].
  { rewrite list_lookup_insert_eq by (by rewrite !length_insert).
    rewrite decide_True; [done|]. tauto. }
  rewrite list_lookup_insert_ne by done.
  destruct (decide (N.to_nat (x f) = v)) as [<-|Hxv].
  { rewrite list_lookup_insert_eq by done.
    rewrite decide_True; [done|]. tauto. }
  rewrite list_lookup_insert_ne by done.
  rewrite decide_False; [done|]. tauto.
Qed.

(** C5.  [setFaceNormal], on a mesh whose face indices are in range and
    with a face normal that depends on the positions only: the normals are
    resized to the number of positions, the normal faces become the position
    faces, and the normal of a vertex is the flat normal of the last face
    that contains it (the resized array's value when no face does). *)
Theorem setFaceNormal_last_writer (m : Mesh) :
  (∀ i f, _pointIndices m !! i = Some f → face_in_range (length (_points m)) f) →
  (hasUvs m = true → ∀ i, i < numberOfFaces m →
     ∃ tf, _uvIndices m !! i = Some tf ∧ face_in_range (length (_uvs m)) tf) →
  (∀ t t' : Triangle3 D, points t = points t' → tri_faceNormal t = tri_faceNormal t') →
  ∃ ns, setFaceNormal m
        = Some (mkMesh (_points m) ns (_uvs m) (_pointIndices m) (_pointIndices m)
                       (_uvIndices m) (_areaCache m))
    ∧ length ns = length (_points m)
    ∧ ∀ v, v < length (_points m) →
        (∀ i f, _pointIndices m !! i = Some f → incident f v →
           (∀ j f', i < j → _pointIndices m !! j = Some f' → ¬ incident f' v) →
           is_Some (flatNormal m i) ∧ ns !! v = flatNormal m i)
        ∧ ((∀ i f, _pointIndices m !! i = Some f → ¬ incident f v) →
           ns !! v = resize (length (_points m)) Vector3D_zero (_normals m) !! v).
Proof.
  intros Hpts Huv Hfn. unfold setFaceNormal.
  set (mk ns := mkMesh (_points m) ns (_uvs m) (_pointIndices m) (_pointIndices m)
                       (_uvIndices m) (_areaCache m)).
  set (ns0 := resize (length (_points m)) Vector3D_zero (_normals m)).
  change (numberOfFaces _) with (numberOfFaces m).
  destruct (for_loop_invariant
    (λ k mi, ∃ ns, mi = mk ns ∧ length ns = length (_points m)
       ∧ ∀ v, v < length (_points m) →
           (∀ i f, i < k → _pointIndices m !! i = Some f → incident f v →
              (∀ j f', i < j < k → _pointIndices m !! j = Some f' → ¬ incident f' v) →
              is_Some (flatNormal m i) ∧ ns !! v = flatNormal m i)
           ∧ ((∀ i f, i < k → _pointIndices m !! i = Some f → ¬ incident f v) →
              ns !! v = ns0 !! v))
    setFaceNormal_body 0 (numberOfFaces m) (mk ns0)) as (m' & Hrun & ns & -> & Hlen & Hns).
  - exists ns0. split; [done|]. split; [by apply length_resize|].
    intros v Hv. split; [intros; lia|done].
  - intros k mi Hk (ns & -> & Hlen & Hns). simpl.
    destruct (lookup_lt_is_Some_2 (_pointIndices m) k Hk) as [f Hf].
    pose proof (Hpts k f Hf) as Hrange.
    destruct (gather_Some (_points m) f Hrange) as [pts Hgather].
    destruct (triangle_points (mk ns) k f pts Hf Hgather) as (tri & Htri & Htripts).
    { intros Hu. by apply Huv. }
    { intros _. exists f. split; [done|]. simpl. by rewrite Hlen. }
    unfold setFaceNormal_body. rewrite Htri. simpl. rewrite Hf. simpl.
    pose proof Hrange as (Hx & Hy & Hz).
    rewrite store_Some by (simpl; lia). simpl.
    rewrite store_Some by (rewrite length_insert; lia). simpl.
    rewrite store_Some by (rewrite !length_insert; lia). simpl.
    eexists. split; [done|]. eexists. split; [done|].
    split; [by rewrite !length_insert|].
    pose proof (insert3_incident ns f (tri_faceNormal tri)) as Hns'.
    rewrite Hlen in Hns'. specialize (Hns' Hrange).
    assert (Hflat : flatNormal m k = Some (tri_faceNormal tri)).
    { unfold flatNormal. rewrite Hf. simpl. rewrite Hgather. simpl.
      f_equal. apply Hfn. by rewrite Htripts. }
    intros v Hv. rewrite Hns'. destruct (Hns v Hv) as [Hlast Hnone]. split.
    + intros i f' Hi Hf' Hinc Hlater.
      destruct (decide (i = k)) as [->|Hik].
      * rewrite Hf in Hf'. injection Hf' as <-.
        rewrite decide_True by done. by rewrite Hflat.
      * rewrite decide_False.
        -- apply (Hlast i f'); [lia|done|done|].
           intros j f'' Hj. apply Hlater. lia.
        -- intros Hinck. apply (Hlater k f); [lia|done|done].
    + intros Hno. rewrite decide_False.
      * apply Hnone. intros i f' Hi. apply Hno. lia.
      * intros Hinck. apply (Hno k f); [lia|done|done].
  - exists ns. split; [done|]. split; [done|].
    intros v Hv. destruct (Hns v Hv) as [Hlast Hnone]. split.
    + intros i f Hf Hinc Hlater. apply (Hlast i f); [|done|done|].
      * by eapply lookup_lt_Some.
      * intros j f' Hj. apply Hlater. lia.
    + intros Hno. apply Hnone. intros i f _. apply Hno.
Qed.

Lemma angleForPoint_acc npts cs s ia pa pb pc :
  acc_for npts cs s → N.to_nat ia < npts →
  ∃ s', angleForPoint pa pb pc ia s = Some s'
        ∧ acc_for npts (cs ++ [cornerAt ia pa pb pc]) s'.
Proof.
  intros (HW & HP & Hargs & Hacc) Hia. unfold angleForPoint, at_.
  destruct (Hacc _ Hia) as [Hw Hp]. rewrite Hw. simpl.
  rewrite store_Some by lia. simpl. rewrite Hp. simpl.
  rewrite store_Some by lia. simpl. eexists. split; [done|].
  unfold acc_for. simpl.
  split; [by rewrite length_insert|]. split; [by rewrite length_insert|].
  split; [by rewrite Hargs, fmap_app|].
  intros v Hv. unfold weightAt, pseudoNormalAt. rewrite !foldl_snoc.
  fold (weightAt cs v). fold (pseudoNormalAt cs v). simpl.
  destruct (decide (N.to_nat ia = v)) as [<-|Hne].
  - by rewrite !list_lookup_insert_eq by lia.
  - rewrite !list_lookup_insert_ne by done. by apply Hacc.
Qed.

Lemma angleWeighted_body_acc (m : Mesh) npts cs s i f :
  npts = length (_points m) →
  _pointIndices m !! i = Some f →
  face_in_range (length (_points m)) f →
  acc_for npts cs s →
  ∃ s', angleWeighted_body m i s = Some s' ∧ acc_for npts (cs ++ faceCorners m f) s'.
Proof.
  intros -> Hf Hrange Hacc. unfold angleWeighted_body, faceCorners.
  rewrite Hf. simpl. destruct (gather_Some _ _ Hrange) as [[[p0 p1] p2] ->]. simpl.
  destruct Hrange as (Hx & Hy & Hz).
  destruct (angleForPoint_acc _ _ _ (x f) p0 p1 p2 Hacc Hx) as (s0 & -> & H0). simpl.
  destruct (angleForPoint_acc _ _ _ (y f) p1 p2 p0 H0 Hy) as (s1 & -> & H1). simpl.
  destruct (angleForPoint_acc _ _ _ (z f) p2 p0 p1 H1 Hz) as (s2 & -> & H2).
  exists s2. split; [done|]. by rewrite <- !app_assoc in H2.
Qed.

Lemma cornersOf_shape (m : Mesh) faces c :
  c ∈ cornersOf m faces → ∃ ia pa pb pc, c = cornerAt ia pa pb pc.
Proof.
  unfold cornersOf. intros (f & Hc & _)%list_elem_of_bind.
  unfold faceCorners in Hc. destruct (gather (_points m) f) as [[[p0 p1] p2]|].
  - repeat (apply elem_of_cons in Hc as [->|Hc]; [by eauto|]).
    by apply elem_of_nil in Hc.
  - by apply elem_of_nil in Hc.
Qed.

Lemma weightAt_untouched cs v :
  (∀ c, c ∈ cs → cornerVertex c ≠ v) →
  weightAt cs v = f0 ∧ pseudoNormalAt cs v = Vector3D_zero.
Proof.
  induction cs as [|c cs IH] using rev_ind; intros Hno; [done|].
  unfold weightAt, pseudoNormalAt. rewrite !foldl_snoc.
  fold (weightAt cs v). fold (pseudoNormalAt cs v).
  rewrite !decide_False by (apply Hno, elem_of_app; right; by left).
  apply IH. intros c' Hc'. apply Hno, elem_of_app. by left.
Qed.

(** C6, amended.  [setAngleWeightedVertexNormal], on a mesh whose face
    indices are in range: the arguments of [std::acos] are exactly the corner
    cosines, each the dot product of two normalized edge vectors passed
    through [clamp]; none is below -1 or above 1, and one that is not a number
    is the dot product itself (so the argument is a number whenever the dot
    product is); the accumulated vector of a vertex is divided by its
    accumulated angle exactly when that angle is positive, and is left as
    accumulated otherwise; a vertex that no face touches keeps the zero
    vector. *)
Theorem setAngleWeightedVertexNormal_guarded `{!FltOrder D} (m : Mesh) :
  (∀ i f, _pointIndices m !! i = Some f → face_in_range (length (_points m)) f) →
  ∃ ns,
    setAngleWeightedVertexNormal m
    = Some (mkMesh (_points m) ns (_uvs m) (_pointIndices m) (_pointIndices m)
                   (_uvIndices m) (_areaCache m),
            cornerCos <$> cornersOf m (_pointIndices m))
    ∧ (∀ c, c ∈ cornersOf m (_pointIndices m) →
         (∃ ia pa pb pc,
            cornerCos c = clamp (dot (normalize (vsub pb pa)) (normalize (vsub pc pa)))
                                (fneg f1) f1
            ∧ c = cornerAt ia pa pb pc
            ∧ (ordered (dot (normalize (vsub pb pa)) (normalize (vsub pc pa))) →
               ordered (cornerCos c))
            ∧ (¬ ordered (cornerCos c) →
               cornerCos c = dot (normalize (vsub pb pa)) (normalize (vsub pc pa))))
         ∧ flt (cornerCos c) (fneg f1) = false ∧ flt f1 (cornerCos c) = false)
    ∧ length ns = length (_points m)
    ∧ ∀ v, v < length (_points m) →
        let W := weightAt (cornersOf m (_pointIndices m)) v in
        let P := pseudoNormalAt (cornersOf m (_pointIndices m)) v in
        ns !! v = Some (if fgt W f0 then vdiv P W else P)
        ∧ ((∀ c, c ∈ cornersOf m (_pointIndices m) → cornerVertex c ≠ v) →
           ns !! v = Some Vector3D_zero).
Proof.
  intros Hpts. unfold setAngleWeightedVertexNormal. simpl.
  change (numberOfFaces _) with (numberOfFaces m).
  set (npts := length (_points m)).
  set (m1 := set_normalIndices (set_normals m []) []).
  set (cs := cornersOf m (_pointIndices m)).
  (* the face loop *)
  destruct (for_loop_invariant
    (λ k s, acc_for npts (cornersOf m (take k (_pointIndices m))) s)
    (angleWeighted_body m1) 0 (numberOfFaces m)
    (mkAngleAcc (replicate npts f0) (replicate npts Vector3D_zero) []))
    as (s & -> & Hs).
  { unfold acc_for. simpl.
    split; [apply length_replicate|]. split; [apply length_replicate|].
    split; [done|]. intros v Hv. by rewrite !lookup_replicate_2. }
  { intros k s Hk Hacc. simpl.
    destruct (lookup_lt_is_Some_2 (_pointIndices m) k Hk) as [f Hf].
    rewrite (take_S_r _ _ _ Hf). unfold cornersOf. rewrite bind_app. simpl.
    rewrite app_nil_r.
    exact (angleWeighted_body_acc m1 npts _ s k f eq_refl Hf (Hpts k f Hf) Hacc). }
  rewrite take_ge in Hs by done. fold cs in Hs.
  destruct Hs as (HW & HP & Hargs & Hacc). simpl.
  (* the division loop *)
  destruct (for_loop_invariant
    (λ k ps, length ps = npts
       ∧ ∀ v, v < npts →
           ps !! v = if decide (v < k)
                     then Some (if fgt (weightAt cs v) f0
                                then vdiv (pseudoNormalAt cs v) (weightAt cs v)
                                else pseudoNormalAt cs v)
                     else Some (pseudoNormalAt cs v))
    (divideByWeight (angleWeights s)) 0 npts (pseudoNormals s))
    as (ns & -> & Hnslen & Hns).
  { split; [done|]. intros v Hv. rewrite decide_False by lia. by apply Hacc. }
  { intros k ps Hk [Hlen Hps]. simpl. unfold divideByWeight.
    destruct (Hacc k Hk) as [-> _]. simpl.
    destruct (fgt (weightAt cs k) f0) eqn:Hgt.
    - rewrite (Hps k Hk), decide_False by lia. simpl.
      rewrite store_Some by lia. eexists. split; [done|].
      split; [by rewrite length_insert|]. intros v Hv.
      destruct (decide (v = k)) as [->|Hne].
      + rewrite list_lookup_insert_eq by lia. rewrite decide_True by lia.
        by rewrite Hgt.
      + rewrite list_lookup_insert_ne by done. rewrite (Hps v Hv).
        destruct (decide (v < k)), (decide (v < S k)); try done; lia.
    - eexists. split; [done|]. split; [done|]. intros v Hv. rewrite (Hps v Hv).
      destruct (decide (v = k)) as [->|Hne].
      + rewrite decide_False, decide_True by lia. by rewrite Hgt.
      + destruct (decide (v < k)), (decide (v < S k)); try done; lia. }
  simpl. exists ns. rewrite Hargs. split; [done|]. split; [|split; [done|]].
  - intros c Hc. destruct (cornersOf_shape m _ c Hc) as (ia & pa & pb & pc & ->).
    split; [|apply clamp_in_domain].
    exists ia, pa, pb, pc. split; [done|]. split; [done|].
    split; [apply clamp_ordered|]. intros Hnan. simpl in *.
    apply clamp_unordered. intros Hd. by apply Hnan, clamp_ordered.
  - intros v Hv. rewrite (Hns v Hv), decide_True by done. cbv zeta.
    split; [done|].
    intros Hno. destruct (weightAt_untouched cs v Hno) as [-> ->].
    unfold fgt. by rewrite flt_irrefl.
Qed.

End Normals.

(** ** Face appends *)

Section FaceAppends.
Context {D : Type}.
Local Abbreviation Mesh := (TriangleMesh3 D).

Lemma faceAppends_uniform (bn bu : bool) (cs : list FaceAppend) : ∀ m : Mesh,
  (∀ c, c ∈ cs → appendsNormal c = bn ∧ appendsUv c = bu) →
  ∃ m', faceAppends false m cs = Some m'
    ∧ length (_pointIndices m') = length (_pointIndices m) + length cs
    ∧ length (_normalIndices m')
      = length (_normalIndices m) + (if bn then length cs else 0)
    ∧ length (_uvIndices m') = length (_uvIndices m) + (if bu then length cs else 0)
    ∧ _uvs m' = _uvs m.
Proof.
  induction cs as [|c cs IH]; intros m Hall.
  - exists m. simpl. destruct bn, bu; repeat split; lia.
  - destruct (Hall c ltac:(by left)) as [Hn Hu].
    assert (∃ m1, faceAppend false m c = Some m1
      ∧ length (_pointIndices m1) = length (_pointIndices m) + 1
      ∧ length (_normalIndices m1) = length (_normalIndices m) + (if bn then 1 else 0)
      ∧ length (_uvIndices m1) = length (_uvIndices m) + (if bu then 1 else 0)
      ∧ _uvs m1 = _uvs m) as (m1 & Hm1 & Hp & Hnl & Hul & Huvs).
    { destruct c; simpl in Hn, Hu; subst bn bu; simpl; eexists;
        (split; [done|]); simpl; rewrite ?length_app; simpl; repeat split; lia. }
    destruct (IH m1) as (m' & Hm' & Hp' & Hn' & Hu' & Huvs').
    { intros c' Hc'. apply Hall. by right. }
    exists m'. simpl. rewrite Hm1. simpl. split; [done|].
    rewrite Hp', Hn', Hu', Hp, Hnl, Hul, Huvs', Huvs.
    destruct bn, bu; repeat split; lia.
Qed.

Lemma faceAppends_debug_no_uv (bn : bool) (cs : list FaceAppend) : ∀ m : Mesh,
  (∀ c, c ∈ cs → appendsNormal c = bn ∧ appendsUv c = false) →
  (bn = true → length (_pointIndices m) = length (_normalIndices m)) →
  faceAppends true m cs = faceAppends false m cs.
Proof.
  induction cs as [|c cs IH]; intros m Hall Hm; [done|].
  destruct (Hall c ltac:(by left)) as [Hn Hu].
  assert (Hrest : ∀ c', c' ∈ cs → appendsNormal c' = bn ∧ appendsUv c' = false).
  { intros c' Hc'. apply Hall. by right. }
  destruct c as [p|p n|p n t|p t]; simpl in Hn, Hu; try done.
  - simpl. apply IH; [done|]. intros ->. done.
  - cbn [faceAppends faceAppend]. unfold addPointNormalFace, JET_ASSERT.
    rewrite bool_decide_true by (by apply Hm). simpl.
    apply IH; [done|]. intros _. simpl. rewrite !length_app. simpl. by rewrite Hm.
Qed.

(** C7, amended.  Starting from the empty mesh, a run of calls of one and
    the same face-append variant keeps the invariant after every call: a
    non-empty normal-face (uv-face) sequence is as long as the position-face
    sequence, and before each call that appends normal (uv) indices that
    sequence is as long as the position faces.  In a debug build no
    assertion fires in such a run of a variant without uv indices. *)
Theorem uniform_appends_keep_lengths (cs : list FaceAppend) :
  uniform cs →
  (∀ k, ∃ m : Mesh,
      faceAppends false empty_mesh (take k cs) = Some m
      ∧ lengths_match m
      ∧ ∀ c, cs !! k = Some c →
          (appendsNormal c = true →
             length (_pointIndices m) = length (_normalIndices m))
          ∧ (appendsUv c = true →
             length (_pointIndices m) = length (_uvIndices m)))
  ∧ ((∀ c, c ∈ cs → appendsUv c = false) →
     faceAppends true (empty_mesh : Mesh) cs = faceAppends false empty_mesh cs).
Proof.
  intros (bn & bu & Hall). split.
  - intros k.
    destruct (faceAppends_uniform bn bu (take k cs) empty_mesh)
      as (m & Hm & Hp & Hn & Hu & _).
    { intros c Hc. apply Hall. by apply (subseteq_take k cs). }
    simpl in Hp, Hn, Hu. exists m. split; [done|]. split.
    + unfold lengths_match. rewrite Hp, Hn, Hu.
      destruct bn, bu; split; try (by right);
        left; apply length_zero_iff_nil; lia.
    + intros c Hc. destruct (Hall c) as [<- <-]; [by eapply list_elem_of_lookup_2|].
      rewrite Hp, Hn, Hu. split; intros ->; done.
  - intros Hnouv. apply (faceAppends_debug_no_uv bn); [|done].
    intros c Hc. split; [by apply Hall|by apply Hnouv].
Qed.

(** [addTriangle] appends the triangle's three positions, normals and uvs
    as fresh cells and one face that names exactly those cells, so each of
    the three face-index sequences grows by one. *)
Lemma addTriangle_fresh_face (m : Mesh) (tri : Triangle3 D) :
  let vStart := N.of_nat (length (_points m)) in
  let nStart := N.of_nat (length (_normals m)) in
  let tStart := N.of_nat (length (_uvs m)) in
  _pointIndices (addTriangle m tri)
  = _pointIndices m ++ [mkVec3 vStart (vStart + 1)%N (vStart + 2)%N]
  ∧ _normalIndices (addTriangle m tri)
    = _normalIndices m ++ [mkVec3 nStart (nStart + 1)%N (nStart + 2)%N]
  ∧ _uvIndices (addTriangle m tri)
    = _uvIndices m ++ [mkVec3 tStart (tStart + 1)%N (tStart + 2)%N]
  ∧ gather (_points (addTriangle m tri)) (mkVec3 vStart (vStart + 1)%N (vStart + 2)%N)
    = Some (points tri)
  ∧ gather (_normals (addTriangle m tri)) (mkVec3 nStart (nStart + 1)%N (nStart + 2)%N)
    = Some (normals tri)
  ∧ gather (_uvs (addTriangle m tri)) (mkVec3 tStart (tStart + 1)%N (tStart + 2)%N)
    = Some (uvs tri).
Proof.
  cbv zeta. unfold addTriangle.
  destruct (points tri) as [[p0 p1] p2], (normals tri) as [[n0 n1] n2],
    (uvs tri) as [[t0 t1] t2]. simpl.
  assert (Hg : ∀ {A} (l : list A) (a b c : A),
            gather (l ++ [a; b; c])
              (mkVec3 (N.of_nat (length l)) (N.of_nat (length l) + 1)%N
                      (N.of_nat (length l) + 2)%N) = Some (a, b, c)).
  { intros A l a b c. unfold gather, at_. simpl.
    replace (N.to_nat (N.of_nat (length l) + 1)) with (length l + 1) by lia.
    replace (N.to_nat (N.of_nat (length l) + 2)) with (length l + 2) by lia.
    rewrite Nat2N.id.
    rewrite !lookup_app_r by lia.
    replace (length l - length l) with 0 by lia.
    replace (length l + 1 - length l) with 1 by lia.
    replace (length l + 2 - length l) with 2 by lia. done. }
  by rewrite !Hg.
Qed.

End FaceAppends.

(** ** Text interchange *)

Section WriteObj.
Context {D : Type} `{!Float64 D}.
Local Abbreviation Mesh := (TriangleMesh3 D).

Lemma append_assoc (a b c : string) : (a +:+ b) +:+ c = a +:+ (b +:+ c).
Proof.
  induction a as [|ch a IH]; [done|].
  change (String ch ((a +:+ b) +:+ c) = String ch (a +:+ (b +:+ c))).
  by rewrite IH.
Qed.

Lemma append_nil_r (a : string) : a +:+ "" = a.
Proof.
  induction a as [|ch a IH]; [done|].
  change (String ch (a +:+ "") = String ch a). by rewrite IH.
Qed.

Lemma joined_app (l k : list string) : joined (l ++ k) = joined l +:+ joined k.
Proof.
  induction l as [|a l IH]; [done|]. unfold joined in *. simpl.
  by rewrite IH, append_assoc.
Qed.

Lemma foldl_lines {A} (line : A → string) (l : list A) (s : string) :
  foldl (λ s a, s +:+ line a) s l = s +:+ joined (line <$> l).
Proof.
  revert s. induction l as [|a l IH]; intros s; simpl.
  - by rewrite append_nil_r.
  - rewrite IH. unfold joined. simpl. by rewrite append_assoc.
Qed.

(** What [writeObj] writes for a position, a uv and a normal is the line
    of the format. *)
Lemma obj_v_line_written (p : Vector3D D) :
  "v " +:+ show_Vector3D p +:+ endl = obj_v_line p.
Proof. unfold obj_v_line, show_Vector3D. by rewrite !append_assoc. Qed.

Lemma obj_vt_line_written (t : Vector2D D) :
  "vt " +:+ show_Vector2D t +:+ endl = obj_vt_line t.
Proof. unfold obj_vt_line, show_Vector2D. by rewrite !append_assoc. Qed.

Lemma obj_vn_line_written (n : Vector3D D) :
  "vn " +:+ show_Vector3D n +:+ endl = obj_vn_line n.
Proof. unfold obj_vn_line, show_Vector3D. by rewrite !append_assoc. Qed.

Lemma writeObj_attribute_lines (m : Mesh) (strm : string) :
  foldl (λ s n, s +:+ "vn " +:+ show_Vector3D n +:+ endl)
    (foldl (λ s uv, s +:+ "vt " +:+ show_Vector2D uv +:+ endl)
       (foldl (λ s pt, s +:+ "v " +:+ show_Vector3D pt +:+ endl) strm (_points m))
       (_uvs m))
    (_normals m)
  = ((strm +:+ joined (obj_v_line <$> _points m)) +:+ joined (obj_vt_line <$> _uvs m))
    +:+ joined (obj_vn_line <$> _normals m).
Proof.
  rewrite !foldl_lines.
  rewrite (list_fmap_ext _ obj_v_line (_points m))
    by (intros; apply obj_v_line_written).
  rewrite (list_fmap_ext _ obj_vt_line (_uvs m))
    by (intros; apply obj_vt_line_written).
  by rewrite (list_fmap_ext _ obj_vn_line (_normals m))
    by (intros; apply obj_vn_line_written).
Qed.

Lemma size_succ_small (i : N) : (i + 1 < 2 ^ 64)%N → size_succ i = (i + 1)%N.
Proof. intros Hi. unfold size_succ. by apply N.mod_small. Qed.

Lemma idx3_below_max (f : Point3UI) (j : nat) :
  below_max f → size_succ (idx3 f j) = (idx3 f j + 1)%N.
Proof.
  intros (Hx & Hy & Hz). apply size_succ_small.
  destruct j as [|[|j]]; simpl; done.
Qed.

Lemma writeObj_vertex_line (m : Mesh) (i j : nat) (strm : string) pf :
  _pointIndices m !! i = Some pf → below_max pf →
  (hasUvs m = true → ∃ tf, _uvIndices m !! i = Some tf ∧ below_max tf) →
  (hasNormals m = true → ∃ nf, _normalIndices m !! i = Some nf ∧ below_max nf) →
  writeObj_vertex m (hasUvs m) (hasNormals m) i j strm
  = Some (strm +:+ obj_face_vertex (hasUvs m) (hasNormals m)
                     (idx3 pf j)
                     (idx3 (default noIndex (_uvIndices m !! i)) j)
                     (idx3 (default noIndex (_normalIndices m !! i)) j)).
Proof.
  intros Hpf Hpmax Huv Hn. unfold writeObj_vertex, obj_face_vertex.
  rewrite Hpf. simpl. rewrite (idx3_below_max pf j Hpmax).
  destruct (hasUvs m), (hasNormals m); simpl.
  - destruct Huv as (tf & -> & Htf); [done|].
    destruct Hn as (nf & -> & Hnf); [done|]. simpl.
    rewrite (idx3_below_max tf j Htf), (idx3_below_max nf j Hnf).
    by rewrite !append_assoc.
  - destruct Huv as (tf & -> & Htf); [done|]. simpl.
    rewrite (idx3_below_max tf j Htf). by rewrite !append_assoc.
  - destruct Hn as (nf & -> & Hnf); [done|]. simpl.
    rewrite (idx3_below_max nf j Hnf). by rewrite !append_assoc.
  - by rewrite !append_assoc.
Qed.

(** C8.  [writeObj] appends to the stream, in this order, one [v] line per
    position, one [vt] line per uv, one [vn] line per normal and one [f]
    line per face; a face line lists its three vertices in declaration
    order, each as the 1-based position index followed by the uv and normal
    slots that the mesh has.  (The face-index sequences of the attributes the
    mesh has must cover every face, and no index may be [SIZE_MAX].) *)
Theorem writeObj_lines (m : Mesh) (strm : string) :
  (∀ i pf, _pointIndices m !! i = Some pf → below_max pf) →
  (hasUvs m = true → ∀ i, i < numberOfFaces m →
     ∃ tf, _uvIndices m !! i = Some tf ∧ below_max tf) →
  (hasNormals m = true → ∀ i, i < numberOfFaces m →
     ∃ nf, _normalIndices m !! i = Some nf ∧ below_max nf) →
  writeObj m strm = Some (strm +:+ joined (obj_lines m)).
Proof.
  intros Hp Huv Hn. unfold writeObj. rewrite writeObj_attribute_lines.
  set (s0 := ((strm +:+ _) +:+ _) +:+ _).
  destruct (for_loop_invariant
    (λ k s, s = s0 +:+ joined (obj_f_line_at m <$> seq 0 k))
    (λ i strm, strm ← for_loop (writeObj_vertex m (hasUvs m) (hasNormals m) i) 0 3
                         (strm +:+ "f ");
               Some (strm +:+ endl))
    0 (numberOfFaces m) s0) as (s & Hrun & Hs);
    [| |etrans; [exact Hrun|rewrite Hs]].
  - change (s0 = s0 +:+ ""). by rewrite append_nil_r.
  - intros k s Hk ->. change (0 + k) with k. cbn [for_loop].
    destruct (lookup_lt_is_Some_2 (_pointIndices m) k Hk) as [pf Hpf].
    do 3 (rewrite (writeObj_vertex_line m k _ _ pf Hpf (Hp k pf Hpf)
                     (λ H, Huv H k Hk) (λ H, Hn H k Hk)); cbn [mbind option_bind]).
    eexists. split; [done|].
    rewrite seq_S, fmap_app, joined_app.
    change (joined (obj_f_line_at m <$> [0 + k])) with (obj_f_line_at m k +:+ "").
    unfold obj_f_line_at, obj_f_line.
    rewrite Hpf. simpl. by rewrite append_nil_r, !append_assoc.
  - f_equal. unfold s0, obj_lines. by rewrite !joined_app, !append_assoc.
Qed.

End WriteObj.

(** ** Reading the text format *)

Section ReadObj.
Context {D : Type}.
Local Abbreviation Mesh := (TriangleMesh3 D).

(** A 1-based index that fits [size_t] is stored as its predecessor. *)
Lemma to_size_t_pred (a : Z) :
  (1 ≤ a ≤ 2 ^ 64)%Z → to_size_t (a - 1) = Z.to_N (a - 1).
Proof.
  intros Ha. unfold to_size_t, SIZE_MOD. by rewrite Z.mod_small by lia.
Qed.

(** The face callbacks for position-only, position+uv and position+normal
    triangles append the decremented triple of each index kind to the
    sequence of that kind. *)
Lemma callback_v_vt_vn (m : Mesh) (v0 v1 v2 t0 t1 t2 n0 n1 n2 : Z) :
  callback false m (triangular_face_geometric_vertices v0 v1 v2)
  = Some (mkMesh (_points m) (_normals m) (_uvs m)
            (_pointIndices m ++ [minus1 v0 v1 v2]) (_normalIndices m) (_uvIndices m)
            (_areaCache m))
  ∧ callback false m
      (triangular_face_geometric_vertices_texture_vertices (v0, t0) (v1, t1) (v2, t2))
    = Some (mkMesh (_points m) (_normals m) (_uvs m)
              (_pointIndices m ++ [minus1 v0 v1 v2]) (_normalIndices m)
              (_uvIndices m ++ [minus1 t0 t1 t2]) (_areaCache m))
  ∧ callback false m
      (triangular_face_geometric_vertices_vertex_normals (v0, n0) (v1, n1) (v2, n2))
    = Some (mkMesh (_points m) (_normals m) (_uvs m)
              (_pointIndices m ++ [minus1 v0 v1 v2])
              (_normalIndices m ++ [minus1 n0 n1 n2]) (_uvIndices m) (_areaCache m)).
Proof. done. Qed.

(** Quadrilateral and polygonal face events leave the mesh as it is. *)
Lemma callback_ignores_quads_and_polygons (debug : bool) (m : Mesh) (e : ObjEvent) :
  match e with
  | quadrilateral_face_geometric_vertices _ _ _ _
  | quadrilateral_face_geometric_vertices_texture_vertices _ _ _ _
  | quadrilateral_face_geometric_vertices_vertex_normals _ _ _ _
  | quadrilateral_face_geometric_vertices_texture_vertices_vertex_normals _ _ _ _
  | polygonal_face_geometric_vertices_begin _ _ _
  | polygonal_face_geometric_vertices_vertex _
  | polygonal_face_geometric_vertices_end
  | polygonal_face_geometric_vertices_texture_vertices_begin _ _ _
  | polygonal_face_geometric_vertices_texture_vertices_vertex _
  | polygonal_face_geometric_vertices_texture_vertices_end
  | polygonal_face_geometric_vertices_vertex_normals_begin _ _ _
  | polygonal_face_geometric_vertices_vertex_normals_vertex _
  | polygonal_face_geometric_vertices_vertex_normals_end
  | polygonal_face_geometric_vertices_texture_vertices_vertex_normals_begin _ _ _
  | polygonal_face_geometric_vertices_texture_vertices_vertex_normals_vertex _
  | polygonal_face_geometric_vertices_texture_vertices_vertex_normals_end =>
      callback debug m e = Some m
  | _ => True
  end.
Proof. by destruct e. Qed.

(** [readObj] returns what the decoder returned. *)
Lemma readObj_returns_parse_result {istream : Type}
    (parse : istream → list (@ObjEvent D) * bool) (debug : bool) (m m' : Mesh)
    (strm : istream) (ok : bool) :
  readObj parse debug m strm = Some (m', ok) → ok = (parse strm).2.
Proof.
  unfold readObj. destruct (parse strm) as [events b]. simpl.
  destruct (callbacks debug m events); simpl; congruence.
Qed.

(** C9, what the code does.  On a position+uv+normal triangle, whose index
    tuples are (v, vt, vn), the callback appends the decremented position
    indices to the position faces, but the decremented texture indices to
    the normal faces and the decremented normal indices to the uv faces. *)
Theorem readObj_vtn_swaps_uv_and_normal (m : Mesh) (v0 vt0 vn0 v1 vt1 vn1 v2 vt2 vn2 : Z) :
  callback false m
    (triangular_face_geometric_vertices_texture_vertices_vertex_normals
       (v0, vt0, vn0) (v1, vt1, vn1) (v2, vt2, vn2))
  = Some (mkMesh (_points m) (_normals m) (_uvs m)
            (_pointIndices m ++ [minus1 v0 v1 v2])
            (_normalIndices m ++ [minus1 vt0 vt1 vt2])
            (_uvIndices m ++ [minus1 vn0 vn1 vn2])
            (_areaCache m)).
Proof. done. Qed.

End ReadObj.

(** ** The vertex-only triangle *)

Section VertexPrimFacts.
Context {D : Type} `{!Float64 D}.

Lemma vertexPrim_faceNormal_points (t t' : Triangle3 D) :
  points t = points t' →
  @tri_faceNormal D vertexPrim t = @tri_faceNormal D vertexPrim t'.
Proof. intros H. simpl. unfold edgeCross. by rewrite H. Qed.

Lemma vertexPrim_miss_sentinel `{!FltOrder D} (tri : Triangle3 D) (ray : Ray3D D) :
  @tri_intersects D vertexPrim tri ray = false →
  flt (@sri_t D vertexPrim (@tri_getClosestIntersection D vertexPrim tri ray)) DBL_MAX
  = false.
Proof. simpl. intros ->. simpl. apply flt_irrefl. Qed.

End VertexPrimFacts.

(** * Further properties *)

(** ** More on loops *)

Lemma for_loop_mono {St} (f g : nat → St → option St) start count s r :
  for_loop f start count s = Some r →
  (∀ i s s', start ≤ i < start + count → f i s = Some s' → g i s = Some s') →
  for_loop g start count s = Some r.
Proof.
  revert start s. induction count as [|c IH]; intros start s Hf Hfg; [done|].
  simpl in *. destruct (f start s) as [s'|] eqn:Hs; [|done].
  rewrite (Hfg start s s' ltac:(lia) Hs). simpl in *.
  apply IH; [done|]. intros i t t' Hi. apply Hfg. lia.
Qed.

Lemma for_loop_bodies {St} (f : nat → St → option St) start count s r :
  for_loop f start count s = Some r →
  ∀ k, k < count → ∃ t t', f (start + k) t = Some t'.
Proof.
  revert start s. induction count as [|c IH]; intros start s Hrun k Hk; [lia|].
  simpl in Hrun. destruct (f start s) as [s'|] eqn:Hs; [|done]. simpl in Hrun.
  destruct k as [|k].
  - exists s, s'. by rewrite Nat.add_0_r.
  - destruct (IH (S start) s' Hrun k ltac:(lia)) as (t & t' & Ht).
    exists t, t'. by replace (start + S k) with (S start + k) by lia.
Qed.

Lemma for_loop_fails {St} (body : nat → St → option St) start count s i :
  start ≤ i < start + count → (∀ t, body i t = None) →
  for_loop body start count s = None.
Proof.
  intros Hi Hbody.
  destruct (for_loop body start count s) as [r|] eqn:Hrun; [|done].
  destruct (for_loop_bodies _ _ _ _ _ Hrun (i - start) ltac:(lia)) as (t & t' & Ht).
  replace (start + (i - start)) with i in Ht by lia. by rewrite Hbody in Ht.
Qed.

(** ** The remaining queries *)

Section MoreQueries.
Context {D : Type} `{!Float64 D} `{!Triangle3Prim D}.
Local Abbreviation Mesh := (TriangleMesh3 D).

Lemma intersects_from_true (m : Mesh) (ray : Ray3D D) count : ∀ start,
  intersects_from m ray start count = Some true ↔
  ∃ i tri, start ≤ i < start + count ∧ triangle m i = Some tri
    ∧ tri_intersects tri ray = true
    ∧ ∀ j, start ≤ j < i →
        ∃ tj, triangle m j = Some tj ∧ tri_intersects tj ray = false.
Proof.
  induction count as [|c IH]; intros start; simpl.
  - split; [done|]. intros (i & _ & Hi & _). lia.
  - destruct (triangle m start) as [tri|] eqn:Htri; simpl.
    + destruct (tri_intersects tri ray) eqn:Hhit.
      * split; [intros _|done]. exists start, tri. repeat split; [lia..|done|done|].
        intros j Hj. lia.
      * rewrite IH. split.
        -- intros (i & ti & Hi & Hti & Hhi & Hbefore). exists i, ti.
           split; [lia|]. do 2 (split; [done|]). intros j Hj.
           destruct (decide (j = start)) as [->|Hne]; [by exists tri|].
           apply Hbefore. lia.
        -- intros (i & ti & Hi & Hti & Hhi & Hbefore).
           assert (i ≠ start) by (intros ->; congruence).
           exists i, ti. split; [lia|]. do 2 (split; [done|]).
           intros j Hj. apply Hbefore. lia.
    + split; [done|]. intros (i & ti & Hi & Hti & Hhi & Hbefore).
      destruct (decide (i = start)) as [->|Hne]; [congruence|].
      destruct (Hbefore start ltac:(lia)) as (tj & Htj & _). congruence.
Qed.

Lemma intersects_from_false (m : Mesh) (ray : Ray3D D) count : ∀ start,
  intersects_from m ray start count = Some false ↔
  ∀ j, start ≤ j < start + count →
    ∃ tj, triangle m j = Some tj ∧ tri_intersects tj ray = false.
Proof.
  induction count as [|c IH]; intros start; simpl.
  - split; [intros _ j Hj; lia|done].
  - destruct (triangle m start) as [tri|] eqn:Htri; simpl.
    + destruct (tri_intersects tri ray) eqn:Hhit.
      * split; [done|]. intros Hall.
        destruct (Hall start ltac:(lia)) as (tj & Htj & Hno). congruence.
      * rewrite IH. split.
        -- intros Hall j Hj.
           destruct (decide (j = start)) as [->|Hne]; [by exists tri|].
           apply Hall. lia.
        -- intros Hall j Hj. apply Hall. lia.
    + split; [done|]. intros Hall.
      destruct (Hall start ltac:(lia)) as (tj & Htj & _). congruence.
Qed.

(** [intersects] answers [true] exactly when some face [i] is hit by the
    ray and every face before it can be materialized and is missed; the
    faces after [i] are not looked at.  It answers [false] exactly when every
    face can be materialized and is missed. *)
Theorem intersects_first_hit (m : Mesh) (ray : Ray3D D) :
  (intersects m ray = Some true ↔
   ∃ i tri, i < numberOfFaces m ∧ triangle m i = Some tri
     ∧ tri_intersects tri ray = true
     ∧ ∀ j, j < i → ∃ tj, triangle m j = Some tj ∧ tri_intersects tj ray = false)
  ∧ (intersects m ray = Some false ↔
     ∀ j, j < numberOfFaces m →
       ∃ tj, triangle m j = Some tj ∧ tri_intersects tj ray = false).
Proof.
  unfold intersects. split.
  - rewrite intersects_from_true. split.
    + intros (i & tri & Hi & Htri & Hhit & Hbefore). exists i, tri.
      split; [lia|]. do 2 (split; [done|]). intros j Hj. apply Hbefore. lia.
    + intros (i & tri & Hi & Htri & Hhit & Hbefore). exists i, tri.
      split; [lia|]. do 2 (split; [done|]). intros j Hj. apply Hbefore. lia.
  - rewrite intersects_from_false. split.
    + intros Hall j Hj. apply Hall. lia.
    + intros Hall j Hj. apply Hall. lia.
Qed.

Lemma closestDistance_fold (m : Mesh) (p : Vector3D D) tris :
  length tris = numberOfFaces m →
  (∀ i, triangle m i = tris !! i) →
  closestDistance m p
  = Some (foldl (keep_less id) DBL_MAX ((λ tri, tri_closestDistance tri p) <$> tris)).
Proof.
  intros Hlen Htris. unfold closestDistance. rewrite <- Hlen.
  rewrite <- (length_fmap (λ tri, tri_closestDistance tri p)).
  erewrite for_loop_ext;
    [rewrite (for_loop_foldl (λ i, (λ tri, tri_closestDistance tri p) <$> triangle m i));
     [reflexivity|]|].
  - intros k _. simpl. by rewrite Htris, list_lookup_fmap.
  - intros i d _. cbv beta. by destruct (triangle m i) as [tri|].
Qed.

(** [closestDistance], when every face can be materialized, returns a
    distance [d] that no face's own closest distance is below; [d] is either
    [DBL_MAX], when no face's distance is below [DBL_MAX], or the closest
    distance of some face. *)
Theorem closestDistance_minimum `{!FltOrder D} (m : Mesh) (p : Vector3D D) :
  (∀ i, i < numberOfFaces m → is_Some (triangle m i)) →
  ∃ d, closestDistance m p = Some d
    ∧ (∀ i tri, triangle m i = Some tri → flt (tri_closestDistance tri p) d = false)
    ∧ ((d = DBL_MAX
        ∧ ∀ i tri, triangle m i = Some tri →
            flt (tri_closestDistance tri p) DBL_MAX = false)
       ∨ (∃ i tri, triangle m i = Some tri ∧ d = tri_closestDistance tri p
            ∧ flt d DBL_MAX = true)).
Proof.
  intros Hall. destruct (faces_exist m Hall) as (tris & Hlen & Htris).
  rewrite (closestDistance_fold m p tris Hlen Htris). eexists. split; [done|].
  assert (Hin : ∀ i tri, triangle m i = Some tri →
            tri_closestDistance tri p ∈ (λ tri, tri_closestDistance tri p) <$> tris).
  { intros i tri Hi. rewrite Htris in Hi. apply list_elem_of_fmap.
    exists tri. split; [done|]. by eapply list_elem_of_lookup_2. }
  destruct (scan_first_minimum id ((λ tri, tri_closestDistance tri p) <$> tris) DBL_MAX)
    as [[-> Hnone]|(i & Hi & Hlt & Hmin & _)].
  - split; [|left; split; [done|]]; intros i tri Hi; apply (Hnone _ (Hin i tri Hi)).
  - split; [intros j tj Hj; apply (Hmin _ (Hin j tj Hj))|]. right.
    rewrite list_lookup_fmap in Hi.
    destruct (tris !! i) as [tri|] eqn:Htri; [|done]. simpl in Hi.
    injection Hi as Hi. exists i, tri. split; [by rewrite Htris|]. by split.
Qed.

(** The candidate [actualClosestNormal] keeps per face. *)
Lemma actualClosestNormal_fold (m : Mesh) (p : Vector3D D) tris :
  length tris = numberOfFaces m →
  (∀ i, triangle m i = tris !! i) →
  actualClosestNormal m p
  = Some (foldl (keep_less snd)
            (mkVec3 DBL_MAX DBL_MAX DBL_MAX, mkVec3 f1 f0 f0, DBL_MAX)
            ((λ tri, (tri_closestPoint tri p, tri_closestNormal tri p,
                      distSquaredTo p tri)) <$> tris)).1.2.
Proof.
  intros Hlen Htris. unfold actualClosestNormal. rewrite <- Hlen.
  set (cand := λ tri : Triangle3 D,
         (tri_closestPoint tri p, tri_closestNormal tri p, distSquaredTo p tri)).
  rewrite <- (length_fmap cand).
  erewrite for_loop_ext; [rewrite (for_loop_foldl (λ i, cand <$> triangle m i)); [done|]|].
  - intros k _. simpl. by rewrite Htris, list_lookup_fmap.
  - intros i [[pt nrm] d] _. destruct (triangle m i) as [tri|]; [|done]. simpl.
    unfold keep_less, cand, distSquaredTo. simpl.
    by destruct (flt _ d).
Qed.

Lemma keep_less_project {A B : Type} (key : B → D) (proj : A → B) (cs : list A) (init : A) :
  foldl (keep_less key) (proj init) (proj <$> cs)
  = proj (foldl (keep_less (key ∘ proj)) init cs).
Proof.
  revert init. induction cs as [|c cs IH]; intros init; [done|]. simpl.
  rewrite <- IH. f_equal. unfold keep_less. simpl. by destruct (flt _ _).
Qed.

(** [actualClosestNormal] and [closestPoint] pick the same face: when
    every face can be materialized, either no face's squared distance is
    below [DBL_MAX] and they return [(1, 0, 0)] and the initial point, or
    there is a face [i], the first of those with the smallest squared
    distance, whose closest normal and closest point they return. *)
Theorem actualClosestNormal_of_closest_face `{!FltOrder D} (m : Mesh) (p : Vector3D D) :
  (∀ i, i < numberOfFaces m → is_Some (triangle m i)) →
  (actualClosestNormal m p = Some (mkVec3 f1 f0 f0)
   ∧ closestPoint m p = Some (mkVec3 DBL_MAX DBL_MAX DBL_MAX)
   ∧ ∀ i tri, triangle m i = Some tri → flt (distSquaredTo p tri) DBL_MAX = false)
  ∨ (∃ i tri, triangle m i = Some tri
       ∧ actualClosestNormal m p = Some (tri_closestNormal tri p)
       ∧ closestPoint m p = Some (tri_closestPoint tri p)
       ∧ (∀ j tj, triangle m j = Some tj →
            flt (distSquaredTo p tj) (distSquaredTo p tri) = false)
       ∧ (∀ j tj, j < i → triangle m j = Some tj →
            distSquaredTo p tj ≠ distSquaredTo p tri)).
Proof.
  intros Hall. destruct (faces_exist m Hall) as (tris & Hlen & Htris).
  rewrite (actualClosestNormal_fold m p tris Hlen Htris).
  rewrite (closestPoint_fold m p tris Hlen Htris).
  set (cand := λ tri : Triangle3 D,
         (tri_closestPoint tri p, tri_closestNormal tri p, distSquaredTo p tri)).
  set (init := (mkVec3 DBL_MAX DBL_MAX DBL_MAX, mkVec3 f1 f0 f0, DBL_MAX)).
  set (drop := λ c : Vector3D D * Vector3D D * D, (c.1.1, c.2)).
  assert (Hproj : foldl (keep_less snd) (mkVec3 DBL_MAX DBL_MAX DBL_MAX, DBL_MAX)
                    (closestCandidate p <$> tris)
                  = drop (foldl (keep_less snd) init (cand <$> tris))).
  { change (mkVec3 DBL_MAX DBL_MAX DBL_MAX, DBL_MAX) with (drop init).
    replace (closestCandidate p <$> tris) with (drop <$> (cand <$> tris))
      by (rewrite <- list_fmap_compose; done).
    apply (keep_less_project snd drop). }
  rewrite Hproj.
  assert (Hin : ∀ i tri, triangle m i = Some tri → cand tri ∈ cand <$> tris).
  { intros i tri Hi. rewrite Htris in Hi. apply list_elem_of_fmap.
    exists tri. split; [done|]. by eapply list_elem_of_lookup_2. }
  destruct (scan_first_minimum snd (cand <$> tris) init)
    as [[-> Hnone]|(i & Hi & Hlt & Hmin & Hfirst)].
  - left. split; [done|]. split; [done|].
    intros i tri Hi. apply (Hnone _ (Hin i tri Hi)).
  - right. rewrite list_lookup_fmap in Hi.
    destruct (tris !! i) as [tri|] eqn:Htri; [|done]. simpl in Hi.
    injection Hi as Hi. rewrite <- Hi in *. simpl in *.
    exists i, tri. split; [by rewrite Htris|]. split; [done|]. split; [done|]. split.
    + intros j tj Hj. apply (Hmin _ (Hin j tj Hj)).
    + intros j tj Hji Hj. rewrite Htris in Hj.
      apply (Hfirst j (cand tj) Hji). by rewrite list_lookup_fmap, Hj.
Qed.

End MoreQueries.

(** ** Bounding box *)

Section BoundingBoxes.
Context {D : Type} `{!Float64 D} `{!Triangle3Prim D} `{!BoundingBox3Prim D}.
Local Abbreviation Mesh := (TriangleMesh3 D).

(** [boundingBox], on a mesh whose position indices are in range, returns
    a box that contains the position of every vertex that some face names. *)
Theorem boundingBox_contains_referenced
    (box_contains : BoundingBox3D → Vector3D D → Prop) `{!BoxContains D box_contains}
    (m : Mesh) :
  (∀ i f, _pointIndices m !! i = Some f → face_in_range (length (_points m)) f) →
  ∃ b, boundingBox m = Some b
    ∧ ∀ i f v p, _pointIndices m !! i = Some f → incident f v →
        _points m !! v = Some p → box_contains b p.
Proof.
  intros Hrange. unfold boundingBox.
  destruct (for_loop_invariant
    (λ k b, ∀ i f v p, i < k → _pointIndices m !! i = Some f → incident f v →
              _points m !! v = Some p → box_contains b p)
    (λ i box, face ← _pointIndices m !! i;
              p0 ← at_ (_points m) (idx3 face 0);
              p1 ← at_ (_points m) (idx3 face 1);
              p2 ← at_ (_points m) (idx3 face 2);
              Some (box_merge (box_merge (box_merge box p0) p1) p2))
    0 (length (_pointIndices m)) box_default) as (b & Hrun & Hb).
  - intros i f v p Hi. lia.
  - intros k b Hk Hb. simpl.
    destruct (lookup_lt_is_Some_2 (_pointIndices m) k Hk) as [f Hf].
    rewrite Hf. simpl. destruct (Hrange k f Hf) as (Hx & Hy & Hz). unfold at_.
    destruct (lookup_lt_is_Some_2 (_points m) _ Hx) as [p0 H0].
    destruct (lookup_lt_is_Some_2 (_points m) _ Hy) as [p1 H1].
    destruct (lookup_lt_is_Some_2 (_points m) _ Hz) as [p2 H2].
    rewrite H0, H1, H2. simpl. eexists. split; [done|].
    intros i f' v p Hi Hf' Hinc Hp.
    destruct (decide (i = k)) as [->|Hne].
    + rewrite Hf in Hf'. injection Hf' as <-.
      destruct Hinc as [<-|[<-|<-]].
      * rewrite H0 in Hp. injection Hp as <-.
        apply box_merge_old, box_merge_old, box_merge_new.
      * rewrite H1 in Hp. injection Hp as <-. apply box_merge_old, box_merge_new.
      * rewrite H2 in Hp. injection Hp as <-. apply box_merge_new.
    + do 3 apply box_merge_old. apply (Hb i f' v p); [lia|done..].
  - exists b. split; [exact Hrun|].
    intros i f v p Hf Hinc Hp.
    apply (Hb i f v p); [by eapply lookup_lt_Some|done..].
Qed.

(** [boundingBox] looks at the positions that faces name and at nothing
    else: a mesh with the same position faces and the same positions at the
    vertices those faces name has the same box -- whatever its other
    positions, its normals, its uvs and its area cache. *)
Theorem boundingBox_ignores_unreferenced (m m' : Mesh) :
  _pointIndices m' = _pointIndices m →
  (∀ i f v, _pointIndices m !! i = Some f → incident f v →
     _points m' !! v = _points m !! v) →
  boundingBox m' = boundingBox m.
Proof.
  intros Hfaces Hsame. unfold boundingBox. rewrite Hfaces.
  apply for_loop_ext. intros i box Hi. simpl.
  destruct (_pointIndices m !! i) as [f|] eqn:Hf; [|done]. simpl. unfold at_.
  rewrite !(Hsame i f _ Hf); [done|unfold incident; simpl; tauto..].
Qed.

End BoundingBoxes.

Section CornerBoxLaws.
Context {D : Type} `{!Float64 D} `{!FltOrder D}.

Lemma std_min_le_r (a b : D) : flt b (std_min a b) = false.
Proof. unfold std_min. destruct (flt b a) eqn:E; [apply flt_irrefl|done]. Qed.

Lemma std_max_ge_r (a b : D) : flt (std_max a b) b = false.
Proof. unfold std_max. destruct (flt a b) eqn:E; [apply flt_irrefl|done]. Qed.

Lemma std_min_keeps (a b c : D) : flt c a = false → flt c (std_min a b) = false.
Proof.
  intros Hca. unfold std_min. destruct (flt b a) eqn:E; [|done].
  destruct (flt c b) eqn:Hcb; [|done]. by rewrite (flt_trans c b a Hcb E) in Hca.
Qed.

Lemma std_max_keeps (a b c : D) : flt a c = false → flt (std_max a b) c = false.
Proof.
  intros Hac. unfold std_max. destruct (flt a b) eqn:E; [|done].
  destruct (flt b c) eqn:Hbc; [|done]. by rewrite (flt_trans a b c E Hbc) in Hac.
Qed.

#[export] Instance cornerBox_contains : @BoxContains D cornerBox inside.
Proof.
  split.
  - intros b p. unfold inside. simpl.
    repeat split; first [apply std_min_le_r|apply std_max_ge_r].
  - intros b p q (H1 & H2 & H3 & H4 & H5 & H6). unfold inside. simpl.
    repeat split; first [by apply std_min_keeps|by apply std_max_keeps].
Qed.

End CornerBoxLaws.

(** ** The indexed store *)

Section IndexedStore.
Context {D : Type} `{!Float64 D} `{!Triangle3Prim D}.
Local Abbreviation Mesh := (TriangleMesh3 D).

Lemma gather_is_Some {A} (a : list A) (f : Point3UI) :
  is_Some (gather a f) ↔ face_in_range (length a) f.
Proof.
  split; [|apply gather_Some].
  unfold gather, at_, face_in_range. intros [r Hr].
  destruct (a !! N.to_nat (x f)) eqn:Hx; [|done].
  destruct (a !! N.to_nat (y f)) eqn:Hy; [|done].
  destruct (a !! N.to_nat (z f)) eqn:Hz; [|done].
  apply lookup_lt_Some in Hx, Hy, Hz. done.
Qed.

(** [triangle(i)] stays within the arrays exactly when face [i] exists,
    its position indices are in range, and -- when the mesh holds any uv
    (any normal) at all -- entry [i] of the uv (normal) faces exists and is in
    range.  Whether the uv and normal faces are read is decided by the
    attribute arrays, not by the face-index arrays: a mesh that holds normals
    but no normal triple for face [i] cannot be looked at through
    [triangle(i)]. *)
Theorem triangle_in_range_iff (m : Mesh) (i : nat) :
  is_Some (triangle m i) ↔
  ∃ pf, _pointIndices m !! i = Some pf
    ∧ face_in_range (length (_points m)) pf
    ∧ (hasUvs m = true →
         ∃ tf, _uvIndices m !! i = Some tf ∧ face_in_range (length (_uvs m)) tf)
    ∧ (hasNormals m = true →
         ∃ nf, _normalIndices m !! i = Some nf
               ∧ face_in_range (length (_normals m)) nf).
Proof.
  split.
  - intros [tri Htri]. unfold triangle in Htri.
    destruct (_pointIndices m !! i) as [pf|]; [|done]. simpl in Htri.
    destruct (gather (_points m) pf) as [pts|] eqn:Hpts; [|done]. simpl in Htri.
    exists pf. split; [done|]. split; [by apply gather_is_Some; eexists|].
    destruct (hasUvs m).
    + destruct (_uvIndices m !! i) as [tf|]; [|done]. simpl in Htri.
      destruct (gather (_uvs m) tf) as [tuv|] eqn:Htuv; [|done]. simpl in Htri.
      split; [intros _; exists tf; split; [done|by apply gather_is_Some; eexists]|].
      destruct (hasNormals m); [|done].
      destruct (_normalIndices m !! i) as [nf|]; [|done]. simpl in Htri.
      destruct (gather (_normals m) nf) as [nrm|] eqn:Hnrm; [|done].
      intros _. exists nf. split; [done|by apply gather_is_Some; eexists].
    + split; [done|]. simpl in Htri.
      destruct (hasNormals m); [|done].
      destruct (_normalIndices m !! i) as [nf|]; [|done]. simpl in Htri.
      destruct (gather (_normals m) nf) as [nrm|] eqn:Hnrm; [|done].
      intros _. exists nf. split; [done|by apply gather_is_Some; eexists].
  - intros (pf & Hpf & Hrange & Huv & Hn).
    destruct (gather_Some _ _ Hrange) as [pts Hpts].
    destruct (triangle_points m i pf pts Hpf Hpts Huv Hn) as (tri & -> & _).
    by eexists.
Qed.

(** Appending an attribute or a face gives it the next index and leaves
    every cell that existed before where it was. *)
Theorem append_then_lookup (m : Mesh) (p n : Vector3D D) (t : Vector2D D)
    (f : Point3UI) :
  (point (addPoint m p) (N.of_nat (numberOfPoints m)) = Some p
   ∧ ∀ i q, point m i = Some q → point (addPoint m p) i = Some q)
  ∧ (normal (addNormal m n) (N.of_nat (numberOfNormals m)) = Some n
     ∧ ∀ i q, normal m i = Some q → normal (addNormal m n) i = Some q)
  ∧ (uv (addUv m t) (N.of_nat (numberOfUvs m)) = Some t
     ∧ ∀ i q, uv m i = Some q → uv (addUv m t) i = Some q)
  ∧ (pointIndex (addPointFace m f) (N.of_nat (numberOfFaces m)) = Some f
     ∧ ∀ i g, pointIndex m i = Some g → pointIndex (addPointFace m f) i = Some g)
  ∧ (∀ g h m', addPointNormalUvFace false m f g h = Some m' →
       pointIndex m' (N.of_nat (numberOfFaces m)) = Some f
       ∧ normalIndex m' (N.of_nat (length (_normalIndices m))) = Some g
       ∧ uvIndex m' (N.of_nat (length (_uvIndices m))) = Some h).
Proof.
  unfold point, normal, uv, pointIndex, normalIndex, uvIndex, at_, numberOfPoints,
    numberOfNormals, numberOfUvs, numberOfFaces. simpl. rewrite !Nat2N.id.
  do 4 (split; [split; [by apply list_lookup_middle
                       |intros i q Hq; by apply lookup_app_l_Some]|]).
  intros g h m' Hm'. injection Hm' as <-. simpl.
  repeat split; by apply list_lookup_middle.
Qed.

End IndexedStore.

Section AddTriangles.
Context {D : Type} `{!Float64 D} `{!Triangle3Prim D}.
Local Abbreviation Mesh := (TriangleMesh3 D).

Lemma gather_app_fresh {A} (l : list A) (a b c : A) :
  gather (l ++ [a; b; c])
    (mkVec3 (N.of_nat (length l)) (N.of_nat (length l) + 1)%N
            (N.of_nat (length l) + 2)%N) = Some (a, b, c).
Proof.
  unfold gather, at_. simpl.
  replace (N.to_nat (N.of_nat (length l) + 1)) with (length l + 1) by lia.
  replace (N.to_nat (N.of_nat (length l) + 2)) with (length l + 2) by lia.
  rewrite Nat2N.id.
  rewrite !lookup_app_r by lia.
  replace (length l - length l) with 0 by lia.
  replace (length l + 1 - length l) with 1 by lia.
  replace (length l + 2 - length l) with 2 by lia. done.
Qed.

Lemma gather_app_old {A} (l k : list A) (f : Point3UI) r :
  gather l f = Some r → gather (l ++ k) f = Some r.
Proof.
  unfold gather, at_. intros Hr.
  destruct (l !! N.to_nat (x f)) as [a0|] eqn:Hx; [|done].
  destruct (l !! N.to_nat (y f)) as [a1|] eqn:Hy; [|done].
  destruct (l !! N.to_nat (z f)) as [a2|] eqn:Hz; [|done].
  by rewrite (lookup_app_l_Some _ _ _ _ Hx), (lookup_app_l_Some _ _ _ _ Hy),
    (lookup_app_l_Some _ _ _ _ Hz).
Qed.

Lemma addTriangle_has_attributes (m : Mesh) (tri : Triangle3 D) :
  hasNormals (addTriangle m tri) = true ∧ hasUvs (addTriangle m tri) = true.
Proof.
  unfold hasNormals, hasUvs, addTriangle.
  destruct (points tri) as [[p0 p1] p2], (normals tri) as [[n0 n1] n2],
    (uvs tri) as [[t0 t1] t2]. simpl.
  split; apply bool_decide_eq_true; rewrite length_app; simpl; lia.
Qed.

Lemma addTriangle_lengths (m : Mesh) (tri : Triangle3 D) :
  length (_normalIndices (addTriangle m tri)) = S (length (_normalIndices m))
  ∧ length (_uvIndices (addTriangle m tri)) = S (length (_uvIndices m))
  ∧ numberOfFaces (addTriangle m tri) = S (numberOfFaces m).
Proof.
  unfold numberOfFaces, addTriangle.
  destruct (points tri) as [[p0 p1] p2], (normals tri) as [[n0 n1] n2],
    (uvs tri) as [[t0 t1] t2]. simpl. rewrite !length_app. simpl. lia.
Qed.

Lemma addTriangle_new_face (m : Mesh) (tri : Triangle3 D) :
  length (_normalIndices m) = numberOfFaces m →
  length (_uvIndices m) = numberOfFaces m →
  triangle (addTriangle m tri) (numberOfFaces m) = Some tri.
Proof.
  intros HnI HtI. unfold triangle.
  destruct (addTriangle_has_attributes m tri) as [-> ->].
  unfold addTriangle, numberOfFaces in *.
  destruct tri as [[[p0 p1] p2] [[n0 n1] n2] [[t0 t1] t2]]. simpl.
  rewrite list_lookup_middle by done. simpl. rewrite gather_app_fresh. simpl.
  rewrite list_lookup_middle by done. simpl. rewrite gather_app_fresh. simpl.
  rewrite list_lookup_middle by done. simpl. by rewrite gather_app_fresh.
Qed.

Lemma addTriangle_old_face (m : Mesh) (tri : Triangle3 D) (i : nat) t :
  hasNormals m = true → hasUvs m = true →
  triangle m i = Some t → triangle (addTriangle m tri) i = Some t.
Proof.
  intros HN HU Ht. unfold triangle in *.
  destruct (addTriangle_has_attributes m tri) as [-> ->]. rewrite HN, HU in Ht.
  unfold addTriangle.
  destruct (points tri) as [[p0 p1] p2], (normals tri) as [[n0 n1] n2],
    (uvs tri) as [[t0 t1] t2]. simpl.
  destruct (_pointIndices m !! i) as [pf|] eqn:Hpf; [|done]. simpl in Ht.
  rewrite (lookup_app_l_Some _ _ _ _ Hpf). simpl.
  destruct (gather (_points m) pf) as [pts|] eqn:Hpts; [|done]. simpl in Ht.
  rewrite (gather_app_old _ _ _ _ Hpts). simpl.
  destruct (_uvIndices m !! i) as [tf|] eqn:Htf; [|done]. simpl in Ht.
  rewrite (lookup_app_l_Some _ _ _ _ Htf). simpl.
  destruct (gather (_uvs m) tf) as [tuv|] eqn:Htuv; [|done]. simpl in Ht.
  rewrite (gather_app_old _ _ _ _ Htuv). simpl.
  destruct (_normalIndices m !! i) as [nf|] eqn:Hnf; [|done]. simpl in Ht.
  rewrite (lookup_app_l_Some _ _ _ _ Hnf). simpl.
  destruct (gather (_normals m) nf) as [nrm|] eqn:Hnrm; [|done]. simpl in Ht.
  by rewrite (gather_app_old _ _ _ _ Hnrm).
Qed.

(** [addTriangle] and [triangle] round-trip: on a mesh whose normal and uv
    faces are as many as its position faces, the face that [addTriangle]
    appends reads back as the very triangle that was added; and on a mesh
    that already holds normals and uvs, every face that could be read before
    reads back unchanged. *)
Theorem addTriangle_then_triangle (m : Mesh) (tri : Triangle3 D) :
  length (_normalIndices m) = numberOfFaces m →
  length (_uvIndices m) = numberOfFaces m →
  numberOfFaces (addTriangle m tri) = numberOfFaces m + 1
  ∧ triangle (addTriangle m tri) (numberOfFaces m) = Some tri
  ∧ (hasNormals m = true → hasUvs m = true →
     ∀ i t, triangle m i = Some t → triangle (addTriangle m tri) i = Some t).
Proof.
  intros HnI HtI. split; [|split].
  - destruct (addTriangle_lengths m tri) as (_ & _ & ->). lia.
  - by apply addTriangle_new_face.
  - intros HN HU i t. by apply addTriangle_old_face.
Qed.

(** [addTriangle] does not mix with position-only faces: on a mesh that
    has faces but no normal triples, the face that [addTriangle] appends cannot
    be read back -- [triangle] looks for its normal triple at the face's
    index, where there is none. *)
Theorem addTriangle_after_position_faces (m : Mesh) (tri : Triangle3 D) :
  0 < numberOfFaces m →
  _normalIndices m = [] →
  triangle (addTriangle m tri) (numberOfFaces m) = None.
Proof.
  intros Hn HnI. unfold triangle.
  destruct (addTriangle_has_attributes m tri) as [-> ->].
  unfold addTriangle, numberOfFaces in *.
  destruct (points tri) as [[p0 p1] p2], (normals tri) as [[n0 n1] n2],
    (uvs tri) as [[t0 t1] t2]. simpl. rewrite HnI. simpl.
  rewrite (list_lookup_middle (_pointIndices m) [] _ _ eq_refl). simpl.
  rewrite gather_app_fresh. simpl.
  rewrite (lookup_ge_None_2 [_]) by (simpl; lia).
  destruct (_ !! _ ≫= _); reflexivity.
Qed.

Lemma triangle_out_of_faces (m : Mesh) (i : nat) :
  numberOfFaces m ≤ i → triangle m i = None.
Proof.
  intros Hi. unfold triangle, numberOfFaces in *.
  by rewrite (lookup_ge_None_2 (_pointIndices m)) by lia.
Qed.

(** Surface area and volume grow by the new triangle's share: on a mesh
    that holds a normal and a uv triple for every face (and holds normals and
    uvs, unless it has no face), [area] after [addTriangle] is the area before
    plus the triangle's area, and [volume] is the volume before plus the sixth
    of the triple product of the triangle's positions. *)
Theorem addTriangle_area_volume `{!Float64Six D} (m : Mesh) (tri : Triangle3 D) :
  length (_normalIndices m) = numberOfFaces m →
  length (_uvIndices m) = numberOfFaces m →
  (0 < numberOfFaces m → hasNormals m = true ∧ hasUvs m = true) →
  (∀ a, area m = Some a → area (addTriangle m tri) = Some (fadd a (tri_area tri)))
  ∧ (∀ vol, volume m = Some vol →
       volume (addTriangle m tri)
       = Some (fadd vol (fdiv (dot (points tri).1.1
                                   (cross (points tri).1.2 (points tri).2)) f6))).
Proof.
  intros HnI HtI Hflags.
  pose proof (addTriangle_new_face m tri HnI HtI) as Hnew.
  assert (Hfaces : numberOfFaces (addTriangle m tri) = numberOfFaces m + 1).
  { destruct (addTriangle_lengths m tri) as (_ & _ & ->). lia. }
  assert (Hkeep : ∀ i t, i < numberOfFaces m → triangle m i = Some t →
            triangle (addTriangle m tri) i = Some t).
  { intros i t Hi. destruct Hflags as [HN HU]; [lia|]. by apply addTriangle_old_face. }
  split.
  - intros a Ha. unfold area in *. rewrite Hfaces, Nat.add_1_r, for_loop_snoc.
    rewrite (for_loop_mono _ _ _ _ _ _ Ha); [simpl; by rewrite Hnew|].
    intros i s s' Hi Hs. destruct (triangle m i) as [t|] eqn:Ht; [|done].
    by rewrite (Hkeep i t ltac:(lia) Ht).
  - intros vol Hvol. unfold volume in *. rewrite Hfaces, Nat.add_1_r, for_loop_snoc.
    rewrite (for_loop_mono _ _ _ _ _ _ Hvol);
      [simpl; rewrite Hnew; simpl; by destruct (points tri) as [[p0 p1] p2]|].
    intros i s s' Hi Hs. destruct (triangle m i) as [t|] eqn:Ht; [|done].
    by rewrite (Hkeep i t ltac:(lia) Ht).
Qed.

End AddTriangles.

(** ** The area cache *)

Section AreaCache.
Context {D : Type} `{!Float64 D} `{!Triangle3Prim D}.
Local Abbreviation Mesh := (TriangleMesh3 D).

Lemma areaCacheBody_faces (m m1 : Mesh) :
  areaCacheBody m = Some m1 →
  ∀ i, i < numberOfFaces m → is_Some (triangle m i).
Proof.
  unfold areaCacheBody. intros Hrun i Hi.
  destruct (store _ 0 f0) as [c1|] eqn:Hc1; [|done]. simpl in Hrun.
  assert (Hlen : length c1 = numberOfFaces m + 1).
  { unfold store in Hc1. destruct (decide _); [|done]. injection Hc1 as <-.
    by rewrite length_insert, length_resize. }
  rewrite Hlen in Hrun. replace (numberOfFaces m + 1 - 1) with (numberOfFaces m) in Hrun by lia.
  destruct (for_loop _ 1 (numberOfFaces m) c1) as [c2|] eqn:Hc2; [|done].
  destruct (for_loop_bodies _ _ _ _ _ Hc2 i Hi) as (t & t' & Hbody).
  replace (1 + i - 1) with i in Hbody by lia.
  destruct (triangle m i); [by eexists|done].
Qed.

Lemma areaCacheBody_of_faces (m m1 : Mesh) :
  areaCacheBody m = Some m1 →
  ∃ tris, faces_are m tris
    ∧ m1 = set_areaCache m (normalizedTable (rawAreaTable tris) (totalArea tris)).
Proof.
  intros Hrun.
  destruct (faces_exist m (areaCacheBody_faces m m1 Hrun)) as (tris & Hlen & Htris).
  exists tris. split; [done|].
  rewrite (areaCacheBody_table m tris) in Hrun by done. by injection Hrun as <-.
Qed.

(** [computeAreaCache] overwrites: when it succeeds, its result does not
    depend on what the cache held before, running it again changes nothing,
    the cache it leaves has one entry more than the mesh has faces, and
    nothing but the cache is changed. *)
Theorem computeAreaCache_overwrites (m m1 : Mesh) :
  computeAreaCache m = Some m1 →
  (∀ c, computeAreaCache (set_areaCache m c) = Some m1)
  ∧ computeAreaCache m1 = Some m1
  ∧ computeAreaCache (clearAreaCache m) = Some m1
  ∧ length (_areaCache m1) = numberOfFaces m + 1
  ∧ m1 = set_areaCache m (_areaCache m1).
Proof.
  unfold computeAreaCache. intros Hrun.
  destruct (areaCacheBody_of_faces m m1 Hrun) as (tris & [Hlen Htris] & ->).
  assert (Hany : ∀ c, areaCacheBody (set_areaCache m c)
            = Some (set_areaCache m (normalizedTable (rawAreaTable tris) (totalArea tris)))).
  { intros c. by rewrite (areaCacheBody_table (set_areaCache m c) tris). }
  split; [exact Hany|]. split; [apply Hany|]. split; [apply Hany|].
  split; [|done]. simpl. by rewrite normalizedTable_length, rawAreaTable_length, Hlen.
Qed.

(** [sample] builds the area cache at most once: when a call succeeds, the
    mesh it leaves differs from the one it found in the area cache only, the
    cache has one entry more than the mesh has faces, and every later call
    works on that cache without rebuilding it -- the same draw gives the same
    sample again. *)
Theorem sample_builds_cache_once (m m1 : Mesh) (u1 u2 u3 : D) r :
  sample m u1 u2 u3 = Some (r, m1) →
  m1 = set_areaCache m (_areaCache m1)
  ∧ length (_areaCache m1) = numberOfFaces m + 1
  ∧ sample m1 u1 u2 u3 = Some (r, m1)
  ∧ ∀ v1 v2 v3 r' m2, sample m1 v1 v2 v3 = Some (r', m2) → m2 = m1.
Proof.
  unfold sample at 1. intros Hrun.
  assert (∃ m', (if decide (length (_areaCache m) ≠ numberOfFaces m + 1)
                 then computeAreaCacheP m else Some m) = Some m'
            ∧ m' = set_areaCache m (_areaCache m')
            ∧ length (_areaCache m') = numberOfFaces m + 1) as (m' & Hm' & Hset & Hlen).
  { destruct (decide (length (_areaCache m) ≠ numberOfFaces m + 1)) as [Hne|Heq].
    - destruct (computeAreaCacheP m) as [m'|] eqn:Hc; [|done].
      exists m'. split; [done|].
      destruct (areaCacheBody_of_faces m m' Hc) as (tris & [Htl _] & ->).
      split; [done|]. simpl.
      by rewrite normalizedTable_length, rawAreaTable_length, Htl.
    - exists m. split; [done|]. split; [by destruct m|lia]. }
  rewrite Hm' in Hrun. simpl in Hrun.
  assert (Hskip : ∀ v1 v2 v3, sample m' v1 v2 v3
            = (ptr ← lower_bound (_areaCache m') v1;
               tri ← triangle m' (if decide (0 < ptr) then ptr - 1 else 0);
               Some (tri_sample tri v2 v3, m'))).
  { intros v1 v2 v3. unfold sample. rewrite decide_False; [done|].
    rewrite Hset at 2. unfold numberOfFaces in *. simpl. lia. }
  destruct (lower_bound (_areaCache m') u1) as [ptr|] eqn:Hptr; [|done].
  simpl in Hrun.
  destruct (triangle m' _) as [tri|] eqn:Htri; [|done]. simpl in Hrun.
  injection Hrun as <- <-.
  split; [done|]. split; [done|]. split.
  - by rewrite Hskip, Hptr; simpl; rewrite Htri.
  - intros v1 v2 v3 r' m2. rewrite Hskip. intros H.
    destruct (lower_bound _ v1) as [ptr'|]; [|done]. simpl in H.
    destruct (triangle m' (if decide (0 < ptr') then ptr' - 1 else 0)); [|done].
    simpl in H. congruence.
Qed.

End AreaCache.

Section Faceless.
Context {D : Type} `{!Float64 D} `{!Triangle3Prim D}.
Local Abbreviation Mesh := (TriangleMesh3 D).

(** A mesh without faces, whatever positions, normals and uvs it holds:
    no ray intersects it, its area and volume are 0, its bounding box is the
    box of the default constructor, and [computeAreaCache] leaves the
    one-entry table [0]; but [sample] reads face 0, which does not exist. *)
Theorem faceless_mesh `{!Float64Six D} `{!BoundingBox3Prim D} (m : Mesh)
    (ray : Ray3D D) (u1 u2 u3 : D) :
  numberOfFaces m = 0 →
  intersects m ray = Some false
  ∧ area m = Some f0
  ∧ volume m = Some f0
  ∧ boundingBox m = Some box_default
  ∧ computeAreaCache m = Some (set_areaCache m [f0])
  ∧ sample m u1 u2 u3 = None.
Proof.
  intros Hn.
  assert (Hnone : ∀ c i, triangle (set_areaCache m c) i = None).
  { intros c i. unfold triangle, numberOfFaces in *. simpl.
    by rewrite (lookup_ge_None_2 (_pointIndices m)) by lia. }
  assert (Hc : areaCacheBody m = Some (set_areaCache m [f0])).
  { unfold areaCacheBody. rewrite Hn.
    rewrite store_Some by (rewrite length_resize; lia). simpl.
    rewrite length_insert, length_resize. simpl.
    rewrite length_insert, length_resize. simpl. destruct (_areaCache m) as [|d l]; cbn; [done|by rewrite resize_0]. }
  unfold intersects, area, volume, boundingBox, computeAreaCache.
  rewrite Hn. unfold numberOfFaces in Hn. rewrite Hn. simpl.
  do 4 (split; [done|]). split; [exact Hc|].
  unfold sample, computeAreaCacheP. rewrite Hc.
  destruct (decide _) as [_|_]; simpl.
  - destruct (lower_bound _ _); simpl; [|done]. by rewrite Hnone.
  - destruct (lower_bound _ _); simpl; [|done].
    replace m with (set_areaCache m (_areaCache m)) by (by destruct m).
    by rewrite Hnone.
Qed.

End Faceless.

(** ** Meshes of triangles, and unreadable faces *)

Section Build.
Context {D : Type} `{!Float64 D} `{!Triangle3Prim D}.
Local Abbreviation Mesh := (TriangleMesh3 D).

(** A mesh filled by [addTriangle] alone, starting from a cleared (or
    freshly constructed) mesh, gives back through [triangle] exactly the
    triangles it was given, in the order given. *)
Theorem addTriangle_builds_mesh (m : Mesh) (tris : list (Triangle3 D)) :
  faces_are (foldl addTriangle (clear m) tris) tris.
Proof.
  assert (H : faces_are (foldl addTriangle (clear m) tris) tris
    ∧ length (_normalIndices (foldl addTriangle (clear m) tris)) = length tris
    ∧ length (_uvIndices (foldl addTriangle (clear m) tris)) = length tris
    ∧ (0 < length tris →
       hasNormals (foldl addTriangle (clear m) tris) = true
       ∧ hasUvs (foldl addTriangle (clear m) tris) = true)); [|by destruct H].
  induction tris as [|tri tris IH] using rev_ind.
  - simpl. split; [split; [done|by intros i]|].
    split; [done|]. split; [done|]. intros H. lia.
  - rewrite foldl_snoc, length_app. simpl.
    set (mk := foldl addTriangle (clear m) tris) in *.
    destruct IH as ([Hlen Htris] & HnI & HtI & Hflags).
    destruct (addTriangle_lengths mk tri) as (HnI' & HtI' & Hn').
    rewrite Hlen in HnI, HtI.
    split; [|split; [lia|split; [lia|intros _; apply addTriangle_has_attributes]]].
    split; [rewrite length_app; simpl; lia|].
    intros i. destruct (decide (i < length tris)) as [Hi|Hi].
    + rewrite lookup_app_l by done.
      destruct (lookup_lt_is_Some_2 tris i Hi) as [t Ht]. rewrite Ht.
      destruct Hflags as [HN HU]; [lia|].
      apply addTriangle_old_face; [done..|]. by rewrite Htris.
    + destruct (decide (i = length tris)) as [->|Hne].
      * rewrite list_lookup_middle by done. rewrite Hlen.
        by apply addTriangle_new_face.
      * rewrite lookup_ge_None_2 by (rewrite length_app; simpl; lia).
        apply triangle_out_of_faces. lia.
Qed.

(** Every query that scans the faces reads all of them: if one face cannot
    be materialized (an index of it is out of range), [closestPoint],
    [actualClosestNormal], [closestDistance], [getClosestIntersection],
    [area], [volume] and [computeAreaCache] are all undefined, and
    [intersects] cannot answer [false]. *)
Theorem unreadable_face `{!Float64Six D} (m : Mesh) (i : nat) (p : Vector3D D)
    (ray : Ray3D D) (out : SurfaceRayIntersection3) :
  i < numberOfFaces m →
  triangle m i = None →
  closestPoint m p = None
  ∧ actualClosestNormal m p = None
  ∧ closestDistance m p = None
  ∧ getClosestIntersection m ray out = None
  ∧ area m = None
  ∧ volume m = None
  ∧ computeAreaCache m = None
  ∧ intersects m ray ≠ Some false.
Proof.
  intros Hi Hnone.
  assert (Hloop : ∀ {St} (body : nat → St → option St) s,
            (∀ t, body i t = None) → for_loop body 0 (numberOfFaces m) s = None).
  { intros St body s Hbody.
    destruct (for_loop body 0 (numberOfFaces m) s) as [r|] eqn:Hrun; [|done].
    destruct (for_loop_bodies _ _ _ _ _ Hrun i Hi) as (t & t' & Ht).
    simpl in Ht. by rewrite Hbody in Ht. }
  unfold closestPoint, actualClosestNormal, closestDistance, getClosestIntersection,
    area, volume.
  repeat split.
  - rewrite Hloop; [done|]. intros [? ?]. by rewrite Hnone.
  - rewrite Hloop; [done|]. intros [[? ?] ?]. by rewrite Hnone.
  - rewrite Hloop; [done|]. intros ?. by rewrite Hnone.
  - rewrite Hloop; [done|]. intros [? ?]. by rewrite Hnone.
  - rewrite Hloop; [done|]. intros ?. by rewrite Hnone.
  - rewrite Hloop; [done|]. intros ?. by rewrite Hnone.
  - destruct (computeAreaCache m) as [m1|] eqn:Hc; [|done].
    destruct (areaCacheBody_faces m m1 Hc i Hi) as [t Ht]. congruence.
  - unfold intersects. rewrite intersects_from_false. intros Hall.
    destruct (Hall i ltac:(lia)) as (t & Ht & _). congruence.
Qed.

End Build.

(** ** Transforms *)

Section Transforms.
Context {D : Type} `{!Float64 D} `{!Triangle3Prim D}.
Local Abbreviation Mesh := (TriangleMesh3 D).

(** Bodies that each rewrite their own cell: whatever the order, every
    scheduled cell ends up changed once and the others stay. *)
Lemma run_in_order_own_cell {A} (f : A → A) (order : list nat) : ∀ l : list A,
  NoDup order →
  (∀ i, i ∈ order → i < length l) →
  ∃ r, run_in_order order (λ i l, a ← l !! i; store l i (f a)) l = Some r
    ∧ length r = length l
    ∧ ∀ j, r !! j = if decide (j ∈ order) then f <$> l !! j else l !! j.
Proof.
  induction order as [|i rest IH]; intros l Hnd Hlt.
  - exists l. split; [done|]. split; [done|]. intros j.
    rewrite decide_False; [done|]. apply not_elem_of_nil.
  - apply NoDup_cons in Hnd as [Hi Hnd].
    assert (Hil : i < length l) by (apply Hlt; by left).
    destruct (lookup_lt_is_Some_2 l i Hil) as [a Ha].
    destruct (IH (<[i := f a]> l) Hnd) as (r & Hr & Hlen & Hcells).
    { intros j Hj. rewrite length_insert. apply Hlt. by right. }
    exists r. simpl. rewrite Ha. simpl. rewrite store_Some by done. simpl.
    split; [done|]. split; [by rewrite Hlen, length_insert|].
    intros j. rewrite Hcells. destruct (decide (j = i)) as [->|Hne].
    + rewrite decide_False by done. rewrite decide_True by (by left).
      rewrite list_lookup_insert_eq by done. by rewrite Ha.
    + rewrite list_lookup_insert_ne by done.
      destruct (decide (j ∈ rest)) as [Hin|Hout].
      * by rewrite decide_True by (by right).
      * rewrite decide_False; [done|]. intros [?|?]%elem_of_cons; done.
Qed.

Lemma parallelFor_map {A} (f : A → A) (l : list A)
    (schedule : Schedule kZeroSize (length l)) :
  parallelFor kZeroSize (length l) schedule (λ i l, a ← l !! i; store l i (f a)) l
  = Some (f <$> l).
Proof.
  destruct schedule as [order Hperm]. unfold parallelFor, kZeroSize in *. simpl.
  rewrite Nat.sub_0_r in Hperm.
  assert (Hin : ∀ i, i ∈ order ↔ i < length l).
  { intros i. rewrite Hperm, elem_of_seq. lia. }
  destruct (run_in_order_own_cell f order l) as (r & -> & Hlen & Hcells).
  - rewrite Hperm. apply NoDup_seq.
  - intros i. apply Hin.
  - f_equal. apply list_eq. intros j. rewrite Hcells, list_lookup_fmap.
    destruct (decide (j ∈ order)) as [_|Hout]; [done|].
    rewrite (lookup_ge_None_2 l); [done|]. rewrite Hin in Hout. lia.
Qed.

(** [scale], [translate] and [rotate] do not depend on the order in which
    [parallelFor] runs the bodies: for every schedule, [scale] multiplies
    every position by the factor, [translate] adds the offset to every
    position, and [rotate] applies the rotation to every position and every
    normal.  Nothing else changes -- not the faces, the uvs or the area cache,
    and [scale] and [translate] leave the normals. *)
Theorem transforms_pointwise `{!QuaternionPrim D} (m : Mesh) (factor : D)
    (t : Vector3D D) (q : QuaternionD)
    (schedule1 : Schedule kZeroSize (numberOfPoints m))
    (schedule2 : Schedule kZeroSize (numberOfNormals m)) :
  scale m schedule1 factor
  = Some (mkMesh ((λ p, vimul p factor) <$> _points m) (_normals m) (_uvs m)
            (_pointIndices m) (_normalIndices m) (_uvIndices m) (_areaCache m))
  ∧ translate m schedule1 t
    = Some (mkMesh ((λ p, viadd p t) <$> _points m) (_normals m) (_uvs m)
              (_pointIndices m) (_normalIndices m) (_uvIndices m) (_areaCache m))
  ∧ rotate m schedule1 schedule2 q
    = Some (mkMesh (quat_mul q <$> _points m) (quat_mul q <$> _normals m) (_uvs m)
              (_pointIndices m) (_normalIndices m) (_uvIndices m) (_areaCache m)).
Proof.
  unfold scale, translate, rotate, numberOfPoints, numberOfNormals in *.
  rewrite !parallelFor_map. simpl. by rewrite parallelFor_map.
Qed.

End Transforms.

(** ** Reading and writing *)

Section ReadObjAppends.
Context {D : Type}.
Local Abbreviation Mesh := (TriangleMesh3 D).

Lemma appended_empty (m : Mesh) : appended m empty_mesh = m.
Proof. destruct m. unfold appended. simpl. by rewrite !app_nil_r. Qed.

Lemma callback_appended (m e0 : Mesh) (ev : ObjEvent) :
  ∃ e1, callback false e0 ev = Some e1
      ∧ callback false (appended m e0) ev = Some (appended m e1).
Proof.
  destruct ev; simpl; eexists; (split; [reflexivity|]);
    unfold appended, addPoint, addUv, addNormal, addPointFace, addPointUvFace,
      addPointNormalFace, addPointNormalUvFace; simpl;
    by rewrite <- ?app_assoc.
Qed.

Lemma callbacks_appended (es : list ObjEvent) : ∀ m e0 : Mesh,
  ∃ e, callbacks false e0 es = Some e
     ∧ callbacks false (appended m e0) es = Some (appended m e).
Proof.
  induction es as [|ev es IH]; intros m e0; [by exists e0|].
  destruct (callback_appended m e0 ev) as (e1 & H1 & H1').
  destruct (IH m e1) as (e & He & He').
  exists e. simpl. by rewrite H1, H1'.
Qed.

(** [readObj], in a release build, always returns, with the decoder's
    verdict; it appends to what the mesh holds: the result is the mesh before,
    followed array by array by what the same stream yields on an empty mesh.
    So what was read stays in the mesh when the decoder reports failure, the
    face indices of the stream are stored as they are (not shifted by the
    number of positions the mesh held before), and the area cache is left as
    it was. *)
Theorem readObj_appends {istream : Type} (parse : istream → list ObjEvent * bool)
    (m : Mesh) (strm : istream) :
  ∃ e, readObj parse false empty_mesh strm = Some (e, (parse strm).2)
     ∧ readObj parse false m strm = Some (appended m e, (parse strm).2).
Proof.
  unfold readObj. destruct (parse strm) as [events ok]. simpl.
  destruct (callbacks_appended events m empty_mesh) as (e & He & He').
  rewrite appended_empty in He'. exists e. by rewrite He, He'.
Qed.

(** In a debug build no two faces with uv indices can be appended in a
    row: the assertion of [addPointUvFace] and the second assertion of
    [addPointNormalUvFace] compare the number of faces with the number of
    texture coordinates, which the first append makes differ. *)
Theorem uv_faces_abort_debug (m : Mesh) (cs : list FaceAppend) :
  (∀ c, c ∈ cs → appendsUv c = true) →
  is_Some (faceAppends true m cs) →
  length cs ≤ 1.
Proof.
  intros Huv [m' Hm'].
  destruct cs as [|c1 [|c2 rest]]; simpl; [lia..|]. exfalso.
  assert (H1 : appendsUv c1 = true) by (apply Huv; by left).
  assert (H2 : appendsUv c2 = true) by (apply Huv; right; by left).
  cbn [faceAppends] in Hm'.
  destruct (faceAppend true m c1) as [m1|] eqn:E1; [|done]. simpl in Hm'.
  destruct (faceAppend true m1 c2) as [m2|] eqn:E2; [|done].
  assert (Hm1 : length (_pointIndices m1) = S (length (_uvs m1))).
  { destruct c1 as [p|p n|p n t|p t]; try done; simpl in E1;
      unfold addPointNormalUvFace, addPointUvFace, JET_ASSERT in E1.
    - destruct (bool_decide (length (_pointIndices m) = length (_normalIndices m)));
        [|done]. simpl in E1.
      destruct (bool_decide (length (_pointIndices m) = length (_uvs m))) eqn:E;
        [|done]. simpl in E1. apply bool_decide_eq_true in E.
      injection E1 as <-. simpl. rewrite length_app. simpl. lia.
    - destruct (bool_decide (length (_pointIndices m) = length (_uvs m))) eqn:E;
        [|done]. simpl in E1. apply bool_decide_eq_true in E.
      injection E1 as <-. simpl. rewrite length_app. simpl. lia. }
  destruct c2 as [p|p n|p n t|p t]; try done; simpl in E2;
    unfold addPointNormalUvFace, addPointUvFace, JET_ASSERT in E2.
  - destruct (bool_decide (length (_pointIndices m1) = length (_normalIndices m1)));
      [|done]. simpl in E2.
    rewrite bool_decide_false in E2 by lia. done.
  - rewrite bool_decide_false in E2 by lia. done.
Qed.

End ReadObjAppends.

Section ReadObjDrops.
Context {D : Type}.
Local Abbreviation Mesh := (TriangleMesh3 D).

(** [readObj] takes positions, uvs, normals and triangles from the stream
    and nothing else: the events for quadrilaterals, polygons, groups,
    objects, materials, comments and messages leave the mesh as it is, so a
    stream reads like the same stream without them. *)
Theorem readObj_ignores_other_events (debug : bool) (m : Mesh) (es : list ObjEvent) :
  callbacks debug m es = callbacks debug m (filter (λ e, is_mesh_event e = true) es).
Proof.
  revert m. induction es as [|e es IH]; intros m; [done|].
  destruct (is_mesh_event e) eqn:He.
  - rewrite filter_cons_True by done. simpl.
    destruct (callback debug m e); simpl; [apply IH|done].
  - rewrite filter_cons_False by (by rewrite He).
    replace (callbacks debug m (e :: es)) with (callbacks debug m es);
      [apply IH|]. by destruct e.
Qed.

End ReadObjDrops.

Section PlainStreams.
Context {D : Type} `{!Float64 D} `{!Triangle3Prim D}.
Local Abbreviation Mesh := (TriangleMesh3 D).

Lemma minus1_in_range (n : nat) (a b c : Z) :
  (1 ≤ a ≤ Z.of_nat n ∧ 1 ≤ b ≤ Z.of_nat n ∧ 1 ≤ c ≤ Z.of_nat n)%Z →
  face_in_range n (minus1 a b c).
Proof.
  assert (H : ∀ v, (1 ≤ v ≤ Z.of_nat n)%Z → N.to_nat (to_size_t (v - 1)) < n).
  { intros v Hv. unfold to_size_t, SIZE_MOD.
    pose proof (Z.mod_le (v - 1) (2 ^ 64) ltac:(lia) ltac:(lia)).
    pose proof (Z.mod_pos_bound (v - 1) (2 ^ 64) ltac:(lia)). lia. }
  intros (Ha & Hb & Hc). unfold face_in_range, minus1. simpl. auto.
Qed.

Lemma positions_of_length (es : list (@ObjEvent D)) :
  length (positions_of es) = positions_in es.
Proof.
  unfold positions_of, positions_in. induction es as [|e es IH]; [done|].
  rewrite bind_cons, length_app, IH. destruct e; simpl;
    rewrite ?filter_cons_True by done; rewrite ?filter_cons_False by done; done.
Qed.

Lemma position_faces_of_in_range (n : nat) (es : list (@ObjEvent D)) :
  (∀ e, e ∈ es → plain_event n e) →
  ∀ i f, position_faces_of es !! i = Some f → face_in_range n f.
Proof.
  intros Hplain i f Hf. apply list_elem_of_lookup_2 in Hf.
  unfold position_faces_of in Hf. apply list_elem_of_bind in Hf as (e & Hf & He).
  specialize (Hplain e He). destruct e; try (by apply elem_of_nil in Hf).
  apply list_elem_of_singleton in Hf as ->. by apply minus1_in_range.
Qed.

Lemma callbacks_plain (debug : bool) (n : nat) (es : list ObjEvent) : ∀ m0 : Mesh,
  (∀ e, e ∈ es → plain_event n e) →
  callbacks debug m0 es
  = Some (mkMesh (_points m0 ++ positions_of es) (_normals m0) (_uvs m0)
            (_pointIndices m0 ++ position_faces_of es) (_normalIndices m0)
            (_uvIndices m0) (_areaCache m0)).
Proof.
  induction es as [|e es IH]; intros m0 Hplain.
  - simpl. rewrite !app_nil_r. by destruct m0.
  - assert (Hrest : ∀ e', e' ∈ es → plain_event n e') by (intros; apply Hplain; by right).
    pose proof (Hplain e ltac:(by left)) as He.
    unfold positions_of, position_faces_of. rewrite !bind_cons.
    fold (positions_of es). fold (position_faces_of es).
    destruct e; simpl in He; try done; simpl; rewrite (IH _ Hrest); simpl;
      try (by rewrite <- ?app_assoc).
Qed.

(** Reading a plain stream gives a mesh that can be queried: when the
    stream holds positions and position-only triangles whose indices are
    between 1 and the number of positions in the stream (and otherwise only
    events without effect), [readObj] on an empty mesh returns, in a debug
    build too, the mesh that holds exactly the positions of the stream, in
    their order and with their coordinates, one face per triangle of the
    stream, with its indices decremented, and neither normals nor uvs; every
    face of it can be materialized. *)
Theorem readObj_plain_stream {istream : Type} (parse : istream → list ObjEvent * bool)
    (debug : bool) (strm : istream) :
  (∀ e, e ∈ (parse strm).1 → plain_event (positions_in (parse strm).1) e) →
  ∃ m : Mesh, readObj parse debug empty_mesh strm = Some (m, (parse strm).2)
    ∧ m = mkMesh (positions_of (parse strm).1) [] []
                 (position_faces_of (parse strm).1) [] [] []
    ∧ numberOfPoints m = positions_in (parse strm).1
    ∧ hasNormals m = false ∧ hasUvs m = false
    ∧ ∀ i, i < numberOfFaces m → is_Some (triangle m i).
Proof.
  unfold readObj. destruct (parse strm) as [es ok]. simpl. intros Hplain.
  rewrite (callbacks_plain debug (positions_in es) es empty_mesh Hplain). simpl.
  eexists. split; [done|]. split; [done|].
  split; [apply positions_of_length|]. do 2 (split; [done|]).
  intros i Hi. unfold numberOfFaces in Hi. simpl in Hi.
  destruct (lookup_lt_is_Some_2 _ i Hi) as [f Hfi].
  pose proof (position_faces_of_in_range _ es Hplain i f Hfi) as Hrange.
  rewrite <- positions_of_length in Hrange.
  destruct (gather_Some (positions_of es) f Hrange) as [pts Hpts].
  set (m := mkMesh (positions_of es) [] [] (position_faces_of es) [] [] []).
  destruct (triangle_points m i f pts Hfi Hpts) as (tri & -> & _);
    [done|done|by eexists].
Qed.

End PlainStreams.

Section RoundTrip.
Context {D : Type} `{!Float64 D}.
Local Abbreviation Mesh := (TriangleMesh3 D).

Lemma pretty_written (i : N) : (i + 1 < 2 ^ 64)%N → pretty (written i) = pretty (i + 1)%N.
Proof.
  intros Hi. unfold written. rewrite size_succ_small by done.
  destruct (i + 1)%N eqn:E; [lia|done].
Qed.

Lemma minus1_written (f : Point3UI) :
  below_max f → minus1 (written (x f)) (written (y f)) (written (z f)) = f.
Proof.
  intros (Hx & Hy & Hz). destruct f as [a b c]. simpl in *.
  unfold minus1, written, to_size_t, SIZE_MOD.
  rewrite !size_succ_small by done.
  f_equal; (rewrite Z.mod_small by lia); lia.
Qed.

Lemma obj_f_line_event (hasT hasN : bool) (pf tf nf : Point3UI) :
  below_max pf → (hasT = true → below_max tf) → (hasN = true → below_max nf) →
  obj_f_line hasT hasN pf tf nf
  = obj_event_text (face_event (D:=D) hasT hasN pf tf nf).
Proof.
  intros (Hx & Hy & Hz) Ht Hn. unfold obj_f_line, obj_face_vertex.
  destruct hasT, hasN; simpl; unfold obj_vertex_text; simpl;
    rewrite ?pretty_written; try done;
    try (by destruct Ht as (? & ? & ?)); try (by destruct Hn as (? & ? & ?)).
Qed.

Lemma callbacks_snoc (m : Mesh) (es : list ObjEvent) (e : ObjEvent) :
  callbacks false m (es ++ [e]) = callbacks false m es ≫= λ m', callback false m' e.
Proof.
  revert m. induction es as [|e' es IH]; intros m; simpl.
  - by destruct (callback false m e).
  - destruct (callback false m e'); simpl; [apply IH|done].
Qed.

Lemma writeObj_face_events (m : Mesh) (strm : string) :
  (∀ i pf, _pointIndices m !! i = Some pf → below_max pf) →
  (hasUvs m = true → ∀ i, i < numberOfFaces m →
     ∃ tf, _uvIndices m !! i = Some tf ∧ below_max tf) →
  (hasNormals m = true → ∀ i, i < numberOfFaces m →
     ∃ nf, _normalIndices m !! i = Some nf ∧ below_max nf) →
  writeObj m strm
  = Some (strm +:+ joined ((obj_v_line <$> _points m) ++ (obj_vt_line <$> _uvs m)
                           ++ (obj_vn_line <$> _normals m)
                           ++ (obj_event_text <$> face_events m))).
Proof.
  intros Hp Huv Hn. unfold writeObj. rewrite writeObj_attribute_lines.
  set (s0 := ((strm +:+ _) +:+ _) +:+ _).
  destruct (for_loop_invariant
    (λ k s, s = s0 +:+ joined (obj_event_text <$> (face_event_at m <$> seq 0 k)))
    (λ i strm, strm ← for_loop (writeObj_vertex m (hasUvs m) (hasNormals m) i) 0 3
                         (strm +:+ "f ");
               Some (strm +:+ endl))
    0 (numberOfFaces m) s0) as (s & Hrun & Hs);
    [| |etrans; [exact Hrun|rewrite Hs]].
  - change (s0 = s0 +:+ ""). by rewrite append_nil_r.
  - intros k s Hk ->. change (0 + k) with k. cbn [for_loop].
    destruct (lookup_lt_is_Some_2 (_pointIndices m) k Hk) as [pf Hpf].
    do 3 (rewrite (writeObj_vertex_line m k _ _ pf Hpf (Hp k pf Hpf)
                     (λ H, Huv H k Hk) (λ H, Hn H k Hk)); cbn [mbind option_bind]).
    eexists. split; [done|].
    rewrite seq_S, !fmap_app, joined_app.
    change (joined (obj_event_text <$> (face_event_at m <$> [0 + k])))
      with (obj_event_text (face_event_at m k) +:+ "").
    unfold face_event_at. rewrite <- obj_f_line_event.
    + unfold obj_f_line. rewrite Hpf. simpl. by rewrite append_nil_r, !append_assoc.
    + rewrite Hpf. by apply (Hp k).
    + intros H. destruct (Huv H k Hk) as (tf & -> & Htf). done.
    + intros H. destruct (Hn H k Hk) as (nf & -> & Hnf). done.
  - f_equal. unfold s0, face_events. by rewrite !joined_app, !append_assoc.
Qed.

Lemma callbacks_face_events (m m0 : Mesh) :
  (∀ i pf, _pointIndices m !! i = Some pf → below_max pf) →
  (hasUvs m = true → ∀ i, i < numberOfFaces m →
     ∃ tf, _uvIndices m !! i = Some tf ∧ below_max tf) →
  (hasNormals m = true → ∀ i, i < numberOfFaces m →
     ∃ nf, _normalIndices m !! i = Some nf ∧ below_max nf) →
  ∀ k, k ≤ numberOfFaces m →
  callbacks false m0 (face_event_at m <$> seq 0 k)
  = Some (mkMesh (_points m0) (_normals m0) (_uvs m0)
            (_pointIndices m0 ++ take k (_pointIndices m))
            (_normalIndices m0
             ++ take k (if hasNormals m
                        then if hasUvs m then _uvIndices m else _normalIndices m
                        else []))
            (_uvIndices m0
             ++ take k (if hasUvs m
                        then if hasNormals m then _normalIndices m else _uvIndices m
                        else []))
            (_areaCache m0)).
Proof.
  intros Hp Huv Hn k. induction k as [|k IH]; intros Hk.
  - simpl. rewrite !take_0, !app_nil_r. by destruct m0.
  - rewrite seq_S, fmap_app. simpl. rewrite callbacks_snoc, IH by lia. simpl.
    destruct (lookup_lt_is_Some_2 (_pointIndices m) k Hk) as [pf Hpf].
    rewrite (take_S_r _ _ _ Hpf). unfold face_event_at. rewrite Hpf. simpl.
    pose proof (minus1_written pf (Hp k pf Hpf)) as Epf.
    destruct (hasUvs m) eqn:HT, (hasNormals m) eqn:HN; simpl.
    + destruct (Huv eq_refl k Hk) as (tf & Htf & Htmax).
      destruct (Hn eq_refl k Hk) as (nf & Hnf & Hnmax).
      rewrite Htf, Hnf. simpl. unfold addPointNormalUvFace. simpl.
      rewrite Epf, (minus1_written tf Htmax), (minus1_written nf Hnmax).
      by rewrite (take_S_r _ _ _ Htf), (take_S_r _ _ _ Hnf), !app_assoc.
    + destruct (Huv eq_refl k Hk) as (tf & Htf & Htmax).
      rewrite Htf. simpl. unfold addPointUvFace. simpl.
      rewrite Epf, (minus1_written tf Htmax).
      by rewrite (take_S_r _ _ _ Htf), !take_nil, !app_assoc.
    + destruct (Hn eq_refl k Hk) as (nf & Hnf & Hnmax).
      rewrite Hnf. simpl. unfold addPointNormalFace. simpl.
      rewrite Epf, (minus1_written nf Hnmax).
      by rewrite (take_S_r _ _ _ Hnf), !take_nil, !app_assoc.
    + unfold addPointFace. simpl. by rewrite Epf, !take_nil, !app_assoc.
Qed.

(** Writing a mesh and reading its face lines back.  For a mesh whose
    attribute face arrays are as long as its position faces (for the
    attributes it holds) and none of whose indices is [SIZE_MAX]: [writeObj]
    writes, after the attribute lines, exactly the lines of the events
    [face_events], and the [readObj] callbacks, fed those events, append the
    position faces as they were -- and the uv and normal faces too when the
    mesh holds only one of the two kinds; when it holds both, the uv faces
    come back as normal faces and the normal faces as uv faces. *)
Theorem writeObj_then_readObj_faces (m m0 : Mesh) (strm : string) :
  (∀ i pf, _pointIndices m !! i = Some pf → below_max pf) →
  (hasUvs m = true → length (_uvIndices m) = numberOfFaces m
                     ∧ ∀ i tf, _uvIndices m !! i = Some tf → below_max tf) →
  (hasNormals m = true → length (_normalIndices m) = numberOfFaces m
                         ∧ ∀ i nf, _normalIndices m !! i = Some nf → below_max nf) →
  writeObj m strm
  = Some (strm +:+ joined ((obj_v_line <$> _points m) ++ (obj_vt_line <$> _uvs m)
                           ++ (obj_vn_line <$> _normals m)
                           ++ (obj_event_text <$> face_events m)))
  ∧ callbacks false m0 (face_events m)
    = Some (mkMesh (_points m0) (_normals m0) (_uvs m0)
              (_pointIndices m0 ++ _pointIndices m)
              (_normalIndices m0
               ++ (if hasNormals m
                   then if hasUvs m then _uvIndices m else _normalIndices m
                   else []))
              (_uvIndices m0
               ++ (if hasUvs m
                   then if hasNormals m then _normalIndices m else _uvIndices m
                   else []))
              (_areaCache m0)).
Proof.
  intros Hp Huv Hn.
  assert (Huv' : hasUvs m = true → ∀ i, i < numberOfFaces m →
            ∃ tf, _uvIndices m !! i = Some tf ∧ below_max tf).
  { intros H i Hi. destruct (Huv H) as [Hlen Hmax].
    destruct (lookup_lt_is_Some_2 (_uvIndices m) i ltac:(lia)) as [tf Htf].
    exists tf. split; [done|]. by apply (Hmax i). }
  assert (Hn' : hasNormals m = true → ∀ i, i < numberOfFaces m →
            ∃ nf, _normalIndices m !! i = Some nf ∧ below_max nf).
  { intros H i Hi. destruct (Hn H) as [Hlen Hmax].
    destruct (lookup_lt_is_Some_2 (_normalIndices m) i ltac:(lia)) as [nf Hnf].
    exists nf. split; [done|]. by apply (Hmax i). }
  split; [by apply writeObj_face_events|].
  unfold face_events.
  rewrite (callbacks_face_events m m0 Hp Huv' Hn' (numberOfFaces m)) by done.
  unfold numberOfFaces in *. do 2 f_equal.
  - by rewrite take_ge by done.
  - destruct (hasNormals m) eqn:HN; [|by rewrite take_nil].
    destruct (Hn eq_refl) as [HlenN _].
    destruct (hasUvs m) eqn:HT; [destruct (Huv eq_refl) as [HlenT _]|];
      by rewrite take_ge by lia.
  - destruct (hasUvs m) eqn:HT; [|by rewrite take_nil].
    destruct (Huv eq_refl) as [HlenT _].
    destruct (hasNormals m) eqn:HN; [destruct (Hn eq_refl) as [HlenN _]|];
      by rewrite take_ge by lia.
Qed.

End RoundTrip.

Section Edges.
Context {D : Type} `{!Float64 D} `{!Triangle3Prim D}.
Local Abbreviation Mesh := (TriangleMesh3 D).

(** [sample] does not clamp its draw: on a cache of the right length all
    of whose entries are below [u1] (for a normalized table: [u1] above 1),
    [std::lower_bound] returns the end of the table and [sample] reads the
    face after the last one. *)
Theorem sample_above_table (m : Mesh) (u1 u2 u3 : D) :
  length (_areaCache m) = numberOfFaces m + 1 →
  (∀ i e, _areaCache m !! i = Some e → flt e u1 = true) →
  sample m u1 u2 u3 = None.
Proof.
  intros Hlen Hbelow. unfold sample. rewrite decide_False by lia. simpl.
  destruct (lower_bound_loop_spec (_areaCache m) u1 (length (_areaCache m))
              0 (length (_areaCache m))) as (pos & Hpos & Hle & _ & Hnot);
    [done|done| | | |].
  - intros i j e e' _ He _ _. by apply (Hbelow i).
  - intros; lia.
  - intros i e Hi He. apply lookup_lt_Some in He. simpl in Hi. lia.
  - unfold lower_bound. rewrite Hpos. simpl.
    assert (pos = length (_areaCache m)) as ->.
    { destruct (decide (pos = length (_areaCache m))) as [|Hne]; [done|].
      destruct (lookup_lt_is_Some_2 (_areaCache m) pos ltac:(lia)) as [e He].
      pose proof (Hnot pos e ltac:(lia) He) as Hn.
      by rewrite (Hbelow pos e He) in Hn. }
    rewrite Hlen, decide_True by lia.
    rewrite triangle_out_of_faces; [done|lia].
Qed.

(** Which face arrays are read is decided by the attribute arrays: on a
    mesh that holds normals (uvs) but has no normal (uv) triple for some face,
    that face cannot be materialized and [writeObj] reads out of range -- as
    after reading a stream that has [vn] lines and position-only faces. *)
Theorem attribute_without_faces (m : Mesh) (i : nat) (strm : string) :
  i < numberOfFaces m →
  (hasNormals m = true ∧ _normalIndices m !! i = None)
  ∨ (hasUvs m = true ∧ _uvIndices m !! i = None) →
  triangle m i = None ∧ writeObj m strm = None.
Proof.
  intros Hi Hmiss. split.
  - unfold triangle.
    destruct (_pointIndices m !! i) as [pf|]; [|done]. simpl.
    destruct (gather (_points m) pf) as [pts|]; [|done]. simpl.
    destruct Hmiss as [[-> ->]|[-> ->]]; [|done].
    by destruct (if hasUvs m then _ else _).
  - assert (Hv : ∀ j s, writeObj_vertex m (hasUvs m) (hasNormals m) i j s = None).
    { intros j s. unfold writeObj_vertex.
      destruct (_pointIndices m !! i) as [pf|]; simpl; [|done].
      destruct Hmiss as [[-> ->]|[-> ->]]; simpl; [|done].
      by destruct (if hasUvs m then _ else _). }
    unfold writeObj. apply (for_loop_fails _ _ _ _ i); [lia|].
    intros t. cbn [for_loop]. by rewrite Hv.
Qed.

End Edges.


(** ** Rounding to nearest is monotone *)

(** The addition and the division of binary64 round the exact result to
    the nearest number, ties to even.  From the specification of the
    primitive floats: that rounding is monotone, so that a sum of numbers
    that are not negative is not below a summand, and division by a positive
    finite number keeps the order. *)
Module Binary64Proofs.
Import Floats Binary64.
Local Open Scope Z_scope.

Lemma digits2_pos_bounds (p : positive) :
  2 ^ (Zpos (digits2_pos p) - 1) ≤ Zpos p < 2 ^ Zpos (digits2_pos p).
Proof.
  induction p as [p IH|p IH|]; simpl digits2_pos; [| |simpl; lia].
  - rewrite Pos2Z.inj_succ. replace (Z.succ (Zpos (digits2_pos p)) - 1)
      with (Z.succ (Zpos (digits2_pos p) - 1)) by lia.
    rewrite !Z.pow_succ_r by lia. lia.
  - rewrite Pos2Z.inj_succ. replace (Z.succ (Zpos (digits2_pos p)) - 1)
      with (Z.succ (Zpos (digits2_pos p) - 1)) by lia.
    rewrite !Z.pow_succ_r by lia. lia.
Qed.

Lemma Zdigits2_bounds (m : Z) :
  0 < m → 2 ^ (Zdigits2 m - 1) ≤ m < 2 ^ Zdigits2 m.
Proof. destruct m as [|p|p]; [lia| |lia]. intros _. apply digits2_pos_bounds. Qed.

Lemma Zdigits2_nonneg (m : Z) : 0 ≤ m → 0 ≤ Zdigits2 m.
Proof. destruct m; simpl; lia. Qed.

(** The number of digits is determined by the two powers around [m]. *)
Lemma Zdigits2_unique (m d : Z) : 2 ^ (d - 1) ≤ m < 2 ^ d → 0 < m → Zdigits2 m = d.
Proof.
  intros [Hlo Hhi] Hm. pose proof (Zdigits2_bounds m Hm) as [Hlo' Hhi'].
  pose proof (Zdigits2_nonneg m ltac:(lia)) as Hd.
  assert (0 ≤ d) as Hd0.
  { destruct (Z.lt_ge_cases d 0) as [Hneg|]; [|done].
    rewrite Z.pow_neg_r in Hhi by done. lia. }
  destruct (Z.lt_trichotomy (Zdigits2 m) d) as [Hlt|[->|Hgt]]; [|done|].
  - assert (2 ^ Zdigits2 m ≤ 2 ^ (d - 1)) by (apply Z.pow_le_mono_r; lia). lia.
  - assert (2 ^ d ≤ 2 ^ (Zdigits2 m - 1)) by (apply Z.pow_le_mono_r; lia). lia.
Qed.

Lemma fexp_eq (e : Z) : fexp prec emax e = Z.max (e - 53) (-1074).
Proof. reflexivity. Qed.

(** *** Right shifts *)

Lemma shr_1_located (X Y : Z) (mrs : shr_record) :
  0 ≤ X → 0 < Y → located X Y mrs → located X (2 * Y) (shr_1 mrs).
Proof.
  intros HX HY (Hm & Hr & Hs).
  pose proof (Z.div_pos X Y HX HY) as Hq.
  pose proof (Z.mod_pos_bound X Y HY) as Hrho.
  assert (Hdiv : X / (2 * Y) = X / Y / 2).
  { rewrite (Z.mul_comm 2 Y). by rewrite Z.div_div by lia. }
  assert (Hmod : X mod (2 * Y) = X mod Y + Y * ((X / Y) mod 2)).
  { rewrite (Z.mul_comm 2 Y). rewrite Z.rem_mul_r by lia. done. }
  pose proof (Z.mod_pos_bound (X / Y) 2 ltac:(lia)) as Hbit.
  pose proof (Z.div_mod (X / Y) 2 ltac:(lia)) as Hq2.
  destruct mrs as [m r s]. simpl in Hm, Hr, Hs. subst m r s.
  unfold located. rewrite Hdiv, Hmod.
  set (q := X / Y) in *. set (rho := X mod Y) in *.
  assert (Hcases : q mod 2 = 0 ∨ q mod 2 = 1) by lia.
  assert (Hs' : (Y <=? 2 * rho) || negb ((rho =? 0) || (2 * rho =? Y))
                = negb (rho =? 0)).
  { destruct (Z.leb_spec Y (2 * rho)), (Z.eqb_spec rho 0), (Z.eqb_spec (2 * rho) Y);
      simpl; try done; lia. }
  unfold shr_1. rewrite Hs'.
  destruct q as [|[p|p|]|p] eqn:Eq; try lia; simpl shr_m; simpl shr_r; simpl shr_s.
  - (* 0 *)
    change (0 mod 2) with 0 in *. change (0 / 2) with 0.
    repeat split; [|].
    + destruct (Z.leb_spec (2 * Y) (2 * (rho + Y * 0))); [lia|done].
    + destruct (Z.eqb_spec rho 0), (Z.eqb_spec (rho + Y * 0) 0),
        (Z.eqb_spec (2 * (rho + Y * 0)) (2 * Y)); simpl; try done; lia.
  - (* odd *)
    assert (Hodd : Z.pos p~1 mod 2 = 1) by (rewrite Pos2Z.inj_xI; rewrite Z.add_comm, Z.mul_comm, Z.mod_add by lia; done).
    assert (Hhalf : Z.pos p~1 / 2 = Z.pos p).
    { rewrite Pos2Z.inj_xI. rewrite Z.add_comm, Z.mul_comm, Z.div_add by lia. done. }
    rewrite Hodd, Hhalf. repeat split.
    + destruct (Z.leb_spec (2 * Y) (2 * (rho + Y * 1))); [done|lia].
    + destruct (Z.eqb_spec rho 0), (Z.eqb_spec (rho + Y * 1) 0),
        (Z.eqb_spec (2 * (rho + Y * 1)) (2 * Y)); simpl; try done; lia.
  - (* even *)
    assert (Heven : Z.pos p~0 mod 2 = 0) by (rewrite Pos2Z.inj_xO; rewrite Z.mul_comm, Z.mod_mul by lia; done).
    assert (Hhalf : Z.pos p~0 / 2 = Z.pos p).
    { rewrite Pos2Z.inj_xO. rewrite Z.mul_comm, Z.div_mul by lia. done. }
    rewrite Heven, Hhalf. repeat split.
    + destruct (Z.leb_spec (2 * Y) (2 * (rho + Y * 0))); [lia|done].
    + destruct (Z.eqb_spec rho 0), (Z.eqb_spec (rho + Y * 0) 0),
        (Z.eqb_spec (2 * (rho + Y * 0)) (2 * Y)); simpl; try done; lia.
  - (* 1 *)
    change (1 mod 2) with 1 in *. change (1 / 2) with 0. repeat split.
    + destruct (Z.leb_spec (2 * Y) (2 * (rho + Y * 1))); [done|lia].
    + destruct (Z.eqb_spec rho 0), (Z.eqb_spec (rho + Y * 1) 0),
        (Z.eqb_spec (2 * (rho + Y * 1)) (2 * Y)); simpl; try done; lia.
Qed.

Lemma pow2_xO (p : positive) : 2 ^ Z.pos p~0 = 2 ^ Z.pos p * 2 ^ Z.pos p.
Proof.
  rewrite (Pos2Z.inj_xO p). replace (2 * Z.pos p) with (Z.pos p + Z.pos p) by lia.
  by rewrite Z.pow_add_r by lia.
Qed.

Lemma pow2_xI (p : positive) : 2 ^ Z.pos p~1 = 2 * (2 ^ Z.pos p * 2 ^ Z.pos p).
Proof.
  rewrite (Pos2Z.inj_xI p). replace (2 * Z.pos p + 1) with (1 + (Z.pos p + Z.pos p)) by lia.
  by rewrite !Z.pow_add_r by lia.
Qed.

Lemma iter_pos_located (X : Z) (p : positive) : ∀ (Y : Z) (mrs : shr_record),
  0 ≤ X → 0 < Y → located X Y mrs →
  located X (Y * 2 ^ Zpos p) (iter_pos shr_1 p mrs).
Proof.
  induction p as [p IH|p IH|]; intros Y mrs HX HY Hloc; simpl iter_pos.
  - pose proof (Z.pow_pos_nonneg 2 (Z.pos p) ltac:(lia) ltac:(lia)) as Hpow.
    replace (Y * 2 ^ Z.pos p~1) with (2 * Y * 2 ^ Z.pos p * 2 ^ Z.pos p)
      by (rewrite pow2_xI; lia).
    apply IH; [done|nia|]. apply IH; [done|lia|]. by apply shr_1_located.
  - pose proof (Z.pow_pos_nonneg 2 (Z.pos p) ltac:(lia) ltac:(lia)) as Hpow.
    replace (Y * 2 ^ Z.pos p~0) with (Y * 2 ^ Z.pos p * 2 ^ Z.pos p)
      by (rewrite pow2_xO; lia).
    apply IH; [done|nia|]. by apply IH.
  - replace (Y * 2 ^ 1) with (2 * Y) by lia. by apply shr_1_located.
Qed.

Lemma shr_located (X Y : Z) (mrs : shr_record) (e n : Z) :
  0 ≤ X → 0 < Y → 0 ≤ n → located X Y mrs →
  located X (Y * 2 ^ n) (shr mrs e n).1 ∧ (shr mrs e n).2 = e + n.
Proof.
  intros HX HY Hn Hloc. destruct n as [|p|p]; [| |lia]; simpl.
  - rewrite Z.mul_1_r. split; [done|lia].
  - split; [|done]. by apply iter_pos_located.
Qed.

Lemma round_nearest_even_located (X Y : Z) (mrs : shr_record) :
  0 < Y → located X Y mrs →
  round_nearest_even (shr_m mrs) (loc_of_shr_record mrs) = rne X Y.
Proof.
  intros HY (Hm & Hr & Hs). pose proof (Z.mod_pos_bound X Y HY) as Hrho.
  destruct mrs as [m r s]. simpl in *. subst m. unfold rne.
  destruct (Z.ltb_spec (2 * (X mod Y)) Y), (Z.ltb_spec Y (2 * (X mod Y)));
    destruct (Z.leb_spec Y (2 * (X mod Y))), (Z.eqb_spec (X mod Y) 0),
      (Z.eqb_spec (2 * (X mod Y)) Y); simpl in Hr, Hs; subst r s; simpl;
    try done; lia.
Qed.

Lemma shr_nonpos (mrs : shr_record) (e n : Z) : n ≤ 0 → shr mrs e n = (mrs, e).
Proof. destruct n; [done|lia|done]. Qed.

(** [binary_round_aux] on a located value. *)
Lemma binary_round_aux_round_at (X Y mx ex : Z) (lx : location) :
  0 ≤ X → 0 < Y → located X Y (shr_record_of_loc mx lx) →
  ex ≤ fexp prec emax (Zdigits2 (X / Y) + ex) →
  binary_round_aux prec emax false mx ex lx = round_at X Y ex.
Proof.
  intros HX HY Hloc He.
  assert (Hmx : mx = X / Y).
  { destruct Hloc as [Hm _]. by destruct lx as [|[]]. }
  unfold round_at, binary_round_aux, shr_fexp at 1. rewrite Hmx.
  set (E := fexp prec emax (Zdigits2 (X / Y) + ex)) in *.
  rewrite <- Hmx.
  destruct (shr_located X Y (shr_record_of_loc mx lx) ex (E - ex) HX HY ltac:(lia) Hloc)
    as [Hloc' He'].
  destruct (shr (shr_record_of_loc mx lx) ex (E - ex)) as [mrs' e']. simpl in Hloc', He'.
  subst e'. replace (ex + (E - ex)) with E by lia.
  rewrite (round_nearest_even_located X (Y * 2 ^ (E - ex)) mrs'); [done| |done].
  pose proof (Z.pow_pos_nonneg 2 (E - ex) ltac:(lia) ltac:(lia)). nia.
Qed.

(** *** The end of the rounding *)

Lemma encode_spec (m E : Z) :
  -1074 ≤ E → 0 ≤ m ≤ 2 ^ 53 → (-1074 < E → 2 ^ 52 ≤ m) →
  encode m E
  = if m =? 0 then S754_zero false
    else if m =? 2 ^ 53
         then if E + 1 <=? 971 then S754_finite false (2 ^ 52) (E + 1)
              else S754_infinity false
         else if E <=? 971 then S754_finite false (Z.to_pos m) E
              else S754_infinity false.
Proof.
  intros HE Hm Hnormal. unfold encode, shr_fexp.
  destruct (Z.eqb_spec m 0) as [->|Hm0].
  { rewrite shr_nonpos; [done|]. simpl Zdigits2. rewrite fexp_eq. lia. }
  destruct (Z.eqb_spec m (2 ^ 53)) as [->|Hm53].
  { replace (fexp prec emax (Zdigits2 (2 ^ 53) + E) - E) with 1.
    - simpl. by replace (E + 1 <=? 971) with (E + 1 <=? 1024 - 53) by done.
    - change (Zdigits2 (2 ^ 53)) with 54. rewrite fexp_eq. lia. }
  assert (Hd : Zdigits2 m ≤ 53).
  { pose proof (Zdigits2_bounds m ltac:(lia)) as [Hlo _].
    destruct (Z.le_gt_cases (Zdigits2 m) 53) as [|Hgt]; [done|].
    assert (2 ^ 53 ≤ 2 ^ (Zdigits2 m - 1)) by (apply Z.pow_le_mono_r; lia). lia. }
  rewrite shr_nonpos.
  - destruct m as [|p|p]; [done| |lia]. done.
  - rewrite fexp_eq. destruct (Z.eq_dec E (-1074)) as [->|HE']; [lia|].
    rewrite (Zdigits2_unique m 53); [lia| |lia]. split; [apply Hnormal|]; lia.
Qed.

(** *** Rounding to nearest even *)

Lemma rne_floor (X Y : Z) : 0 < Y → X / Y ≤ rne X Y ≤ X / Y + 1.
Proof.
  intros HY. unfold rne.
  destruct (2 * (X mod Y) <? Y), (Y <? 2 * (X mod Y)), (Z.even (X / Y)); lia.
Qed.

Lemma rne_ge (X Y k : Z) : 0 < Y → k * Y ≤ X → k ≤ rne X Y.
Proof.
  intros HY Hk. pose proof (rne_floor X Y HY).
  assert (k ≤ X / Y) by (apply Z.div_le_lower_bound; lia). lia.
Qed.

Lemma rne_le (X Y k : Z) : 0 < Y → X ≤ k * Y → rne X Y ≤ k.
Proof.
  intros HY Hk. pose proof (rne_floor X Y HY).
  pose proof (Z.div_mod X Y ltac:(lia)) as Hdm.
  pose proof (Z.mod_pos_bound X Y HY) as Hrho.
  destruct (Z.eq_dec X (k * Y)) as [->|Hne].
  - unfold rne. rewrite Z.mod_mul, Z.div_mul by lia.
    replace (2 * 0 <? Y) with true; [done|]. symmetry. apply Z.ltb_lt. lia.
  - assert (X / Y < k) by (apply Z.div_lt_upper_bound; lia). lia.
Qed.

Lemma rne_mono (X Y X' Y' : Z) :
  0 < Y → 0 < Y' → X * Y' ≤ X' * Y → rne X Y ≤ rne X' Y'.
Proof.
  intros HY HY' Hle.
  pose proof (Z.div_mod X Y ltac:(lia)) as Hdm.
  pose proof (Z.mod_pos_bound X Y HY) as Hrho.
  pose proof (Z.div_mod X' Y' ltac:(lia)) as Hdm'.
  pose proof (Z.mod_pos_bound X' Y' HY') as Hrho'.
  pose proof (rne_floor X Y HY). pose proof (rne_floor X' Y' HY').
  set (q := X / Y) in *. set (q' := X' / Y') in *.
  set (r := X mod Y) in *. set (r' := X' mod Y') in *.
  assert (Hq : q ≤ q').
  { destruct (Z.le_gt_cases q q') as [|Hgt]; [done|]. exfalso.
    assert ((q' + 1) * (Y * Y') ≤ q * (Y * Y')) by (apply Z.mul_le_mono_nonneg_r; nia).
    nia. }
  destruct (Z.eq_dec q q') as [Heq|Hne]; [|lia].
  assert (Hr : r * Y' ≤ r' * Y) by nia.
  unfold rne. fold q q' r r'. rewrite <- Heq.
  destruct (Z.ltb_spec (2 * r) Y), (Z.ltb_spec Y (2 * r)),
    (Z.ltb_spec (2 * r') Y'), (Z.ltb_spec Y' (2 * r')); destruct (Z.even q);
    try lia; exfalso; nia.
Qed.

(** *** Rounding is monotone *)

Lemma fexp_ge_emin (e : Z) : -1074 ≤ fexp prec emax e.
Proof. rewrite fexp_eq. lia. Qed.

Lemma fexp_mono (e e' : Z) : e ≤ e' → fexp prec emax e ≤ fexp prec emax e'.
Proof. rewrite !fexp_eq. lia. Qed.

Lemma Zdigits2_0 : Zdigits2 0 = 0.
Proof. done. Qed.

Lemma Zdigits2_pos (m : Z) : 0 < m → 0 < Zdigits2 m.
Proof. destruct m; simpl; lia. Qed.

(** The bounds of the rounded mantissa that [encode_spec] asks for. *)
Lemma round_at_mantissa (X Y e : Z) :
  0 ≤ X → 0 < Y →
  let E := fexp prec emax (Zdigits2 (X / Y) + e) in
  e ≤ E →
  -1074 ≤ E
  ∧ 0 ≤ rne X (Y * 2 ^ (E - e)) ≤ 2 ^ 53
  ∧ (-1074 < E → 2 ^ 52 ≤ rne X (Y * 2 ^ (E - e))).
Proof.
  intros HX HY E He.
  pose proof (Z.div_mod X Y ltac:(lia)) as Hdm.
  pose proof (Z.mod_pos_bound X Y HY) as Hrho.
  pose proof (Z.div_pos X Y HX HY) as Hq.
  pose proof (Z.pow_pos_nonneg 2 (E - e) ltac:(lia) ltac:(lia)) as Hpow.
  assert (HY1 : 0 < Y * 2 ^ (E - e)) by nia.
  split; [apply fexp_ge_emin|]. split; [split|].
  - apply rne_ge; [done|lia].
  - apply rne_le; [done|].
    destruct (Z.eq_dec (X / Y) 0) as [H0|H0].
    + rewrite H0 in Hdm. nia.
    + pose proof (Zdigits2_bounds (X / Y) ltac:(lia)) as [_ Hhi].
      assert (Hd : Zdigits2 (X / Y) ≤ 53 + (E - e)).
      { unfold E. rewrite fexp_eq. lia. }
      assert (2 ^ Zdigits2 (X / Y) ≤ 2 ^ (53 + (E - e))) by (apply Z.pow_le_mono_r; lia).
      rewrite Z.pow_add_r in H by lia. nia.
  - intros Hnormal.
    assert (HE : E = Zdigits2 (X / Y) + e - 53) by (unfold E in *; rewrite fexp_eq in *; lia).
    assert (Hd : 53 ≤ Zdigits2 (X / Y)) by lia.
    assert (Hq0 : 0 < X / Y).
    { destruct (Z.eq_dec (X / Y) 0) as [H0|H0]; [|lia]. rewrite H0, Zdigits2_0 in Hd. lia. }
    pose proof (Zdigits2_bounds (X / Y) Hq0) as [Hlo _].
    replace (Zdigits2 (X / Y) - 1) with (52 + (E - e)) in Hlo by lia.
    rewrite Z.pow_add_r in Hlo by lia.
    apply rne_ge; [done|]. nia.
Qed.

(** A larger value is not rounded at a lower exponent. *)
Lemma round_at_exponent_mono (X Y e X' Y' e' : Z) :
  0 ≤ X → 0 < Y → 0 ≤ X' → 0 < Y' →
  e ≤ fexp prec emax (Zdigits2 (X / Y) + e) →
  vle X Y e X' Y' e' →
  fexp prec emax (Zdigits2 (X / Y) + e) ≤ fexp prec emax (Zdigits2 (X' / Y') + e').
Proof.
  intros HX HY HX' HY' He Hle.
  pose proof (Z.div_mod X Y ltac:(lia)) as Hdm.
  pose proof (Z.mod_pos_bound X Y HY) as Hrho.
  pose proof (Z.div_mod X' Y' ltac:(lia)) as Hdm'.
  pose proof (Z.mod_pos_bound X' Y' HY') as Hrho'.
  pose proof (Z.div_pos X Y HX HY) as Hq.
  pose proof (Z.div_pos X' Y' HX' HY') as Hq'.
  destruct (Z.eq_dec (X / Y) 0) as [H0|H0].
  { rewrite H0, Zdigits2_0 in *. rewrite fexp_eq in He.
    replace (fexp prec emax (0 + e)) with (-1074) by (rewrite fexp_eq; lia).
    apply fexp_ge_emin. }
  apply fexp_mono.
  pose proof (Zdigits2_bounds (X / Y) ltac:(lia)) as [Hlo _].
  pose proof (Zdigits2_pos (X / Y) ltac:(lia)) as Hd.
  assert (Hhi' : X' / Y' + 1 ≤ 2 ^ Zdigits2 (X' / Y')).
  { destruct (Z.eq_dec (X' / Y') 0) as [H0'|H0']; [by rewrite H0'|].
    pose proof (Zdigits2_bounds (X' / Y') ltac:(lia)). lia. }
  pose proof (Zdigits2_nonneg (X' / Y') Hq') as Hd'.
  unfold vle in Hle. set (c := Z.min e e') in *.
  set (A := 2 ^ (Zdigits2 (X / Y) - 1)) in *. set (A' := 2 ^ Zdigits2 (X' / Y')) in *.
  set (B := 2 ^ (e - c)) in *. set (B' := 2 ^ (e' - c)) in *.
  assert (HA : 0 < A) by (apply Z.pow_pos_nonneg; lia).
  assert (HA' : 0 < A') by (apply Z.pow_pos_nonneg; lia).
  assert (HB : 0 < B) by (apply Z.pow_pos_nonneg; lia).
  assert (HB' : 0 < B') by (apply Z.pow_pos_nonneg; lia).
  assert (H1 : A * Y ≤ X) by nia.
  assert (H2 : X' < A' * Y') by nia.
  assert (H3 : A * B < A' * B').
  { assert (A * B * (Y * Y') ≤ X * Y' * B) by nia.
    assert (X' * Y * B' < A' * B' * (Y * Y')) by nia.
    assert (0 < Y * Y') by nia. nia. }
  unfold A, A', B, B' in H3. rewrite <- !Z.pow_add_r in H3 by lia.
  apply Z.pow_lt_mono_r_iff in H3; lia.
Qed.

(** The comparison of two rounded mantissas at their exponents. *)
Lemma encode_leb (m E m' E' : Z) :
  -1074 ≤ E → 0 ≤ m ≤ 2 ^ 53 → (-1074 < E → 2 ^ 52 ≤ m) →
  -1074 ≤ E' → 0 ≤ m' ≤ 2 ^ 53 → (-1074 < E' → 2 ^ 52 ≤ m') →
  E ≤ E' → (E = E' → m ≤ m') →
  SFleb (encode m E) (encode m' E') = true.
Proof.
  intros HE Hm Hn HE' Hm' Hn' HEE Hmm.
  rewrite !encode_spec by done.
  assert (Hcmp : ∀ a b : Z, 0 < a → 0 < b → a ≤ b →
            (Pos.compare_cont Eq (Z.to_pos a) (Z.to_pos b) = Lt
             ∨ Pos.compare_cont Eq (Z.to_pos a) (Z.to_pos b) = Eq)).
  { intros a b Ha Hb Hab. change (Pos.compare_cont Eq) with Pos.compare.
    destruct (Pos.compare_spec (Z.to_pos a) (Z.to_pos b)); [by right|by left|lia]. }
  destruct (Z.eqb_spec m 0), (Z.eqb_spec m' 0), (Z.eqb_spec m (2 ^ 53)),
    (Z.eqb_spec m' (2 ^ 53)), (Z.leb_spec (E + 1) 971), (Z.leb_spec (E' + 1) 971),
    (Z.leb_spec E 971), (Z.leb_spec E' 971); try lia; try done;
    unfold SFleb, SFcompare;
    try (destruct (Z.compare_spec (E + 1) (E' + 1)); try lia);
    try (destruct (Z.compare_spec (E + 1) E'); try lia);
    try (destruct (Z.compare_spec E (E' + 1)); try lia);
    try (destruct (Z.compare_spec E E'); try lia);
    try done;
    try (destruct (Hcmp m m' ltac:(lia) ltac:(lia) ltac:(lia)) as [-> | ->]; done);
    try (destruct (Hcmp (2 ^ 52) m' ltac:(lia) ltac:(lia) ltac:(lia)) as [Hc|Hc];
         change (Z.to_pos (2 ^ 52)) with (2 ^ 52)%positive in Hc; rewrite Hc; done).
Qed.

Lemma round_at_mono (X Y e X' Y' e' : Z) :
  0 ≤ X → 0 < Y → 0 ≤ X' → 0 < Y' →
  e ≤ fexp prec emax (Zdigits2 (X / Y) + e) →
  e' ≤ fexp prec emax (Zdigits2 (X' / Y') + e') →
  vle X Y e X' Y' e' →
  SFleb (round_at X Y e) (round_at X' Y' e') = true.
Proof.
  intros HX HY HX' HY' He He' Hle.
  pose proof (round_at_exponent_mono X Y e X' Y' e' HX HY HX' HY' He Hle) as HEE.
  destruct (round_at_mantissa X Y e HX HY He) as (HE & Hm & Hn).
  destruct (round_at_mantissa X' Y' e' HX' HY' He') as (HE' & Hm' & Hn').
  unfold round_at.
  set (E := fexp prec emax (Zdigits2 (X / Y) + e)) in *.
  set (E' := fexp prec emax (Zdigits2 (X' / Y') + e')) in *.
  apply encode_leb; try done.
  intros Heq.
  pose proof (Z.pow_pos_nonneg 2 (E - e) ltac:(lia) ltac:(lia)) as Hp.
  pose proof (Z.pow_pos_nonneg 2 (E' - e') ltac:(lia) ltac:(lia)) as Hp'.
  apply rne_mono; [nia|nia|].
  unfold vle in Hle. set (c := Z.min e e') in *.
  set (k := E - e - e' + c).
  assert (Hk : 0 ≤ k) by (unfold k, c; lia).
  replace (E' - e') with ((e - c) + k) by (unfold k; lia).
  replace (E - e) with ((e' - c) + k) by (unfold k; lia).
  rewrite !Z.pow_add_r by (unfold c; lia).
  pose proof (Z.pow_pos_nonneg 2 k ltac:(lia) Hk) as Hpk.
  pose proof (Z.pow_pos_nonneg 2 (e - c) ltac:(lia) ltac:(unfold c; lia)).
  pose proof (Z.pow_pos_nonneg 2 (e' - c) ltac:(lia) ltac:(unfold c; lia)).
  nia.
Qed.

(** *** Numbers in canonical form *)

Lemma valid_finite (sg : bool) (m : positive) (e : Z) :
  valid_binary (S754_finite sg m e) = true →
  -1074 ≤ e ≤ 971 ∧ Zdigits2 (Zpos m) ≤ 53 ∧ (-1074 < e → Zdigits2 (Zpos m) = 53)
  ∧ fexp prec emax (Zdigits2 (Zpos m) + e) = e.
Proof.
  unfold SpecFloat.valid_binary, bounded, canonical_mantissa. intros [Hc He]%andb_prop.
  apply Z.eqb_eq in Hc. apply Z.leb_le in He. change (emax - prec) with 971 in He.
  change (Z.pos (digits2_pos m)) with (Zdigits2 (Zpos m)) in Hc.
  pose proof Hc as Hc'. rewrite fexp_eq in Hc'. lia.
Qed.

(** The value of a number in canonical form decides the comparison. *)
Lemma canonical_lt (m m' : positive) (e e' : Z) :
  valid_binary (S754_finite false m e) = true →
  valid_binary (S754_finite false m' e') = true →
  e < e' → Zpos m * 2 ^ (e - e + 0) < Zpos m' * 2 ^ (e' - e).
Proof.
  intros (He & Hd & _ & _)%valid_finite (He' & _ & Hn' & _)%valid_finite Hee.
  pose proof (Zdigits2_bounds (Zpos m) ltac:(lia)) as [_ Hhi].
  pose proof (Zdigits2_bounds (Zpos m') ltac:(lia)) as [Hlo' _].
  rewrite Hn' in Hlo' by lia. change (2 ^ (53 - 1)) with (2 ^ 52) in Hlo'.
  assert (2 ^ Zdigits2 (Z.pos m) ≤ 2 ^ 53) by (apply Z.pow_le_mono_r; lia).
  replace (e - e + 0) with 0 by lia. rewrite Z.pow_0_r, Z.mul_1_r.
  assert (2 ^ 1 ≤ 2 ^ (e' - e)) by (apply Z.pow_le_mono_r; lia).
  change (2 ^ 1) with 2 in *. change (2 ^ 53) with (2 * 2 ^ 52) in *. nia.
Qed.

Lemma SFleb_finite_vle (m m' : positive) (e e' : Z) (k k' : Z) :
  valid_binary (S754_finite false m e) = true →
  valid_binary (S754_finite false m' e') = true →
  SFleb (S754_finite false m e) (S754_finite false m' e') = true →
  0 ≤ k → 0 ≤ k' → k - k' = e - e' →
  Zpos m * 2 ^ k ≤ Zpos m' * 2 ^ k'.
Proof.
  intros Hv Hv' Hle Hk Hk' Hkk. unfold SFleb, SFcompare in Hle.
  change (PosDef.Pos.compare_cont Eq) with Pos.compare in Hle.
  destruct (Z.compare_spec e e') as [Heq|Hlt|Hgt]; [| |done].
  - destruct (Pos.compare_spec m m'); try done.
    + replace k' with k by lia. subst. lia.
    + replace k' with k by lia.
      pose proof (Z.pow_pos_nonneg 2 k ltac:(lia) Hk). nia.
  - pose proof (canonical_lt m m' e e' Hv Hv' Hlt) as H.
    replace (e - e + 0) with 0 in H by lia. rewrite Z.pow_0_r, Z.mul_1_r in H.
    replace k' with (k + (e' - e)) by lia. rewrite Z.pow_add_r by lia.
    pose proof (Z.pow_pos_nonneg 2 k ltac:(lia) Hk).
    pose proof (Z.pow_pos_nonneg 2 (e' - e) ltac:(lia) ltac:(lia)). nia.
Qed.

(** A number in canonical form is its own rounding. *)
Lemma round_at_self (m : positive) (e : Z) :
  valid_binary (S754_finite false m e) = true →
  e ≤ fexp prec emax (Zdigits2 (Zpos m / 1) + e)
  ∧ round_at (Zpos m) 1 e = S754_finite false m e.
Proof.
  intros (He & Hd & Hn & Hc)%valid_finite. rewrite Z.div_1_r. split; [lia|].
  unfold round_at. rewrite Z.div_1_r, Hc, Z.sub_diag. change (1 * 2 ^ 0) with 1.
  assert (Hrne : rne (Zpos m) 1 = Zpos m).
  { unfold rne. rewrite Z.mod_1_r, Z.div_1_r. done. }
  rewrite Hrne.
  pose proof (Zdigits2_bounds (Zpos m) ltac:(lia)) as [Hlo Hhi].
  assert (2 ^ Zdigits2 (Z.pos m) ≤ 2 ^ 53) by (apply Z.pow_le_mono_r; lia).
  rewrite encode_spec; [|lia|lia|].
  - destruct (Z.eqb_spec (Zpos m) 0); [lia|].
    destruct (Z.eqb_spec (Zpos m) (2 ^ 53)); [lia|].
    destruct (Z.leb_spec e 971); [done|lia].
  - intros Hnorm. rewrite (Hn Hnorm) in Hlo. exact Hlo.
Qed.

(** *** Division *)

Lemma new_location_located (X Y : Z) :
  0 ≤ X → 0 < Y →
  located X Y (shr_record_of_loc (X / Y) (new_location Y (X mod Y))).
Proof.
  intros HX HY. pose proof (Z.mod_pos_bound X Y HY) as Hrho.
  assert (Hpar : Z.even Y = false → 2 * (X mod Y) ≠ Y).
  { intros H Heq. rewrite <- Heq, Z.even_mul in H. done. }
  set (r := X mod Y) in *.
  assert (Hshape : ∀ l, shr_m (shr_record_of_loc (X / Y) l) = X / Y).
  { by intros [|[]]. }
  unfold located. fold r. rewrite Hshape. split; [done|].
  unfold new_location, new_location_even, new_location_odd.
  destruct (Z.even Y) eqn:Heven; destruct (Z.eqb_spec r 0) as [Hr0|Hr0];
    try destruct (Z.compare_spec (2 * r) Y);
    try destruct (Z.compare_spec (2 * r + 1) Y);
    simpl; destruct (Z.leb_spec Y (2 * r)), (Z.eqb_spec (2 * r) Y);
    try specialize (Hpar eq_refl); simpl; try done; lia.
Qed.

(** The quotient of two positive numbers in canonical form is the rounding
    of the quotient of their values. *)
Lemma SFdiv_round_at (m1 m2 : positive) (e1 e2 : Z) :
  valid_binary (S754_finite false m1 e1) = true →
  valid_binary (S754_finite false m2 e2) = true →
  ∃ s e', 0 ≤ s ∧ s + e' = e1 - e2
    ∧ e' ≤ fexp prec emax (Zdigits2 (Zpos m1 * 2 ^ s / Zpos m2) + e')
    ∧ SFdiv prec emax (S754_finite false m1 e1) (S754_finite false m2 e2)
      = round_at (Zpos m1 * 2 ^ s) (Zpos m2) e'.
Proof.
  intros (He1 & Hd1 & Hn1 & Hc1)%valid_finite (He2 & Hd2 & Hn2 & Hc2)%valid_finite.
  set (d := fexp prec emax (Zdigits2 (Zpos m1) + e1 - (Zdigits2 (Zpos m2) + e2))).
  set (e' := Z.min d (e1 - e2)). set (s := e1 - e2 - e').
  assert (Ed : d = Z.max (Zdigits2 (Zpos m1) + e1 - (Zdigits2 (Zpos m2) + e2) - 53) (-1074))
    by (unfold d; apply fexp_eq).
  assert (Ee' : e' = Z.min d (e1 - e2)) by done.
  assert (Es : s = e1 - e2 - e') by done.
  pose proof (Zdigits2_pos (Zpos m1) ltac:(lia)) as Hp1.
  pose proof (Zdigits2_pos (Zpos m2) ltac:(lia)) as Hp2.
  assert (Hs : 0 ≤ s) by lia.
  exists s, e'. split; [done|]. split; [lia|].
  pose proof (Z.pow_pos_nonneg 2 s ltac:(lia) Hs) as Hpow.
  set (X := Zpos m1 * 2 ^ s). assert (HX : 0 ≤ X) by (unfold X; nia).
  pose proof (Z.div_pos X (Zpos m2) HX ltac:(lia)) as Hq.
  assert (Hexp : e' ≤ fexp prec emax (Zdigits2 (X / Zpos m2) + e')).
  { destruct (Z.le_gt_cases e' (-1074)) as [Hlow|Hhigh].
    { pose proof (fexp_ge_emin (Zdigits2 (X / Z.pos m2) + e')). lia. }
    (* above emin the quotient has at least 53 digits *)
    assert (Hsd : s = 53 - Zdigits2 (Zpos m1) + Zdigits2 (Zpos m2)) by lia.
    pose proof (Zdigits2_bounds (Zpos m1) ltac:(lia)) as [Hlo1 _].
    pose proof (Zdigits2_bounds (Zpos m2) ltac:(lia)) as [_ Hhi2].
    assert (Hbig : 2 ^ 52 * Zpos m2 ≤ X).
    { unfold X. rewrite Hsd.
      set (a := Zdigits2 (Z.pos m1)) in *. set (b := Zdigits2 (Z.pos m2)) in *.
      replace (53 - a + b) with ((53 - a) + b) by lia.
      rewrite Z.pow_add_r by lia.
      assert (2 ^ 52 ≤ Z.pos m1 * 2 ^ (53 - a)).
      { replace 52 with ((a - 1) + (53 - a)) at 1 by lia.
        rewrite Z.pow_add_r by lia.
        pose proof (Z.pow_pos_nonneg 2 (53 - a) ltac:(lia) ltac:(lia)).
        nia. }
      pose proof (Z.pow_pos_nonneg 2 b ltac:(lia) ltac:(lia)).
      pose proof (Z.pow_pos_nonneg 2 (53 - a) ltac:(lia) ltac:(lia)).
      nia. }
    assert (Hq52 : 2 ^ 52 ≤ X / Zpos m2) by (apply Z.div_le_lower_bound; lia).
    assert (Hdq : 53 ≤ Zdigits2 (X / Zpos m2)).
    { pose proof (Zdigits2_bounds (X / Zpos m2) ltac:(lia)) as [_ Hhi].
      destruct (Z.le_gt_cases 53 (Zdigits2 (X / Z.pos m2))) as [|Hlt]; [done|].
      assert (2 ^ Zdigits2 (X / Z.pos m2) ≤ 2 ^ 52) by (apply Z.pow_le_mono_r; lia).
      lia. }
    rewrite fexp_eq. lia. }
  split; [exact Hexp|].
  unfold SFdiv, SFdiv_core_binary. fold d. fold e'. fold s.
  assert (Hm' : match s with
                | 0 => Z.pos m1
                | Z.pos _ => Z.shiftl (Z.pos m1) s
                | Z.neg _ => 0
                end = X).
  { unfold X. destruct s as [|p|p] eqn:Es2; [by rewrite Z.mul_1_r| |lia].
    by rewrite Z.shiftl_mul_pow2 by lia. }
  rewrite Hm'.
  assert (Heucl : Z.div_eucl X (Zpos m2) = (X / Zpos m2, X mod Zpos m2)).
  { unfold Z.div, Z.modulo. by destruct (Z.div_eucl X (Z.pos m2)). }
  rewrite Heucl. simpl xorb.
  apply binary_round_aux_round_at; [done|lia| |done].
  by apply new_location_located.
Qed.

(** The rounding of a value that is not negative is not negative, and
    is a number. *)
Lemma round_at_shape (X Y e : Z) :
  0 ≤ X → 0 < Y → e ≤ fexp prec emax (Zdigits2 (X / Y) + e) →
  round_at X Y e = S754_zero false
  ∨ (∃ m e1, round_at X Y e = S754_finite false m e1)
  ∨ round_at X Y e = S754_infinity false.
Proof.
  intros HX HY He. destruct (round_at_mantissa X Y e HX HY He) as (HE & Hm & Hn).
  unfold round_at. rewrite encode_spec by done.
  destruct (_ =? 0); [by left|]. right.
  destruct (_ =? 2 ^ 53); [destruct (_ <=? 971)|destruct (_ <=? 971)]; eauto.
Qed.

Lemma SFleb_zero_round_at (sg : bool) (X Y e : Z) :
  0 ≤ X → 0 < Y → e ≤ fexp prec emax (Zdigits2 (X / Y) + e) →
  SFleb (S754_zero sg) (round_at X Y e) = true.
Proof.
  intros HX HY He.
  by destruct (round_at_shape X Y e HX HY He) as [->|[(m & e1 & ->)| ->]].
Qed.

Lemma SFleb_round_at_infinity (X Y e : Z) :
  0 ≤ X → 0 < Y → e ≤ fexp prec emax (Zdigits2 (X / Y) + e) →
  SFleb (round_at X Y e) (S754_infinity false) = true.
Proof.
  intros HX HY He.
  by destruct (round_at_shape X Y e HX HY He) as [->|[(m & e1 & ->)| ->]].
Qed.

Lemma SFdiv_mono_finite (mb ma mt : positive) (eb ea et : Z) :
  valid_binary (S754_finite false mb eb) = true →
  valid_binary (S754_finite false ma ea) = true →
  valid_binary (S754_finite false mt et) = true →
  SFleb (S754_finite false mb eb) (S754_finite false ma ea) = true →
  SFleb (SFdiv prec emax (S754_finite false mb eb) (S754_finite false mt et))
        (SFdiv prec emax (S754_finite false ma ea) (S754_finite false mt et)) = true.
Proof.
  intros Hb Ha Ht Hle.
  destruct (SFdiv_round_at mb mt eb et Hb Ht) as (sb & eb' & Hsb & Heb & Hexpb & ->).
  destruct (SFdiv_round_at ma mt ea et Ha Ht) as (sa & ea' & Hsa & Hea & Hexpa & ->).
  pose proof (Z.pow_pos_nonneg 2 sb ltac:(lia) Hsb).
  pose proof (Z.pow_pos_nonneg 2 sa ltac:(lia) Hsa).
  apply round_at_mono; [nia|lia|nia|lia|done|done|].
  unfold vle. set (c := Z.min eb' ea').
  pose proof (SFleb_finite_vle mb ma eb ea (sb + (eb' - c)) (sa + (ea' - c)) Hb Ha Hle
                ltac:(unfold c; lia) ltac:(unfold c; lia) ltac:(lia)) as Hv.
  rewrite !Z.pow_add_r in Hv by (unfold c; lia). nia.
Qed.

(** Division by a positive finite number keeps the order of numbers that
    are not negative. *)
Lemma SFdiv_mono (b a : spec_float) (mt : positive) (et : Z) :
  valid_binary b = true → valid_binary a = true →
  valid_binary (S754_finite false mt et) = true →
  SFleb (S754_zero false) b = true → SFleb b a = true →
  SFleb (SFdiv prec emax b (S754_finite false mt et))
        (SFdiv prec emax a (S754_finite false mt et)) = true.
Proof.
  intros Hb Ha Ht H0b Hba.
  destruct b as [sb|sb| |sb mb eb]; try done; try (destruct sb; [done|]);
    destruct a as [sa|sa| |sa ma ea]; try done; try (destruct sa; [done|]).
  - by destruct sb.
  - destruct (SFdiv_round_at ma mt ea et Ha Ht) as (s & e' & Hs & He & Hexp & Heq).
    change (SFdiv prec emax (S754_zero sb) (S754_finite false mt et))
      with (S754_zero (xorb sb false)).
    rewrite Heq. pose proof (Z.pow_pos_nonneg 2 s ltac:(lia) Hs).
    apply SFleb_zero_round_at; [nia|lia|done].
  - done.
  - destruct (SFdiv_round_at mb mt eb et Hb Ht) as (s & e' & Hs & He & Hexp & Heq).
    change (SFdiv prec emax (S754_infinity false) (S754_finite false mt et))
      with (S754_infinity false).
    rewrite Heq. pose proof (Z.pow_pos_nonneg 2 s ltac:(lia) Hs).
    apply SFleb_round_at_infinity; [nia|lia|done].
  - by apply SFdiv_mono_finite.
Qed.

(** *** Addition *)

Lemma Pos_iter_xO (m d : positive) : Zpos (Pos.iter xO m d) = Zpos m * 2 ^ Zpos d.
Proof.
  induction d as [|d IH] using Pos.peano_ind.
  - simpl. lia.
  - rewrite Pos.iter_succ, Pos2Z.inj_xO, IH, Pos2Z.inj_succ, Z.pow_succ_r by lia. lia.
Qed.

Lemma shl_align_spec (m : positive) (e e' : Z) :
  (shl_align m e e').2 = Z.min e e'
  ∧ Zpos (shl_align m e e').1 = Zpos m * 2 ^ (e - Z.min e e').
Proof.
  unfold shl_align. destruct (e' - e) as [|d|d] eqn:Hd; simpl.
  - replace (Z.min e e') with e by lia. rewrite Z.sub_diag. lia.
  - replace (Z.min e e') with e by lia. rewrite Z.sub_diag. lia.
  - replace (Z.min e e') with e' by lia. split; [done|].
    rewrite Pos_iter_xO. f_equal. f_equal. lia.
Qed.

Lemma Zdigits2_shift (m k : Z) : 0 < m → 0 ≤ k → Zdigits2 (m * 2 ^ k) = Zdigits2 m + k.
Proof.
  intros Hm Hk. pose proof (Zdigits2_bounds m Hm) as [Hlo Hhi].
  pose proof (Zdigits2_pos m Hm).
  pose proof (Z.pow_pos_nonneg 2 k ltac:(lia) Hk).
  apply Zdigits2_unique; [|nia].
  replace (Zdigits2 m + k - 1) with ((Zdigits2 m - 1) + k) by lia.
  rewrite !Z.pow_add_r by lia. nia.
Qed.

(** The sum of two positive numbers in canonical form is the rounding of
    the sum of their values. *)
Lemma SFadd_round_at (ma mb : positive) (ea eb : Z) :
  ∃ e0, e0 ≤ ea ∧ e0 ≤ eb
    ∧ let M := Zpos ma * 2 ^ (ea - e0) + Zpos mb * 2 ^ (eb - e0) in
      0 < M
      ∧ e0 ≤ fexp prec emax (Zdigits2 (M / 1) + e0)
      ∧ SFadd prec emax (S754_finite false ma ea) (S754_finite false mb eb)
        = round_at M 1 e0.
Proof.
  unfold SFadd. set (ez := Z.min ea eb).
  destruct (shl_align_spec ma ea ez) as [_ Ha]. destruct (shl_align_spec mb eb ez) as [_ Hb].
  replace (Z.min ea ez) with ez in Ha by (unfold ez; lia).
  replace (Z.min eb ez) with ez in Hb by (unfold ez; lia).
  simpl cond_Zopp.
  set (pa := (shl_align ma ea ez).1) in *. set (pb := (shl_align mb eb ez).1) in *.
  change (Z.pos pa + Z.pos pb) with (Zpos (pa + pb)).
  unfold binary_normalize, binary_round.
  set (F := fexp prec emax (Z.pos (digits2_pos (pa + pb)) + ez)).
  destruct (shl_align_spec (pa + pb) ez F) as [He0 Hmz].
  destruct (shl_align (pa + pb) ez F) as [mz e0]. simpl in He0, Hmz. subst e0.
  set (e0 := Z.min ez F) in *.
  exists e0. split; [unfold e0, ez; lia|]. split; [unfold e0, ez; lia|].
  assert (HM : Zpos mz = Zpos ma * 2 ^ (ea - e0) + Zpos mb * 2 ^ (eb - e0)).
  { rewrite Hmz, Pos2Z.inj_add, Ha, Hb.
    replace (ea - e0) with ((ea - ez) + (ez - e0)) by lia.
    replace (eb - e0) with ((eb - ez) + (ez - e0)) by lia.
    rewrite !Z.pow_add_r by (unfold e0, ez; lia). lia. }
  cbv zeta. rewrite <- HM. split; [lia|].
  assert (Hexp : e0 ≤ fexp prec emax (Zdigits2 (Z.pos mz / 1) + e0)).
  { rewrite Z.div_1_r, Hmz, Zdigits2_shift by (unfold e0; lia).
    replace (Zdigits2 (Z.pos (pa + pb)) + (ez - e0) + e0)
      with (Z.pos (digits2_pos (pa + pb)) + ez) by (simpl; lia).
    fold F. unfold e0. lia. }
  split; [done|].
  apply binary_round_aux_round_at; [lia|lia| |done].
  unfold located. rewrite Z.div_1_r, Z.mod_1_r. done.
Qed.

(** Adding a number that is not negative does not give less. *)
Lemma SFadd_ge (a b : spec_float) :
  valid_binary b = true →
  SFleb (S754_zero false) a = true → SFleb (S754_zero false) b = true →
  SFleb b (SFadd prec emax a b) = true.
Proof.
  intros Hb H0a H0b.
  assert (Hrefl : ∀ m e, SFleb (S754_finite false m e) (S754_finite false m e) = true).
  { intros m e. unfold SFleb, SFcompare. by rewrite Z.compare_refl, Pos.compare_cont_refl. }
  destruct a as [sa|sa| |sa ma ea]; try done; try (destruct sa; [done|]);
    destruct b as [sb|sb| |sb mb eb]; try done; try (destruct sb; [done|]);
    try apply Hrefl.
  - by destruct sa, sb.
  - by destruct sa.
  - reflexivity.
  - reflexivity.
  - destruct (SFadd_round_at ma mb ea eb) as (e0 & Hea & Heb & HM & Hexp & ->).
    destruct (round_at_self mb eb Hb) as [Hexpb <-].
    pose proof (Z.pow_pos_nonneg 2 (ea - e0) ltac:(lia) ltac:(lia)).
    pose proof (Z.pow_pos_nonneg 2 (eb - e0) ltac:(lia) ltac:(lia)).
    apply round_at_mono; [lia|lia|lia|lia|done|done|].
    unfold vle. replace (Z.min eb e0) with e0 by lia.
    rewrite Z.sub_diag, Z.pow_0_r. nia.
Qed.

(** *** The order of the numbers *)

Lemma SFleb_trans (a b c : spec_float) :
  SFleb a b = true → SFleb b c = true → SFleb a c = true.
Proof.
  unfold SFleb, SFcompare.
  destruct a as [sa|sa| |sa ma ea], b as [sb|sb| |sb mb eb], c as [sc|sc| |sc mc ec];
    try destruct sa; try destruct sb; try destruct sc; try done;
    change (PosDef.Pos.compare_cont Eq) with Pos.compare;
    destruct (Z.compare_spec ea eb), (Z.compare_spec eb ec), (Z.compare_spec ea ec);
    simpl; try done; try lia;
    destruct (Pos.compare_spec ma mb), (Pos.compare_spec mb mc), (Pos.compare_spec ma mc);
    simpl; try done; try lia.
Qed.

Lemma SFleb_not_SFltb (a b : spec_float) : SFleb a b = true → SFltb b a = false.
Proof.
  unfold SFleb, SFltb, SFcompare.
  destruct a as [sa|sa| |sa ma ea], b as [sb|sb| |sb mb eb];
    try destruct sa; try destruct sb; try done;
    change (PosDef.Pos.compare_cont Eq) with Pos.compare;
    destruct (Z.compare_spec ea eb), (Z.compare_spec eb ea);
    simpl; try done; try lia;
    destruct (Pos.compare_spec ma mb), (Pos.compare_spec mb ma);
    simpl; try done; try lia.
Qed.

Lemma SFleb_SFltb_trans (a b c : spec_float) :
  SFleb a b = true → SFltb b c = true → SFltb a c = true.
Proof.
  unfold SFleb, SFltb, SFcompare.
  destruct a as [sa|sa| |sa ma ea], b as [sb|sb| |sb mb eb], c as [sc|sc| |sc mc ec];
    try destruct sa; try destruct sb; try destruct sc; try done;
    change (PosDef.Pos.compare_cont Eq) with Pos.compare;
    destruct (Z.compare_spec ea eb), (Z.compare_spec eb ec), (Z.compare_spec ea ec);
    simpl; try done; try lia;
    destruct (Pos.compare_spec ma mb), (Pos.compare_spec mb mc), (Pos.compare_spec ma mc);
    simpl; try done; try lia.
Qed.

(** A double above 0 is a positive finite number or the positive
    infinity; when it is not above [DBL_MAX], it is finite. *)
Lemma positive_double (t : float) :
  (0 <? t)%float = true →
  (∃ m e, Prim2SF t = S754_finite false m e) ∨ Prim2SF t = S754_infinity false.
Proof.
  rewrite ltb_spec. change (Prim2SF 0) with (S754_zero false).
  destruct (Prim2SF t) as [s|s| |s m e]; try done; destruct s; try done; eauto.
Qed.

Lemma positive_finite_double (t : float) :
  (0 <? t)%float = true → (0x1.fffffffffffffp+1023 <? t)%float = false →
  ∃ m e, Prim2SF t = S754_finite false m e.
Proof.
  intros [H|H]%positive_double; [done|]. by rewrite ltb_spec, H.
Qed.

Lemma leb_add (a b : float) :
  (0 <=? a)%float = true → (0 <=? b)%float = true → (b <=? a + b)%float = true.
Proof.
  rewrite !leb_spec, add_spec. change (Prim2SF 0) with (S754_zero false).
  apply SFadd_ge, Prim2SF_valid.
Qed.

Lemma leb_div (a b t : float) :
  (0 <=? b)%float = true → (b <=? a)%float = true →
  (0 <? t)%float = true → (0x1.fffffffffffffp+1023 <? t)%float = false →
  (b / t <=? a / t)%float = true.
Proof.
  intros H0b Hba Ht Hfin. destruct (positive_finite_double t Ht Hfin) as (m & e & Et).
  pose proof (Prim2SF_valid t) as Hvt. rewrite Et in Hvt.
  rewrite !leb_spec, !div_spec, Et in *. change (Prim2SF 0) with (S754_zero false) in H0b.
  apply SFdiv_mono; [apply Prim2SF_valid..|done|done|done].
Qed.

Lemma div_zero (t : float) : (0 <? t)%float = true → (0 / t)%float = 0%float.
Proof.
  intros Ht. apply Prim2SF_inj. rewrite div_spec.
  change (Prim2SF 0) with (S754_zero false).
  by destruct (positive_double t Ht) as [(m & e & ->)| ->].
Qed.

End Binary64Proofs.

(** ** IEEE doubles: laws and runs *)

Module IEEEProofs.
Import Floats IEEE.

Lemma SFltb_irrefl (a : spec_float) : SFltb a a = false.
Proof.
  unfold SFltb, SFcompare. destruct a as [s|s| |s m e]; try done.
  - by destruct s.
  - rewrite Z.compare_refl, Pos.compare_cont_refl. by destruct s.
Qed.

Lemma SFltb_trans (a b c : spec_float) :
  SFltb a b = true → SFltb b c = true → SFltb a c = true.
Proof.
  unfold SFltb, SFcompare.
  destruct a as [sa|sa| |sa ma ea], b as [sb|sb| |sb mb eb], c as [sc|sc| |sc mc ec];
    try destruct sa; try destruct sb; try destruct sc; try done;
    change (PosDef.Pos.compare_cont Eq) with Pos.compare;
    destruct (Z.compare_spec ea eb), (Z.compare_spec eb ec), (Z.compare_spec ea ec);
    simpl; try done; try lia;
    destruct (Pos.compare_spec ma mb), (Pos.compare_spec mb mc), (Pos.compare_spec ma mc);
    simpl; try done; try lia.
Qed.

#[export] Instance Float64_of_FltOrder acos show : @FltOrder float (Float64_of acos show).
Proof.
  split; simpl.
  - intros a. rewrite ltb_spec. apply SFltb_irrefl.
  - intros a b c. rewrite !ltb_spec. apply SFltb_trans.
  - reflexivity.
Qed.

#[export] Instance binary64_FltOrder : FltOrder float.
Proof. apply Float64_of_FltOrder. Qed.

Lemma div_eucl_shiftl (m : positive) (k : Z) :
  (0 ≤ k)%Z → Z.div_eucl (Z.shiftl (Zpos m) k) (Zpos m) = (2 ^ k, 0)%Z.
Proof.
  intros Hk. rewrite Z.shiftl_mul_pow2 by done. rewrite Z.mul_comm.
  destruct (Z.div_eucl (2 ^ k * Z.pos m) (Z.pos m)) as [q r] eqn:E.
  assert (Hq : q = (2 ^ k * Z.pos m / Z.pos m)%Z) by (unfold Z.div; by rewrite E).
  assert (Hr : r = ((2 ^ k * Z.pos m) mod Z.pos m)%Z) by (unfold Z.modulo; by rewrite E).
  rewrite Z.div_mul in Hq by done. rewrite Z.mod_mul in Hr by done. by subst.
Qed.

Lemma SF64div_self (m : positive) (e : Z) :
  SF64div (S754_finite false m e) (S754_finite false m e) = Prim2SF 1.
Proof.
  unfold SF64div, SFdiv, SFdiv_core_binary. rewrite !Z.sub_diag.
  change (Z.min (fexp prec emax 0) 0) with (-53)%Z.
  change (0 - -53)%Z with 53%Z. cbv iota.
  rewrite div_eucl_shiftl by done.
  replace (new_location (Z.pos m) 0) with loc_Exact; [reflexivity|].
  unfold new_location. by destruct (Z.even (Z.pos m)).
Qed.

#[export] Instance Float64_of_FltDivSelf acos show : @FltDivSelf float (Float64_of acos show).
Proof.
  intros t. simpl. rewrite ltb_spec.
  change (Prim2SF 0) with (S754_zero false).
  destruct (Prim2SF t) as [s|s| |s m e] eqn:E; try done.
  - destruct s; [done|]. intros _. right.
    assert (t = infinity) as ->.
    { rewrite <- (SF2Prim_Prim2SF t), E. reflexivity. }
    split; [reflexivity|]. intros u. rewrite ltb_spec. reflexivity.
  - destruct s; [done|]. intros _. left.
    apply Prim2SF_inj. rewrite div_spec, E. apply SF64div_self.
Qed.

#[export] Instance binary64_FltDivSelf : FltDivSelf float.
Proof. apply Float64_of_FltDivSelf. Qed.

#[export] Instance Float64_of_FltMonotone acos show :
  @FltMonotone float (Float64_of acos show) fle64.
Proof.
  split; unfold fle64; simpl.
  - reflexivity.
  - intros a b c. rewrite !leb_spec. apply Binary64Proofs.SFleb_trans.
  - intros a b. rewrite leb_spec, ltb_spec. apply Binary64Proofs.SFleb_not_SFltb.
  - intros a b c. rewrite leb_spec, !ltb_spec. apply Binary64Proofs.SFleb_SFltb_trans.
  - apply Binary64Proofs.leb_add.
  - apply Binary64Proofs.leb_div.
  - apply Binary64Proofs.div_zero.
Qed.

#[export] Instance binary64_FltMonotone : FltMonotone float fle64.
Proof. apply Float64_of_FltMonotone. Qed.

Lemma doubled_materialize :
  ∀ i, i < numberOfFaces doubled → is_Some (triangle doubled i).
Proof.
  intros [|[|i]] Hi; [eexists; vm_compute; reflexivity..|].
  unfold numberOfFaces in Hi. simpl in Hi. lia.
Qed.

Lemma two_triangles_materialize :
  ∀ i, i < numberOfFaces two_triangles → is_Some (triangle two_triangles i).
Proof.
  intros [|[|i]] Hi; [eexists; vm_compute; reflexivity..|].
  unfold numberOfFaces in Hi. simpl in Hi. lia.
Qed.

Lemma closestPoint_first_minimum_witness :
  FltOrder float
  ∧ (∀ i, i < numberOfFaces doubled → is_Some (triangle doubled i))
  ∧ ∃ r, closestPoint doubled (P 0 0 1) = Some r ∧
    ((r = mkVec3 DBL_MAX DBL_MAX DBL_MAX
      ∧ ∀ i tri, triangle doubled i = Some tri →
          flt (distSquaredTo (P 0 0 1) tri) DBL_MAX = false)
     ∨ (∃ i tri, triangle doubled i = Some tri
          ∧ r = tri_closestPoint tri (P 0 0 1)
          ∧ flt (distSquaredTo (P 0 0 1) tri) DBL_MAX = true
          ∧ (∀ j tj, triangle doubled j = Some tj →
               flt (distSquaredTo (P 0 0 1) tj) (distSquaredTo (P 0 0 1) tri) = false)
          ∧ (∀ j tj, j < i → triangle doubled j = Some tj →
               distSquaredTo (P 0 0 1) tj ≠ distSquaredTo (P 0 0 1) tri))).
Proof.
  split; [exact binary64_FltOrder|]. split; [exact doubled_materialize|].
  exact (closestPoint_first_minimum doubled (P 0 0 1) doubled_materialize).
Defined.

Lemma empty_mesh_sentinels_witness :
  numberOfFaces (empty_mesh : TriangleMesh3 float) = 0
  ∧ closestPoint empty_mesh (P 1 2 3) = Some (mkVec3 DBL_MAX DBL_MAX DBL_MAX)
  ∧ closestDistance empty_mesh (P 1 2 3) = Some DBL_MAX
  ∧ actualClosestNormal empty_mesh (P 1 2 3) = Some (mkVec3 f1 f0 f0).
Proof.
  split; [reflexivity|].
  exact (empty_mesh_sentinels empty_mesh (P 1 2 3) eq_refl).
Defined.

Lemma getClosestIntersection_minimal_t_witness :
  FltOrder float
  ∧ (∀ i, i < numberOfFaces two_triangles → is_Some (triangle two_triangles i))
  ∧ (∀ tri, tri_intersects tri upward = false →
       flt (sri_t (tri_getClosestIntersection tri upward)) DBL_MAX = false)
  ∧ ∃ r, getClosestIntersection two_triangles upward no_hit = Some r
    ∧ ((∀ i tri, triangle two_triangles i = Some tri → tri_intersects tri upward = false)
       → r = no_hit)
    ∧ ((r = no_hit
        ∧ ∀ i tri, triangle two_triangles i = Some tri →
            flt (sri_t (tri_getClosestIntersection tri upward)) DBL_MAX = false)
       ∨ (∃ i tri, triangle two_triangles i = Some tri
            ∧ r = tri_getClosestIntersection tri upward
            ∧ tri_intersects tri upward = true
            ∧ flt (sri_t r) DBL_MAX = true
            ∧ (∀ j tj, triangle two_triangles j = Some tj →
                 flt (sri_t (tri_getClosestIntersection tj upward)) (sri_t r) = false)
            ∧ (∀ j tj, j < i → triangle two_triangles j = Some tj →
                 sri_t (tri_getClosestIntersection tj upward) ≠ sri_t r))).
Proof.
  split; [exact binary64_FltOrder|]. split; [exact two_triangles_materialize|].
  split; [exact (λ tri, vertexPrim_miss_sentinel tri upward)|].
  exact (getClosestIntersection_minimal_t two_triangles upward no_hit
           two_triangles_materialize (λ tri, vertexPrim_miss_sentinel tri upward)).
Defined.

(** Runs on doubles: a tie between two coincident faces, a nearest face,
    and a ray that points away from every face. *)
Example closestPoint_tie :
  closestPoint doubled (P 0 0 1) = Some (P 0 0 0).
Proof. vm_compute. reflexivity. Qed.

Example closestPoint_nearest :
  closestPoint two_triangles (P 0 0 5) = Some (P 0 0 1)
  ∧ closestDistance two_triangles (P 0 0 5) = Some 4%float.
Proof. split; vm_compute; reflexivity. Qed.

Example area_cache_on_doubles :
  (m ← computeAreaCache two_triangles; Some (_areaCache m))
  = Some [0; 0x1.999999999999ap-3; 1]%float
  ∧ (r ← sample two_triangles 0.5%float 0.25%float 0.25%float; Some r.1.1)
    = Some (P 0 0 1).
Proof. split; vm_compute; reflexivity. Qed.

Example getClosestIntersection_hit_and_miss :
  getClosestIntersection two_triangles upward no_hit = Some (1%float, P 0 0 0)
  ∧ getClosestIntersection two_triangles (mkRay3D (P 0 0 5) (P 0 0 1)) no_hit
    = Some no_hit.
Proof. split; vm_compute; reflexivity. Qed.


Lemma closestDistance_minimum_witness :
  FltOrder float
  ∧ (∀ i, i < numberOfFaces two_triangles → is_Some (triangle two_triangles i))
  ∧ ∃ d, closestDistance two_triangles (P 0 0 5) = Some d
    ∧ (∀ i tri, triangle two_triangles i = Some tri →
         flt (tri_closestDistance tri (P 0 0 5)) d = false)
    ∧ ((d = DBL_MAX
        ∧ ∀ i tri, triangle two_triangles i = Some tri →
            flt (tri_closestDistance tri (P 0 0 5)) DBL_MAX = false)
       ∨ (∃ i tri, triangle two_triangles i = Some tri
            ∧ d = tri_closestDistance tri (P 0 0 5)
            ∧ flt d DBL_MAX = true)).
Proof.
  split; [exact binary64_FltOrder|]. split; [exact two_triangles_materialize|].
  exact (closestDistance_minimum two_triangles (P 0 0 5) two_triangles_materialize).
Defined.

Lemma actualClosestNormal_of_closest_face_witness :
  FltOrder float
  ∧ (∀ i, i < numberOfFaces doubled → is_Some (triangle doubled i))
  ∧ ((actualClosestNormal doubled (P 0 0 1) = Some (mkVec3 f1 f0 f0)
      ∧ closestPoint doubled (P 0 0 1) = Some (mkVec3 DBL_MAX DBL_MAX DBL_MAX)
      ∧ ∀ i tri, triangle doubled i = Some tri →
          flt (distSquaredTo (P 0 0 1) tri) DBL_MAX = false)
     ∨ (∃ i tri, triangle doubled i = Some tri
          ∧ actualClosestNormal doubled (P 0 0 1) = Some (tri_closestNormal tri (P 0 0 1))
          ∧ closestPoint doubled (P 0 0 1) = Some (tri_closestPoint tri (P 0 0 1))
          ∧ (∀ j tj, triangle doubled j = Some tj →
               flt (distSquaredTo (P 0 0 1) tj) (distSquaredTo (P 0 0 1) tri) = false)
          ∧ (∀ j tj, j < i → triangle doubled j = Some tj →
               distSquaredTo (P 0 0 1) tj ≠ distSquaredTo (P 0 0 1) tri))).
Proof.
  split; [exact binary64_FltOrder|]. split; [exact doubled_materialize|].
  exact (actualClosestNormal_of_closest_face doubled (P 0 0 1) doubled_materialize).
Defined.

Lemma two_triangles_in_range :
  ∀ i f, _pointIndices two_triangles !! i = Some f →
         face_in_range (length (_points two_triangles)) f.
Proof.
  intros [|[|i]] f Hf; simpl in Hf; [| |done]; injection Hf as <-;
    unfold face_in_range; simpl; lia.
Qed.

Lemma boundingBox_contains_referenced_witness :
  BoxContains float inside
  ∧ (∀ i f, _pointIndices two_triangles !! i = Some f →
            face_in_range (length (_points two_triangles)) f)
  ∧ ∃ b, boundingBox two_triangles = Some b
    ∧ ∀ i f v p, _pointIndices two_triangles !! i = Some f → incident f v →
        _points two_triangles !! v = Some p → inside b p.
Proof.
  split; [exact cornerBox_contains|]. split; [exact two_triangles_in_range|].
  exact (boundingBox_contains_referenced inside two_triangles two_triangles_in_range).
Defined.

(** The box of the two triangles, and [intersects] on a ray that hits the
    first face and on one that points away from both. *)
Example boundingBox_and_intersects_on_doubles :
  boundingBox two_triangles = Some (mkBox3 (P 0 0 0) (P 2 2 1))
  ∧ intersects two_triangles upward = Some true
  ∧ intersects two_triangles (mkRay3D (P 0 0 5) (P 0 0 1)) = Some false.
Proof. repeat split; vm_compute; reflexivity. Qed.


Lemma nan_unordered : ¬ ordered nan.
Proof. intros [b [H|H]]; simpl in H; rewrite ltb_spec in H; by destruct (Prim2SF b). Qed.

Lemma nan_not_zero : nan ≠ 0%float.
Proof. intros H. apply (f_equal Prim2SF) in H. discriminate H. Qed.

Lemma collinear_in_range :
  ∀ i f, _pointIndices collinear !! i = Some f →
         face_in_range (length (_points collinear)) f.
Proof.
  intros [|i] f Hf; simpl in Hf; [|done]. injection Hf as <-.
  unfold face_in_range; simpl; lia.
Qed.

Lemma pinched_in_range :
  ∀ i f, _pointIndices pinched !! i = Some f →
         face_in_range (length (_points pinched)) f.
Proof.
  intros [|i] f Hf; simpl in Hf; [|done]. injection Hf as <-.
  unfold face_in_range; simpl; lia.
Qed.

(** C6, counterexample.  On doubles, the first vertex of a face of three
    collinear positions has accumulated angle 0 and is not left with the
    zero vector: its corner normal is the normalization of a zero cross
    product, which is not a number, and 0 times that is not a number.  And a
    face that names a position twice hands [std::acos] an argument that is
    not a number. *)
Lemma zero_angle_vertex_not_zero :
  ¬ (∀ m : TriangleMesh3 float,
       (∀ i f, _pointIndices m !! i = Some f →
               face_in_range (length (_points m)) f) →
       ∀ m' args v, setAngleWeightedVertexNormal m = Some (m', args) →
         v < length (_points m) →
         fgt (weightAt (cornersOf m (_pointIndices m)) v) f0 = false →
         _normals m' !! v = Some Vector3D_zero)
  ∧ ¬ (∀ m : TriangleMesh3 float,
         (∀ i f, _pointIndices m !! i = Some f →
                 face_in_range (length (_points m)) f) →
         ∀ m' args a, setAngleWeightedVertexNormal m = Some (m', args) →
           a ∈ args → ordered a).
Proof.
  split.
  - intros H.
    destruct (setAngleWeightedVertexNormal collinear) as [[m' args]|] eqn:E;
      [|by vm_compute in E].
    specialize (H collinear collinear_in_range m' args 0 E).
    vm_compute in E. injection E as <- <-.
    specialize (H ltac:(simpl; lia) ltac:(vm_compute; reflexivity)).
    apply (f_equal (from_option x 0%float)) in H. by apply nan_not_zero.
  - intros H.
    destruct (setAngleWeightedVertexNormal pinched) as [[m' args]|] eqn:E;
      [|by vm_compute in E].
    specialize (H pinched pinched_in_range m' args nan E).
    vm_compute in E. injection E as <- <-.
    apply nan_unordered, H. by left.
Qed.

Example collinear_normals :
  (r ← setAngleWeightedVertexNormal collinear; Some (_normals r.1, r.2))
  = Some ([mkVec3 nan nan nan; mkVec3 nan nan nan; mkVec3 nan nan nan],
          [1; -1; 1]%float)
  ∧ weightAt (cornersOf collinear (_pointIndices collinear)) 0 = 0%float.
Proof. split; vm_compute; reflexivity. Qed.

Lemma two_triangles_faces_are : faces_are two_triangles two_triangles_faces.
Proof. split; [reflexivity|]. intros [|[|i]]; reflexivity. Qed.

Lemma huge_faces_are : faces_are huge huge_faces.
Proof. split; [reflexivity|]. intros [|[|i]]; reflexivity. Qed.

Lemma computeAreaCache_table_witness :
  FltOrder float ∧ FltDivSelf float ∧ FltMonotone float fle64
  ∧ faces_are two_triangles two_triangles_faces
  ∧ ∃ c, computeAreaCache two_triangles
       = Some (mkMesh (_points two_triangles) (_normals two_triangles)
                 (_uvs two_triangles) (_pointIndices two_triangles)
                 (_normalIndices two_triangles) (_uvIndices two_triangles) c)
     ∧ computeAreaCacheP two_triangles
       = Some (mkMesh (_points two_triangles) (_normals two_triangles)
                 (_uvs two_triangles) (_pointIndices two_triangles)
                 (_normalIndices two_triangles) (_uvIndices two_triangles) c)
     ∧ length c = numberOfFaces two_triangles + 1
     ∧ rawAreaTable two_triangles_faces !! 0 = Some f0
     ∧ (∀ i tri prev, two_triangles_faces !! i = Some tri →
          rawAreaTable two_triangles_faces !! i = Some prev →
          rawAreaTable two_triangles_faces !! S i = Some (fadd (tri_area tri) prev))
     ∧ rawAreaTable two_triangles_faces !! numberOfFaces two_triangles
       = Some (totalArea two_triangles_faces)
     ∧ c !! 0 = Some f0
     ∧ (∀ i r, rawAreaTable two_triangles_faces !! S i = Some r →
          c !! S i = Some (fdiv r (totalArea two_triangles_faces)))
     ∧ (flt f0 (totalArea two_triangles_faces) = true →
        flt DBL_MAX (totalArea two_triangles_faces) = false →
        last c = Some f1)
     ∧ ((∀ tri, tri ∈ two_triangles_faces → fle64 f0 (tri_area tri)) →
        flt f0 (totalArea two_triangles_faces) = true →
        flt DBL_MAX (totalArea two_triangles_faces) = false →
        ascending fle64 c ∧ cdf_table c).
Proof.
  split; [exact binary64_FltOrder|]. split; [exact binary64_FltDivSelf|].
  split; [exact binary64_FltMonotone|]. split; [exact two_triangles_faces_are|].
  exact (computeAreaCache_table fle64 two_triangles two_triangles_faces
           two_triangles_faces_are).
Defined.

(** C3, counterexample.  On doubles, with a face whose area overflows: the
    faces can be read, no area is negative and the total is positive, but
    the total is an infinity, every later entry is a quotient by it, and the
    last entry, infinity divided by infinity, is not 1. *)
Lemma computeAreaCache_overflow :
  ¬ (∀ (m : TriangleMesh3 float) (tris : list (Triangle3 float)),
       faces_are m tris →
       (∀ tri, tri ∈ tris → flt (tri_area tri) f0 = false) →
       flt f0 (totalArea tris) = true →
       ∃ m', computeAreaCache m = Some m' ∧ cdf_table (_areaCache m')).
Proof.
  intros H. destruct (H huge huge_faces huge_faces_are) as (m' & Hm' & _ & _ & Hlast).
  - intros tri Htri. unfold huge_faces in Htri. vm_compute in Htri.
    repeat (apply elem_of_cons in Htri as [->|Htri]; [vm_compute; reflexivity|]).
    by apply elem_of_nil in Htri.
  - vm_compute. reflexivity.
  - vm_compute in Hm'. injection Hm' as <-. vm_compute in Hlast.
    apply (f_equal (from_option Prim2SF S754_nan)) in Hlast. discriminate Hlast.
Qed.

Example huge_cache :
  (m ← computeAreaCache huge; Some (_areaCache m)) = Some [0; nan; nan]%float
  ∧ totalArea huge_faces = infinity.
Proof. split; vm_compute; reflexivity. Qed.





(** The areas of the two triangles are numbers that are not negative, and
    their total is positive and finite. *)
Example two_triangles_areas :
  (∀ tri, tri ∈ two_triangles_faces → fle64 f0 (tri_area tri))
  ∧ flt f0 (totalArea two_triangles_faces) = true
  ∧ flt DBL_MAX (totalArea two_triangles_faces) = false.
Proof.
  split; [|split; vm_compute; reflexivity].
  intros tri Htri. unfold two_triangles_faces in Htri. vm_compute in Htri.
  repeat (apply elem_of_cons in Htri as [->|Htri]; [vm_compute; reflexivity|]).
  by apply elem_of_nil in Htri.
Qed.

(** The table of the two triangles on doubles meets the precondition of
    the search for every value, and is a normalized table. *)
Example two_triangles_table :
  (m ← computeAreaCache two_triangles; Some (_areaCache m))
  = Some [0; 0x1.999999999999ap-3; 1]%float
  ∧ cdf_table [0; 0x1.999999999999ap-3; 1]%float
  ∧ ∀ val, partitioned [0; 0x1.999999999999ap-3; 1]%float val.
Proof.
  split; [vm_compute; reflexivity|].
  assert (Hsorted : nondecreasing [0; 0x1.999999999999ap-3; 1]%float).
  { intros [|[|[|i]]] [|[|[|j]]] a b Hij Ha Hb; simpl in Ha, Hb; try done; try lia;
      injection Ha as <-; injection Hb as <-; reflexivity. }
  split; [by repeat split|].
  intros val [|[|[|i]]] [|[|[|j]]] e e' Hij He He'; simpl in He, He'; try done; try lia;
    injection He as <-; injection He' as <-; try done;
    intros Hlt; (eapply flt_trans; [|exact Hlt]); reflexivity.
Qed.

(** A cache of the right length is used as it is: with the table of the
    two triangles already in place [sample] returns the mesh unchanged, and
    a draw of 0.125 selects the first face, one of 0.5 the second. *)
Example sample_keeps_cache :
  let m := set_areaCache two_triangles [0; 0x1.999999999999ap-3; 1]%float in
  (r ← sample m 0.125%float 0.25%float 0.25%float; Some (r.1.1, r.2))
  = Some (P 0 0 0, m)
  ∧ (r ← sample m 0.5%float 0.25%float 0.25%float; Some (r.1.1, r.2))
    = Some (P 0 0 1, m).
Proof. split; vm_compute; reflexivity. Qed.

Lemma setAngleWeightedVertexNormal_guarded_witness :
  FltOrder float
  ∧ (∀ i f, _pointIndices two_triangles !! i = Some f →
            face_in_range (length (_points two_triangles)) f)
  ∧ ∃ ns,
    setAngleWeightedVertexNormal two_triangles
    = Some (mkMesh (_points two_triangles) ns (_uvs two_triangles)
                   (_pointIndices two_triangles) (_pointIndices two_triangles)
                   (_uvIndices two_triangles) (_areaCache two_triangles),
            cornerCos <$> cornersOf two_triangles (_pointIndices two_triangles))
    ∧ (∀ c, c ∈ cornersOf two_triangles (_pointIndices two_triangles) →
         (∃ ia pa pb pc,
            cornerCos c = clamp (dot (normalize (vsub pb pa)) (normalize (vsub pc pa)))
                                (fneg f1) f1
            ∧ c = cornerAt ia pa pb pc
            ∧ (ordered (dot (normalize (vsub pb pa)) (normalize (vsub pc pa))) →
               ordered (cornerCos c))
            ∧ (¬ ordered (cornerCos c) →
               cornerCos c = dot (normalize (vsub pb pa)) (normalize (vsub pc pa))))
         ∧ flt (cornerCos c) (fneg f1) = false ∧ flt f1 (cornerCos c) = false)
    ∧ length ns = length (_points two_triangles)
    ∧ ∀ v, v < length (_points two_triangles) →
        let W := weightAt (cornersOf two_triangles (_pointIndices two_triangles)) v in
        let P := pseudoNormalAt (cornersOf two_triangles (_pointIndices two_triangles)) v in
        ns !! v = Some (if fgt W f0 then vdiv P W else P)
        ∧ ((∀ c, c ∈ cornersOf two_triangles (_pointIndices two_triangles) →
              cornerVertex c ≠ v) →
           ns !! v = Some Vector3D_zero).
Proof.
  split; [exact binary64_FltOrder|]. split; [exact two_triangles_in_range|].
  exact (setAngleWeightedVertexNormal_guarded two_triangles two_triangles_in_range).
Defined.

End IEEEProofs.

(** ** Exact rationals: laws and runs *)

Module RationalProofs.
Import Rational.

Lemma flt_Qlt (a b : Q) : flt a b = true ↔ (a < b)%Q.
Proof.
  unfold flt; simpl. rewrite negb_true_iff. split.
  - intros H. apply Qnot_le_lt. intros Hle. apply Qle_bool_iff in Hle. congruence.
  - intros H. destruct (Qle_bool b a) eqn:E; [|done].
    apply Qle_bool_iff in E. by apply Qlt_not_le in H.
Qed.

Lemma flt_Qle (a b : Q) : flt a b = false ↔ (b <= a)%Q.
Proof.
  unfold flt; simpl. rewrite negb_false_iff. apply Qle_bool_iff.
Qed.

#[export] Instance Q_FltOrder : FltOrder Q.
Proof.
  split.
  - intros a. apply flt_Qle, Qle_refl.
  - intros a b c. rewrite !flt_Qlt. apply Qlt_trans.
  - reflexivity.
Qed.

#[export] Instance Q_FltDivSelf : FltDivSelf Q.
Proof.
  intros t. rewrite flt_Qlt. intros Ht. left. simpl.
  change 1%Q with (Qred 1). apply Qred_complete.
  apply Qmult_inv_r. intros H0. rewrite H0 in Ht. by apply Qlt_irrefl in Ht.
Qed.

#[export] Instance Q_FltMonotone : FltMonotone Q Qle.
Proof.
  split.
  - apply Qle_refl.
  - intros a b c. apply Qle_trans.
  - intros a b. by rewrite flt_Qle.
  - intros a b c. rewrite !flt_Qlt. apply Qle_lt_trans.
  - intros a b Ha Hb. simpl. rewrite Qred_correct.
    rewrite <- (Qplus_0_l b) at 1. by apply Qplus_le_l.
  - intros a b t Hb Hab. rewrite flt_Qlt. intros Ht _. simpl.
    rewrite !Qred_correct. unfold Qdiv. apply Qmult_le_compat_r; [done|].
    apply Qinv_le_0_compat. by apply Qlt_le_weak.
  - intros t _. simpl. change 0%Q with (Qred 0) at 2. apply Qred_complete.
    unfold Qdiv. apply Qmult_0_l.
Qed.

Lemma folded_in_range :
  ∀ i f, _pointIndices folded !! i = Some f → face_in_range (length (_points folded)) f.
Proof.
  intros [|[|i]] f Hf; simpl in Hf; [| |done]; injection Hf as <-;
    unfold face_in_range; simpl; lia.
Qed.

Lemma folded_no_uvs :
  hasUvs folded = true → ∀ i, i < numberOfFaces folded →
    ∃ tf, _uvIndices folded !! i = Some tf ∧ face_in_range (length (_uvs folded)) tf.
Proof. intros H. discriminate H. Qed.

Lemma setFaceNormal_last_writer_witness :
  (∀ i f, _pointIndices folded !! i = Some f →
          face_in_range (length (_points folded)) f)
  ∧ (hasUvs folded = true → ∀ i, i < numberOfFaces folded →
       ∃ tf, _uvIndices folded !! i = Some tf
             ∧ face_in_range (length (_uvs folded)) tf)
  ∧ (∀ t t' : Triangle3 Q, points t = points t' →
       tri_faceNormal t = tri_faceNormal t')
  ∧ ∃ ns, setFaceNormal folded
        = Some (mkMesh (_points folded) ns (_uvs folded) (_pointIndices folded)
                       (_pointIndices folded) (_uvIndices folded) (_areaCache folded))
    ∧ length ns = length (_points folded)
    ∧ ∀ v, v < length (_points folded) →
        (∀ i f, _pointIndices folded !! i = Some f → incident f v →
           (∀ j f', i < j → _pointIndices folded !! j = Some f' → ¬ incident f' v) →
           is_Some (flatNormal folded i) ∧ ns !! v = flatNormal folded i)
        ∧ ((∀ i f, _pointIndices folded !! i = Some f → ¬ incident f v) →
           ns !! v = resize (length (_points folded)) Vector3D_zero (_normals folded) !! v).
Proof.
  split; [exact folded_in_range|]. split; [exact folded_no_uvs|].
  split; [exact vertexPrim_faceNormal_points|].
  exact (setFaceNormal_last_writer folded folded_in_range folded_no_uvs
           vertexPrim_faceNormal_points).
Defined.

Lemma normal_run_uniform : uniform normal_run.
Proof.
  exists true, false. intros c Hc. unfold normal_run in Hc.
  repeat (apply elem_of_cons in Hc as [->|Hc]; [done|]). by apply elem_of_nil in Hc.
Qed.

Lemma uniform_appends_keep_lengths_witness :
  uniform normal_run
  ∧ (∀ k, ∃ m : TriangleMesh3 Q,
      faceAppends false empty_mesh (take k normal_run) = Some m
      ∧ lengths_match m
      ∧ ∀ c, normal_run !! k = Some c →
          (appendsNormal c = true →
             length (_pointIndices m) = length (_normalIndices m))
          ∧ (appendsUv c = true →
             length (_pointIndices m) = length (_uvIndices m)))
  ∧ ((∀ c, c ∈ normal_run → appendsUv c = false) →
     faceAppends true (empty_mesh : TriangleMesh3 Q) normal_run
     = faceAppends false empty_mesh normal_run).
Proof.
  split; [exact normal_run_uniform|].
  exact (uniform_appends_keep_lengths normal_run normal_run_uniform).
Defined.

Lemma folded_below_max :
  ∀ i pf, _pointIndices folded !! i = Some pf → below_max pf.
Proof.
  intros [|[|i]] f Hf; simpl in Hf; [| |done]; injection Hf as <-;
    unfold below_max; simpl; lia.
Qed.

Lemma folded_normals_below_max :
  hasNormals folded = true → ∀ i, i < numberOfFaces folded →
    ∃ nf, _normalIndices folded !! i = Some nf ∧ below_max nf.
Proof.
  intros _ [|[|i]] Hi; [| |unfold numberOfFaces in Hi; simpl in Hi; lia]; eexists; (split; [reflexivity|]);
    unfold below_max; simpl; lia.
Qed.

Lemma folded_uvs_below_max :
  hasUvs folded = true → ∀ i, i < numberOfFaces folded →
    ∃ tf, _uvIndices folded !! i = Some tf ∧ below_max tf.
Proof. intros H. discriminate H. Qed.

Lemma writeObj_lines_witness :
  (∀ i pf, _pointIndices folded !! i = Some pf → below_max pf)
  ∧ (hasUvs folded = true → ∀ i, i < numberOfFaces folded →
       ∃ tf, _uvIndices folded !! i = Some tf ∧ below_max tf)
  ∧ (hasNormals folded = true → ∀ i, i < numberOfFaces folded →
       ∃ nf, _normalIndices folded !! i = Some nf ∧ below_max nf)
  ∧ writeObj folded "" = Some ("" +:+ joined (obj_lines folded)).
Proof.
  split; [exact folded_below_max|]. split; [exact folded_uvs_below_max|].
  split; [exact folded_normals_below_max|].
  exact (writeObj_lines folded "" folded_below_max folded_uvs_below_max
           folded_normals_below_max).
Defined.

(** C7, counterexample.  After [addPointNormalFace] and then
    [addPointFace] there is one normal triple for two faces; and in a debug
    build [addPointFace] followed by [addPointNormalFace] fails the latter's
    assertion. *)
Lemma mixed_appends_break_lengths :
  ¬ (∀ (cs : list FaceAppend) (m : TriangleMesh3 Q),
       faceAppends false empty_mesh cs = Some m → lengths_match m)
  ∧ faceAppends true (empty_mesh : TriangleMesh3 Q)
      [AddPointFace (mkVec3 0 1 2); AddPointNormalFace (mkVec3 0 1 2) (mkVec3 0 0 0)]%N
    = None.
Proof.
  split; [|done]. intros H.
  destruct (H [AddPointNormalFace (mkVec3 0 1 2) (mkVec3 0 0 0);
               AddPointFace (mkVec3 0 1 2)]%N _ eq_refl) as [[Hn|Hn] _];
    simpl in Hn; discriminate.
Qed.

(** The face line [f 1/2/3 4/5/6 7/8/9]: the texture indices 2, 5, 8 end
    up, decremented, in the normal-index sequence, and the normal indices
    3, 6, 9 in the uv-index sequence. *)
Example readObj_vtn_example :
  (m ← callback false (empty_mesh : TriangleMesh3 Q)
         (triangular_face_geometric_vertices_texture_vertices_vertex_normals
            (1, 2, 3) (4, 5, 6) (7, 8, 9))%Z;
   Some (_pointIndices m, _uvIndices m, _normalIndices m))
  = Some ([mkVec3 0 3 6], [mkVec3 2 5 8], [mkVec3 1 4 7])%N.
Proof. reflexivity. Qed.

(** The assertion that guards the uv variants compares the number of faces
    with the number of texture coordinates, not with the number of uv
    triples: in a debug build the second of two [addPointUvFace] calls on an
    empty mesh aborts, although the uv triples and the faces match in number
    (a release build appends both). *)
Lemma uv_assertion_counts_attributes :
  faceAppends true (empty_mesh : TriangleMesh3 Q)
    [AddPointUvFace (mkVec3 0 1 2) (mkVec3 0 1 2);
     AddPointUvFace (mkVec3 1 3 2) (mkVec3 1 3 2)]%N = None
  ∧ ∃ m : TriangleMesh3 Q,
      faceAppends false empty_mesh
        [AddPointUvFace (mkVec3 0 1 2) (mkVec3 0 1 2);
         AddPointUvFace (mkVec3 1 3 2) (mkVec3 1 3 2)]%N = Some m
      ∧ length (_uvIndices m) = length (_pointIndices m).
Proof. split; [reflexivity|]. eexists. split; reflexivity. Qed.

(** [readObj] hands back the decoder's verdict, here on a decoder that
    reports three vertices and a triangle and then fails. *)
Lemma readObj_returns_parse_result_witness :
  readObj (λ _ : unit, ([geometric_vertex 0 0 0; geometric_vertex 1 0 0;
                         geometric_vertex 0 1 0;
                         triangular_face_geometric_vertices 1 2 3]%Q, false))
          false (empty_mesh : TriangleMesh3 Q) ()
  = Some (one_triangle, false)
  ∧ false = false.
Proof.
  split; [reflexivity|].
  exact (readObj_returns_parse_result
           (λ _ : unit, ([geometric_vertex 0 0 0; geometric_vertex 1 0 0;
                          geometric_vertex 0 1 0;
                          triangular_face_geometric_vertices 1 2 3]%Q, false))
           false empty_mesh one_triangle () false eq_refl).
Defined.

(** Runs on rationals.  The single right triangle of the specification:
    area one half, and the origin is closest to the point one unit above it. *)
Example single_triangle_scenario :
  area one_triangle = Some (1 # 2)%Q
  ∧ closestPoint one_triangle (P 0 0 1) = Some (P 0 0 0).
Proof. split; vm_compute; reflexivity. Qed.

(** The text [v 0 0 0], [v 1 0 0], [v 0 1 0], [f 1 2 3], as events. *)
Example readObj_scenario :
  callbacks false (empty_mesh : TriangleMesh3 Q)
    [geometric_vertex 0 0 0; geometric_vertex 1 0 0; geometric_vertex 0 1 0;
     triangular_face_geometric_vertices 1 2 3]%Q
  = Some one_triangle.
Proof. reflexivity. Qed.

(** Areas 1/2 and 2: the table is 0, 1/5, 1; a draw of 1/10 lands on the
    first face and a draw of 1/2 on the second. *)
Example area_cache_scenario :
  (m ← computeAreaCache two_triangles; Some (_areaCache m)) = Some [0; 1 # 5; 1]%Q
  ∧ (r ← sample two_triangles (1 # 10) (1 # 3) (1 # 4); Some r.1.1) = Some (P 0 0 0)
  ∧ (r ← sample two_triangles (1 # 2) (1 # 3) (1 # 4); Some r.1.1) = Some (P 0 0 1).
Proof. repeat split; vm_compute; reflexivity. Qed.

(** Vertices 1 and 2 belong to both faces of [folded] and end up with the
    normal of the second face, like vertex 3; vertex 0 keeps the first's. *)
Example setFaceNormal_scenario :
  (m ← setFaceNormal folded; Some (_normals m))
  = (n0 ← flatNormal folded 0; n1 ← flatNormal folded 1; Some [n0; n1; n1; n1]).
Proof. vm_compute. reflexivity. Qed.

(** Rationals print as numerator/denominator here. *)
Example writeObj_scenario :
  writeObj one_triangle ""
  = Some (joined ["v 0/1 0/1 0/1" +:+ endl; "v 1/1 0/1 0/1" +:+ endl;
                  "v 0/1 1/1 0/1" +:+ endl; "f 1 2 3 " +:+ endl])
  ∧ writeObj folded ""
    = Some (joined ["v 0/1 0/1 0/1" +:+ endl; "v 1/1 0/1 0/1" +:+ endl;
                    "v 0/1 1/1 0/1" +:+ endl; "v 1/1 1/1 1/1" +:+ endl;
                    "vn 0/1 0/1 1/1" +:+ endl; "vn 0/1 0/1 1/1" +:+ endl;
                    "vn 0/1 0/1 1/1" +:+ endl; "vn 0/1 0/1 1/1" +:+ endl;
                    "f 1//1 2//2 3//3 " +:+ endl; "f 2//2 4//4 3//3 " +:+ endl]).
Proof. split; vm_compute; reflexivity. Qed.


Lemma single_uv_append :
  ∀ c : FaceAppend, c ∈ [AddPointUvFace (mkVec3 0 1 2) (mkVec3 0 1 2)]%N →
    appendsUv c = true.
Proof. by intros c ->%list_elem_of_singleton. Qed.

Lemma uv_faces_abort_debug_witness :
  (∀ c : FaceAppend, c ∈ [AddPointUvFace (mkVec3 0 1 2) (mkVec3 0 1 2)]%N →
     appendsUv c = true)
  ∧ is_Some (faceAppends true (empty_mesh : TriangleMesh3 Q)
               [AddPointUvFace (mkVec3 0 1 2) (mkVec3 0 1 2)]%N)
  ∧ length [AddPointUvFace (mkVec3 0 1 2) (mkVec3 0 1 2)]%N ≤ 1.
Proof.
  split; [exact single_uv_append|]. split; [by eexists|].
  exact (uv_faces_abort_debug (empty_mesh : TriangleMesh3 Q) _ single_uv_append
           (ex_intro _ _ eq_refl)).
Defined.

Lemma textured_below_max :
  ∀ i pf, _pointIndices textured !! i = Some pf → below_max pf.
Proof.
  intros [|i] f Hf; simpl in Hf; [|done]; injection Hf as <-;
    unfold below_max; simpl; lia.
Qed.

Lemma textured_uvs :
  hasUvs textured = true → length (_uvIndices textured) = numberOfFaces textured
    ∧ ∀ i tf, _uvIndices textured !! i = Some tf → below_max tf.
Proof.
  intros _. split; [done|].
  intros [|i] f Hf; simpl in Hf; [|done]; injection Hf as <-;
    unfold below_max; simpl; lia.
Qed.

Lemma textured_normals :
  hasNormals textured = true → length (_normalIndices textured) = numberOfFaces textured
    ∧ ∀ i nf, _normalIndices textured !! i = Some nf → below_max nf.
Proof.
  intros _. split; [done|].
  intros [|i] f Hf; simpl in Hf; [|done]; injection Hf as <-;
    unfold below_max; simpl; lia.
Qed.

Lemma writeObj_then_readObj_faces_witness :
  (∀ i pf, _pointIndices textured !! i = Some pf → below_max pf)
  ∧ (hasUvs textured = true → length (_uvIndices textured) = numberOfFaces textured
       ∧ ∀ i tf, _uvIndices textured !! i = Some tf → below_max tf)
  ∧ (hasNormals textured = true →
       length (_normalIndices textured) = numberOfFaces textured
       ∧ ∀ i nf, _normalIndices textured !! i = Some nf → below_max nf)
  ∧ writeObj textured ""
    = Some ("" +:+ joined ((obj_v_line <$> _points textured)
                           ++ (obj_vt_line <$> _uvs textured)
                           ++ (obj_vn_line <$> _normals textured)
                           ++ (obj_event_text <$> face_events textured)))
  ∧ callbacks false empty_mesh (face_events textured)
    = Some (mkMesh [] [] [] ([] ++ _pointIndices textured)
              ([] ++ (if hasNormals textured
                      then if hasUvs textured then _uvIndices textured
                           else _normalIndices textured
                      else []))
              ([] ++ (if hasUvs textured
                      then if hasNormals textured then _normalIndices textured
                           else _uvIndices textured
                      else []))
              []).
Proof.
  split; [exact textured_below_max|]. split; [exact textured_uvs|].
  split; [exact textured_normals|].
  exact (writeObj_then_readObj_faces textured empty_mesh "" textured_below_max
           textured_uvs textured_normals).
Defined.

Lemma addTriangle_then_triangle_witness :
  length (_normalIndices textured) = numberOfFaces textured
  ∧ length (_uvIndices textured) = numberOfFaces textured
  ∧ numberOfFaces (addTriangle textured raised) = numberOfFaces textured + 1
  ∧ triangle (addTriangle textured raised) (numberOfFaces textured) = Some raised
  ∧ (hasNormals textured = true → hasUvs textured = true →
     ∀ i t, triangle textured i = Some t →
            triangle (addTriangle textured raised) i = Some t).
Proof.
  split; [reflexivity|]. split; [reflexivity|].
  exact (addTriangle_then_triangle textured raised eq_refl eq_refl).
Defined.

Lemma one_triangle_has_face : 0 < numberOfFaces one_triangle.
Proof. unfold numberOfFaces. simpl. lia. Qed.

Lemma addTriangle_after_position_faces_witness :
  0 < numberOfFaces one_triangle
  ∧ _normalIndices one_triangle = []
  ∧ triangle (addTriangle one_triangle raised) (numberOfFaces one_triangle) = None.
Proof.
  split; [exact one_triangle_has_face|]. split; [reflexivity|].
  exact (addTriangle_after_position_faces one_triangle raised
           one_triangle_has_face eq_refl).
Defined.

Lemma textured_has_attributes :
  0 < numberOfFaces textured → hasNormals textured = true ∧ hasUvs textured = true.
Proof. done. Qed.

Lemma addTriangle_area_volume_witness :
  length (_normalIndices textured) = numberOfFaces textured
  ∧ length (_uvIndices textured) = numberOfFaces textured
  ∧ (0 < numberOfFaces textured →
     hasNormals textured = true ∧ hasUvs textured = true)
  ∧ (∀ a, area textured = Some a →
       area (addTriangle textured raised) = Some (fadd a (tri_area raised)))
  ∧ (∀ vol, volume textured = Some vol →
       volume (addTriangle textured raised)
       = Some (fadd vol (fdiv (dot (points raised).1.1
                                   (cross (points raised).1.2 (points raised).2)) f6))).
Proof.
  split; [reflexivity|]. split; [reflexivity|]. split; [exact textured_has_attributes|].
  exact (addTriangle_area_volume textured raised eq_refl eq_refl
           textured_has_attributes).
Defined.

Lemma folded_plus_point :
  ∀ i f v, _pointIndices folded !! i = Some f → incident f v →
    _points (addPoint folded (P 9 9 9)) !! v = _points folded !! v.
Proof.
  intros i f v Hf Hinc.
  change (_points (addPoint folded (P 9 9 9))) with (_points folded ++ [P 9 9 9]).
  apply lookup_app_l.
  destruct (folded_in_range i f Hf) as (Hx & Hy & Hz).
  destruct Hinc as [<-|[<-|<-]]; done.
Qed.

Lemma boundingBox_ignores_unreferenced_witness :
  _pointIndices (addPoint folded (P 9 9 9)) = _pointIndices folded
  ∧ (∀ i f v, _pointIndices folded !! i = Some f → incident f v →
       _points (addPoint folded (P 9 9 9)) !! v = _points folded !! v)
  ∧ boundingBox (addPoint folded (P 9 9 9)) = boundingBox folded.
Proof.
  split; [reflexivity|]. split; [exact folded_plus_point|].
  exact (boundingBox_ignores_unreferenced folded (addPoint folded (P 9 9 9))
           eq_refl folded_plus_point).
Defined.

Lemma folded_order1 : [3; 1; 0; 2] ≡ₚ seq kZeroSize (numberOfPoints folded - kZeroSize).
Proof. by apply (bool_decide_unpack _). Qed.

Lemma folded_order2 : [0; 1; 2; 3] ≡ₚ seq kZeroSize (numberOfNormals folded - kZeroSize).
Proof. by apply (bool_decide_unpack _). Qed.

(** [folded] doubled in size and turned by a quarter about the z axis, the
    bodies taking effect out of order. *)
Example transforms_out_of_order :
  (m ← scale folded (exist _ [3; 1; 0; 2] folded_order1) (2 # 1); Some (_points m))
  = Some [P 0 0 0; P 2 0 0; P 0 2 0; P 2 2 2]
  ∧ (m ← rotate folded (exist _ [3; 1; 0; 2] folded_order1)
           (exist _ [0; 1; 2; 3] folded_order2) (1 : @QuaternionD Q _);
     Some (_points m, _normals m))
    = Some ([P 0 0 0; P 0 1 0; P (-1) 0 0; P (-1) 1 1],
            [P 0 0 1; P 0 0 1; P 0 0 1; P 0 0 1]).
Proof. split; vm_compute; reflexivity. Qed.

Lemma two_triangles_cache :
  computeAreaCache two_triangles = Some (set_areaCache two_triangles [0; 1 # 5; 1]%Q).
Proof. vm_compute. reflexivity. Qed.

Lemma computeAreaCache_overwrites_witness :
  computeAreaCache two_triangles = Some (set_areaCache two_triangles [0; 1 # 5; 1]%Q)
  ∧ (∀ c, computeAreaCache (set_areaCache two_triangles c)
          = Some (set_areaCache two_triangles [0; 1 # 5; 1]%Q))
  ∧ computeAreaCache (set_areaCache two_triangles [0; 1 # 5; 1]%Q)
    = Some (set_areaCache two_triangles [0; 1 # 5; 1]%Q)
  ∧ computeAreaCache (clearAreaCache two_triangles)
    = Some (set_areaCache two_triangles [0; 1 # 5; 1]%Q)
  ∧ length (_areaCache (set_areaCache two_triangles [0; 1 # 5; 1]%Q))
    = numberOfFaces two_triangles + 1
  ∧ set_areaCache two_triangles [0; 1 # 5; 1]%Q
    = set_areaCache two_triangles
        (_areaCache (set_areaCache two_triangles [0; 1 # 5; 1]%Q)).
Proof.
  split; [exact two_triangles_cache|].
  exact (computeAreaCache_overwrites two_triangles _ two_triangles_cache).
Defined.

Lemma two_triangles_sample :
  sample two_triangles (1 # 2) (1 # 3) (1 # 4)
  = Some ((P 0 0 1, P 0 0 1), set_areaCache two_triangles [0; 1 # 5; 1]%Q).
Proof. vm_compute. reflexivity. Qed.

Lemma sample_builds_cache_once_witness :
  sample two_triangles (1 # 2) (1 # 3) (1 # 4)
  = Some ((P 0 0 1, P 0 0 1), set_areaCache two_triangles [0; 1 # 5; 1]%Q)
  ∧ set_areaCache two_triangles [0; 1 # 5; 1]%Q
    = set_areaCache two_triangles
        (_areaCache (set_areaCache two_triangles [0; 1 # 5; 1]%Q))
  ∧ length (_areaCache (set_areaCache two_triangles [0; 1 # 5; 1]%Q))
    = numberOfFaces two_triangles + 1
  ∧ sample (set_areaCache two_triangles [0; 1 # 5; 1]%Q) (1 # 2) (1 # 3) (1 # 4)
    = Some ((P 0 0 1, P 0 0 1), set_areaCache two_triangles [0; 1 # 5; 1]%Q)
  ∧ ∀ v1 v2 v3 r' m2,
      sample (set_areaCache two_triangles [0; 1 # 5; 1]%Q) v1 v2 v3 = Some (r', m2) →
      m2 = set_areaCache two_triangles [0; 1 # 5; 1]%Q.
Proof.
  split; [exact two_triangles_sample|].
  exact (sample_builds_cache_once two_triangles _ (1 # 2) (1 # 3) (1 # 4) _
           two_triangles_sample).
Defined.

(** Two positions and no face. *)
Lemma faceless_mesh_witness :
  numberOfFaces (set_points (empty_mesh : TriangleMesh3 Q) [P 0 0 0; P 1 0 0]) = 0
  ∧ intersects (set_points (empty_mesh : TriangleMesh3 Q) [P 0 0 0; P 1 0 0])
      (mkRay3D (P 0 0 (-1)) (P 0 0 1)) = Some false
  ∧ area (set_points (empty_mesh : TriangleMesh3 Q) [P 0 0 0; P 1 0 0]) = Some f0
  ∧ volume (set_points (empty_mesh : TriangleMesh3 Q) [P 0 0 0; P 1 0 0]) = Some f0
  ∧ boundingBox (set_points (empty_mesh : TriangleMesh3 Q) [P 0 0 0; P 1 0 0])
    = Some box_default
  ∧ computeAreaCache (set_points (empty_mesh : TriangleMesh3 Q) [P 0 0 0; P 1 0 0])
    = Some (set_areaCache
              (set_points (empty_mesh : TriangleMesh3 Q) [P 0 0 0; P 1 0 0]) [f0])
  ∧ sample (set_points (empty_mesh : TriangleMesh3 Q) [P 0 0 0; P 1 0 0])
      (1 # 2) (1 # 3) (1 # 4) = None.
Proof.
  split; [reflexivity|].
  exact (faceless_mesh (set_points (empty_mesh : TriangleMesh3 Q) [P 0 0 0; P 1 0 0])
           (mkRay3D (P 0 0 (-1)) (P 0 0 1)) (1 # 2) (1 # 3) (1 # 4) eq_refl).
Defined.

Lemma broken_second_face : 1 < numberOfFaces broken.
Proof. unfold numberOfFaces. simpl. lia. Qed.

Lemma unreadable_face_witness :
  1 < numberOfFaces broken
  ∧ triangle broken 1 = None
  ∧ closestPoint broken (P 0 0 1) = None
  ∧ actualClosestNormal broken (P 0 0 1) = None
  ∧ closestDistance broken (P 0 0 1) = None
  ∧ getClosestIntersection broken (mkRay3D (P 0 0 (-1)) (P 0 0 1))
      (DBL_MAX, P 0 0 0) = None
  ∧ area broken = None
  ∧ volume broken = None
  ∧ computeAreaCache broken = None
  ∧ intersects broken (mkRay3D (P 0 0 (-1)) (P 0 0 1)) ≠ Some false.
Proof.
  split; [exact broken_second_face|]. split; [reflexivity|].
  exact (unreadable_face broken 1 (P 0 0 1) (mkRay3D (P 0 0 (-1)) (P 0 0 1))
           (DBL_MAX, P 0 0 0) broken_second_face eq_refl).
Defined.

(** The single triangle of the specification spans the box from (0, 0, 0)
    to (1, 1, 0); the unit tetrahedron has volume one sixth; reading the
    same three positions and one face into a mesh twice leaves two faces on
    the first three positions; and a ray that hits the first face of [broken]
    is answered before the unreadable second face is looked at. *)
Example further_scenarios :
  boundingBox one_triangle = Some (mkBox3 (P 0 0 0) (P 1 1 0))
  ∧ volume tetrahedron = Some (1 # 6)%Q
  ∧ (m ← callbacks false one_triangle
           [geometric_vertex 5 0 0; geometric_vertex 6 0 0; geometric_vertex 5 1 0;
            triangular_face_geometric_vertices 1 2 3]%Q;
     Some (_pointIndices m, length (_points m)))
    = Some ([mkVec3 0 1 2; mkVec3 0 1 2]%N, 6)
  ∧ intersects broken (mkRay3D (P 0 0 (-1)) (P 0 0 1)) = Some true.
Proof. repeat split; vm_compute; reflexivity. Qed.

(** Positions, one normal, and a position-only face. *)
Lemma attribute_without_faces_witness :
  0 < numberOfFaces (addNormal one_triangle (P 0 0 1))
  ∧ ((hasNormals (addNormal one_triangle (P 0 0 1)) = true
      ∧ _normalIndices (addNormal one_triangle (P 0 0 1)) !! 0 = None)
     ∨ (hasUvs (addNormal one_triangle (P 0 0 1)) = true
        ∧ _uvIndices (addNormal one_triangle (P 0 0 1)) !! 0 = None))
  ∧ triangle (addNormal one_triangle (P 0 0 1)) 0 = None
  ∧ writeObj (addNormal one_triangle (P 0 0 1)) "" = None.
Proof.
  split; [exact one_triangle_has_face|]. split; [left; split; reflexivity|].
  exact (attribute_without_faces (addNormal one_triangle (P 0 0 1)) 0 ""
           one_triangle_has_face (or_introl (conj eq_refl eq_refl))).
Defined.

Lemma table_below_two :
  ∀ i e, _areaCache (set_areaCache two_triangles [0; 1 # 5; 1]%Q) !! i = Some e →
    flt e (2 # 1)%Q = true.
Proof.
  intros [|[|[|i]]] e He; simpl in He; [injection He as <-; reflexivity..|done].
Qed.

Lemma sample_above_table_witness :
  length (_areaCache (set_areaCache two_triangles [0; 1 # 5; 1]%Q))
  = numberOfFaces (set_areaCache two_triangles [0; 1 # 5; 1]%Q) + 1
  ∧ (∀ i e, _areaCache (set_areaCache two_triangles [0; 1 # 5; 1]%Q) !! i = Some e →
       flt e (2 # 1)%Q = true)
  ∧ sample (set_areaCache two_triangles [0; 1 # 5; 1]%Q) (2 # 1) (1 # 3) (1 # 4) = None.
Proof.
  split; [reflexivity|]. split; [exact table_below_two|].
  exact (sample_above_table (set_areaCache two_triangles [0; 1 # 5; 1]%Q)
           (2 # 1) (1 # 3) (1 # 4) eq_refl table_below_two).
Defined.

Lemma one_triangle_stream_plain :
  ∀ e : @ObjEvent Q,
    e ∈ [comment "a triangle"; geometric_vertex 0 0 0; geometric_vertex 1 0 0;
         geometric_vertex 0 1 0; triangular_face_geometric_vertices 1 2 3]%Q →
    plain_event 3 e.
Proof.
  intros e He. repeat (apply elem_of_cons in He as [->|He]; [simpl; lia || done|]).
  by apply elem_of_nil in He.
Qed.

Lemma readObj_plain_stream_witness :
  (∀ e : @ObjEvent Q,
     e ∈ [comment "a triangle"; geometric_vertex 0 0 0; geometric_vertex 1 0 0;
          geometric_vertex 0 1 0; triangular_face_geometric_vertices 1 2 3]%Q →
     plain_event 3 e)
  ∧ ∃ m : TriangleMesh3 Q,
      readObj (λ _ : unit,
                 ([comment "a triangle"; geometric_vertex 0 0 0; geometric_vertex 1 0 0;
                   geometric_vertex 0 1 0;
                   triangular_face_geometric_vertices 1 2 3]%Q, true))
              true empty_mesh () = Some (m, true)
      ∧ m = mkMesh [mkVec3 0 0 0; mkVec3 1 0 0; mkVec3 0 1 0]%Q [] []
                   [mkVec3 0 1 2]%N [] [] []
      ∧ numberOfPoints m = 3
      ∧ hasNormals m = false ∧ hasUvs m = false
      ∧ ∀ i, i < numberOfFaces m → is_Some (triangle m i).
Proof.
  split; [exact one_triangle_stream_plain|].
  exact (readObj_plain_stream
           (λ _ : unit,
              ([comment "a triangle"; geometric_vertex 0 0 0; geometric_vertex 1 0 0;
                geometric_vertex 0 1 0;
                triangular_face_geometric_vertices 1 2 3]%Q, true))
           true () one_triangle_stream_plain).
Defined.

End RationalProofs.
